(** * Equirectangular tiles adapter: tile grid, visibility merge and loading queue

    Shallow embedding of
    - [src/adapters/equirectangular-tiles/Queue.js] (classes [Task] and [Queue]),
    - [src/adapters/equirectangular-tiles/index.js] (class
      [EquirectangularTilesAdapter]).

    Conventions.
    - JavaScript numbers that hold tile coordinates and grid sizes are
      integers ([Z]); [%] is [Z.rem] (sign of the dividend).  [cols / 2] is
      written with [Z.div]; it is the exact quotient whenever [cols] is even,
      which [loadTexture] enforces before a panorama is used.
    - Angles and priorities are real numbers; they are modelled as rationals
      ([Q]) with exact arithmetic.  Only their order and sign are observed.
    - [Task] objects are mutable and shared between the queue and the
      completion callbacks: they live in a heap ([list Task]) and are named
      by their index.
    - The objects [Queue.tasks], [Queue.runningTasks] and [props.tiles] are
      used as dictionaries.  [tasks] is enumerated ([Object.values]), so it is
      an insertion-ordered association list; the other two are only tested for
      membership and counted, so they are finite sets.
    - [EquirectangularTilesAdapter.debug] is [false] (its declared value). *)

From Stdlib Require Import ZArith QArith Lia Lqa Sorted.
From stdpp Require Import gmap strings list pretty.

Local Open Scope Z_scope.

(** ** Panorama configuration and tiles *)

Record Panorama := mkPanorama {
  width : Z;
  cols : Z;
  rows : Z;
  tileUrl : Z → Z → string;
  baseUrl : option string;
}.

(** A tile position [{ col, row }]. *)
Record Tile := mkTile { col : Z; row : Z }.

(** A tile to load [{ ...tile, angle }]. *)
Record Candidate := mkCandidate { tile : Tile; angle : Q }.

#[global] Instance Tile_eq_dec : EqDecision Tile.
Proof. solve_decision. Defined.

(** [const tileId = tile => `${tile.col}x${tile.row}`] *)
Definition tileId (t : Tile) : string :=
  pretty (col t) +:+ "x" +:+ pretty (row t).

(** ** Grid geometry: [__getAdjacentTiles] *)

(** The callback given to [.map] in [__getAdjacentTiles]. *)
Definition wrapTile (panorama : Panorama) (t : Tile) : Tile :=
  let t1 :=
    if row t <? 0 then
      (* wrap on top *)
      {| row := - row t - 1; col := col t + cols panorama / 2 |}
    else if rows panorama <=? row t then
      (* wrap on bottom *)
      {| row := (rows panorama - 1) - (row t - rows panorama);
         col := col t + cols panorama / 2 |}
    else t in
  if col t1 <? 0 then
    (* wrap on left *)
    {| col := col t1 + cols panorama; row := row t1 |}
  else if cols panorama <=? col t1 then
    (* wrap on right *)
    {| col := col t1 - cols panorama; row := row t1 |}
  else t1.

Definition __getAdjacentTiles (panorama : Panorama) (col row : Z) : list Tile :=
  wrapTile panorama <$>
    [ {| col := col - 1; row := row - 1 |};
      {| col := col; row := row - 1 |};
      {| col := col; row := row |};
      {| col := col - 1; row := row |} ].

(** The wrap as the specification words it: reflect the row at a pole and
    shift the column by half a turn, then reduce the column modulo [cols]. *)
Definition wrap_spec (cols rows : Z) (t : Tile) : Tile :=
  let t1 :=
    if row t <? 0 then {| col := col t + cols / 2; row := - row t - 1 |}
    else if rows <=? row t then
      {| col := col t + cols / 2; row := (rows - 1) - (row t - rows) |}
    else t in
  {| col := col t1 `mod` cols; row := row t1 |}.

Definition adjacentTiles_spec (cols rows col row : Z) : list Tile :=
  wrap_spec cols rows <$>
    [ mkTile (col - 1) (row - 1); mkTile col (row - 1);
      mkTile col row; mkTile (col - 1) row ].

Definition in_grid (panorama : Panorama) (t : Tile) : Prop :=
  0 ≤ col t < cols panorama ∧ 0 ≤ row t < rows panorama.

(** ** Visibility sampler: the merge loop of [__refresh] *)

(** [Math.min] on the two angles. *)
Definition Math_min (a b : Q) : Q := if Qlt_le_dec b a then b else a.

(** [c => c.row === tile.row && c.col === tile.col] *)
Definition same_tile (t : Tile) (c : Candidate) : bool :=
  (row (tile c) =? row t) && (col (tile c) =? col t).

(** Body of the [forEach] over the adjacent tiles: the first entry of
    [tilesToLoad] for the same position keeps the smaller angle, otherwise a
    new entry is pushed at the end. *)
Fixpoint mergeTile (angle0 : Q) (tilesToLoad : list Candidate) (t : Tile)
  : list Candidate :=
  match tilesToLoad with
  | [] => [ {| tile := t; angle := angle0 |} ]
  | c :: rest =>
      if same_tile t c
      then {| tile := tile c; angle := Math_min (angle c) angle0 |} :: rest
      else c :: mergeTile angle0 rest t
  end.

(** The viewer side of [__refresh] (texture to sphere coordinates, the test
    [tilePosition.dot(direction) > 0], the projection to viewer coordinates,
    the viewport test and [angleTo]) is the collaborator [view]: it gives
    [Some angle] for a sample point that is in front of the camera and on
    screen, and [None] for a sample that is skipped. *)
Definition View := Z → Z → option Q.

Definition visitSample (panorama : Panorama) (view : View)
    (tilesToLoad : list Candidate) (col row : Z) : list Candidate :=
  match view col row with
  | Some a => foldl (mergeTile a) tilesToLoad (__getAdjacentTiles panorama col row)
  | None => tilesToLoad
  end.

(** The two nested [for] loops, [col] from 0 to [cols] and [row] from 0 to
    [rows], both included. *)
Definition tilesToLoad (panorama : Panorama) (view : View) : list Candidate :=
  foldl (λ acc c,
           foldl (λ acc r, visitSample panorama view acc c r)
                 acc (seqZ 0 (rows panorama + 1)))
        [] (seqZ 0 (cols panorama + 1)).

(** The sample points of the lattice, in visiting order. *)
Definition samples (panorama : Panorama) : list (Z * Z) :=
  c ← seqZ 0 (cols panorama + 1);
  (λ r, (c, r)) <$> seqZ 0 (rows panorama + 1).

(** [produces panorama view t a]: some visible sample with angle [a] has [t]
    among its four adjacent tiles. *)
Definition produces (panorama : Panorama) (view : View) (t : Tile) (a : Q) : Prop :=
  ∃ c r, (c, r) ∈ samples panorama ∧ view c r = Some a
         ∧ t ∈ __getAdjacentTiles panorama c r.

(** ** Configuration check of [loadTexture] *)

(** The argument of [loadTexture] as a JavaScript value. *)
Record PanoramaFields := mkFields {
  f_width : option Z;
  f_cols : option Z;
  f_rows : option Z;
  f_tileUrl : option (Z → Z → string);
  f_baseUrl : option string;
}.

Inductive PanoramaArg :=
| ArgPrimitive          (* [typeof panorama !== 'object']: undefined, a string, a number *)
| ArgNull               (* [null], whose [typeof] is ['object'] *)
| ArgObject (o : PanoramaFields).

(** [!x] for a numeric property: missing ([undefined]) or zero. *)
Definition falsy (x : option Z) : bool :=
  match x with None => true | Some v => v =? 0 end.

Definition missing {A} (x : option A) : bool :=
  match x with None => true | Some _ => false end.

Inductive LoadOutcome :=
| Rejected (message : string)   (* [return Promise.reject(new PSVError(message))] *)
| Thrown                        (* a [TypeError] raised by the property access *)
| Accepted.                     (* both guards passed and the adapter was reset *)

Definition invalid_message : string :=
  "Invalid panorama configuration, are you using the right adapter?.".
Definition multiple_message : string :=
  "Panorama cols must be multiple of 4 and rows must be multiple of 2.".

(** The two guards at the top of [loadTexture]; on success the checked
    configuration. *)
Definition checkPanorama (arg : PanoramaArg) : LoadOutcome + Panorama :=
  match arg with
  | ArgPrimitive => inl (Rejected invalid_message)
  | ArgNull => inl Thrown
  | ArgObject o =>
      if falsy (f_width o) || falsy (f_cols o) || falsy (f_rows o)
         || missing (f_tileUrl o)
      then inl (Rejected invalid_message)
      else
        let c := default 0 (f_cols o) in
        let r := default 0 (f_rows o) in
        if negb (Z.rem c 4 =? 0) || negb (Z.rem r 2 =? 0)
        then inl (Rejected multiple_message)
        else inr (mkPanorama (default 0 (f_width o)) c r
                             (default (λ _ _, EmptyString) (f_tileUrl o))
                             (f_baseUrl o))
  end.

(** ** [Queue.js]: tasks *)

(** [Task.STATUS] *)
Inductive STATUS := PENDING | RUNNING | CANCELLED | DONE | ERROR.

#[global] Instance STATUS_eq_dec : EqDecision STATUS.
Proof. solve_decision. Defined.

(** A [Task] object.  [fn] is the closure [() => this.__drawTile(tile)]; it is
    represented by the tile it captures. *)
Record Task := mkTask {
  id : string;
  priority : Q;
  fn : Tile;
  status : STATUS;
}.

(** [new Task(id, priority, fn)] *)
Definition Task_new (i : string) (p : Q) (f : Tile) : Task :=
  {| id := i; priority := p; fn := f; status := PENDING |}.

Definition set_status (st : STATUS) (t : Task) : Task :=
  {| id := id t; priority := priority t; fn := fn t; status := st |}.

Definition set_priority (p : Q) (t : Task) : Task :=
  {| id := id t; priority := p; fn := fn t; status := status t |}.

(** ** JavaScript objects used as insertion-ordered dictionaries *)

Section Obj.
Context {V : Type}.

(** [o[k]] *)
Fixpoint obj_get (k : string) (o : list (string * V)) : option V :=
  match o with
  | [] => None
  | (k', v) :: o' => if decide (k' = k) then Some v else obj_get k o'
  end.

(** [o[k] = v]: an existing key keeps its place, a new key goes last. *)
Fixpoint obj_set (k : string) (v : V) (o : list (string * V)) : list (string * V) :=
  match o with
  | [] => [(k, v)]
  | (k', v') :: o' =>
      if decide (k' = k) then (k, v) :: o' else (k', v') :: obj_set k v o'
  end.

(** [delete o[k]] *)
Fixpoint obj_delete (k : string) (o : list (string * V)) : list (string * V) :=
  match o with
  | [] => []
  | (k', v') :: o' =>
      if decide (k' = k) then obj_delete k o' else (k', v') :: obj_delete k o'
  end.

(** [Object.values(o)] *)
Definition obj_values (o : list (string * V)) : list V := o.*2.

(** [Object.keys(o)] *)
Definition obj_keys (o : list (string * V)) : list string := o.*1.
End Obj.

(** ** [Array.prototype.sort] with a comparator, and [pop] *)

Section Sort.
Context {A : Type} (cmp : A → A → Q).

(** [x] comes from the left of [l] in the original array; it only moves
    behind [y] when [cmp x y > 0], so equal elements keep their order (the
    sort is stable). *)
Fixpoint sort_insert (x : A) (l : list A) : list A :=
  match l with
  | [] => [x]
  | y :: l' => if Qlt_le_dec 0 (cmp x y) then y :: sort_insert x l' else x :: l
  end.

Definition Array_sort (l : list A) : list A := foldr sort_insert [] l.
End Sort.

(** [l.pop()] as the value returned: the last element, if any. *)
Definition Array_pop {A} (l : list A) : option A := last l.

(** ** Canvases, textures and pending tile loads *)

Inductive DrawOp :=
| FillBackground
| DrawImage (x y w h : Q)        (* the tile image drawn at its place *)
| Placeholder (x y w h : Q).     (* the grey square and warning sign *)

(** A canvas is the list of drawing operations it received. *)
Definition Canvas := list DrawOp.

(** A [THREE.CanvasTexture] over the canvas [tex_canvas]; [tex_updates] counts
    the assignments [needsUpdate = true] made by the adapter. *)
Record Texture := mkTexture { tex_canvas : nat; tex_updates : nat }.

(** What [__drawTile] has computed and captured when it hands the url to the
    image loader: the rest of the promise chain runs when the load settles. *)
Record DrawJob := mkJob {
  job_url : string;
  job_ctx : nat;            (* the canvas whose 2d context was taken *)
  job_canvasIdx : nat;
  job_colInCanvas : Z;
  job_rowInCanvas : Z;
}.

(** ** State *)

Record Queue := mkQueue {
  concurency : nat;
  runningTasks : gset string;
  tasks : list (string * nat);
}.

Record Props := mkProps {
  colSize : Q;
  rowSize : Q;
  tiles : gset string;
}.

Record Adapter := mkAdapter {
  heap : list Task;            (* every [Task] object allocated so far *)
  queue : Queue;               (* [this.queue] *)
  props : Props;               (* [this.props] *)
  canvas : list nat;           (* [this.canvas], references into [canvases] *)
  textures : list Texture;     (* [this.textures] *)
  canvases : list Canvas;      (* every canvas element created so far *)
  loading : gmap nat DrawJob;  (* tile loads handed to [this.loader], by task *)
  config_panorama : option Panorama;  (* [this.psv.config.panorama] *)
  redraws : nat;               (* calls of [this.psv.needsUpdate()] *)
}.

Definition with_heap (h : list Task) (s : Adapter) : Adapter :=
  mkAdapter h (queue s) (props s) (canvas s) (textures s) (canvases s)
            (loading s) (config_panorama s) (redraws s).

Definition with_queue (q : Queue) (s : Adapter) : Adapter :=
  mkAdapter (heap s) q (props s) (canvas s) (textures s) (canvases s)
            (loading s) (config_panorama s) (redraws s).

Definition with_props (p : Props) (s : Adapter) : Adapter :=
  mkAdapter (heap s) (queue s) p (canvas s) (textures s) (canvases s)
            (loading s) (config_panorama s) (redraws s).

Definition with_loading (l : gmap nat DrawJob) (s : Adapter) : Adapter :=
  mkAdapter (heap s) (queue s) (props s) (canvas s) (textures s) (canvases s)
            l (config_panorama s) (redraws s).

Definition with_output (cs : list Canvas) (ts : list Texture) (n : nat)
    (s : Adapter) : Adapter :=
  mkAdapter (heap s) (queue s) (props s) (canvas s) ts cs
            (loading s) (config_panorama s) n.

(** [const QUEUE_CONCURENCY = 2] *)
Definition QUEUE_CONCURENCY : nat := 2.

(** The adapter as its constructor leaves it. *)
Definition init : Adapter :=
  {| heap := [];
     queue := {| concurency := QUEUE_CONCURENCY; runningTasks := ∅; tasks := [] |};
     props := {| colSize := 0; rowSize := 0; tiles := ∅ |};
     canvas := [];
     textures := [];
     canvases := [];
     loading := ∅;
     config_panorama := None;
     redraws := 0 |}.

(** ** [Task] and [Queue] methods *)

(** [task.cancel()]: only the status is written (the body is marked TODO). *)
Definition Task_cancel (r : nat) (s : Adapter) : Adapter :=
  with_heap (alter (set_status CANCELLED) r (heap s)) s.

(** [queue.enqueue(task)]: [this.tasks[task.id] = task]. *)
Definition Queue_enqueue (r : nat) (s : Adapter) : Adapter :=
  match heap s !! r with
  | Some t =>
      let q := queue s in
      with_queue (mkQueue (concurency q) (runningTasks q) (obj_set (id t) r (tasks q))) s
  | None => s
  end.

(** [queue.clear()]: the values are taken first, both dictionaries are
    replaced by empty ones, and then each task of the snapshot is cancelled. *)
Definition Queue_clear (s : Adapter) : Adapter :=
  let snapshot := obj_values (tasks (queue s)) in
  let s1 := with_queue (mkQueue (concurency (queue s)) ∅ []) s in
  foldl (λ s' r, Task_cancel r s') s1 snapshot.

(** [queue.setPriority(taskId, priority)] *)
Definition Queue_setPriority (taskId : string) (p : Q) (s : Adapter) : Adapter :=
  match obj_get taskId (tasks (queue s)) with
  | Some r => with_heap (alter (set_priority p) r (heap s)) s
  | None => s
  end.

(** [queue.setAllPriorities(priority = 0)] *)
Definition Queue_setAllPriorities (p : Q) (s : Adapter) : Adapter :=
  foldl (λ s' r, with_heap (alter (set_priority p) r (heap s')) s')
        s (obj_values (tasks (queue s))).

(** [task.status === Task.STATUS.PENDING && task.priority > 0] *)
Definition startable (t : Task) : bool :=
  bool_decide (status t = PENDING)
  && (if Qlt_le_dec 0 (priority t) then true else false).

Definition startable_ref (h : list Task) (r : nat) : bool :=
  match h !! r with Some t => startable t | None => false end.

Definition priority_of (h : list Task) (r : nat) : Q :=
  match h !! r with Some t => priority t | None => 0%Q end.

(** [(a, b) => a.priority - b.priority] *)
Definition by_priority (h : list Task) (a b : nat) : Q :=
  (priority_of h a - priority_of h b)%Q.

(** [nextTask] in [Queue.start]: filter, sort by ascending priority, pop. *)
Definition Queue_next (s : Adapter) : option nat :=
  Array_pop
    (Array_sort (by_priority (heap s))
       (List.filter (startable_ref (heap s)) (obj_values (tasks (queue s))))).

(** The synchronous part of [__drawTile(tile)], up to the call of
    [this.loader.load].  [None] stands for the [TypeError] raised when
    [this.psv.config.panorama] or [this.canvas[canvasIdx]] is undefined.
    [Math.floor((cols - 1 - col) / cols * 4)] is the floor of the exact
    quotient, [row >= rows / 2] is compared after multiplying by 2. *)
Definition drawTile_begin (s : Adapter) (t : Tile) : option DrawJob :=
  match config_panorama s with
  | None => None
  | Some panorama =>
      if cols panorama =? 0 then None
      else
        let canvasIdx :=
          (4 * (cols panorama - 1 - col t)) / cols panorama * 2
          + (if rows panorama <=? 2 * row t then 1 else 0) in
        if canvasIdx <? 0 then None
        else
          match canvas s !! Z.to_nat canvasIdx with
          | None => None
          | Some ctx =>
              Some {| job_url := tileUrl panorama (col t) (row t);
                      job_ctx := ctx;
                      job_canvasIdx := Z.to_nat canvasIdx;
                      job_colInCanvas := Z.rem (col t) (cols panorama / 4);
                      job_rowInCanvas := Z.rem (row t) (rows panorama / 2) |}
          end
  end.

(** [task.start()]: the status becomes [RUNNING] and [fn] is called.  The
    boolean tells whether [fn] returned its promise ([true]) or raised
    ([false]); the two reactions registered by [.then] run in [settle]. *)
Definition Task_start (r : nat) (s : Adapter) : Adapter * bool :=
  let s1 := with_heap (alter (set_status RUNNING) r (heap s)) s in
  match heap s !! r ≫= (λ t, drawTile_begin s (fn t)) with
  | Some job => (with_loading (<[r := job]> (loading s1)) s1, true)
  | None => (s1, false)
  end.

(** [this.runningTasks[nextTask.id] = true; nextTask.start()] *)
Definition launch (r : nat) (s : Adapter) : Adapter * bool :=
  let q := queue s in
  let i := match heap s !! r with Some t => id t | None => EmptyString end in
  Task_start r (with_queue (mkQueue (concurency q) ({[i]} ∪ runningTasks q) (tasks q)) s).

(** [queue.start()].  The recursion of the source is bounded by [fuel];
    [None] means the fuel ran out.  An exception raised by [fn] unwinds every
    pending call of [start], which leaves the state as it is at that point. *)
Fixpoint Queue_start_fuel (fuel : nat) (s : Adapter) : option Adapter :=
  match fuel with
  | O => None
  | S n =>
      if decide (concurency (queue s) ≤ size (runningTasks (queue s)))%nat
      then Some s
      else
        match Queue_next s with
        | None => Some s
        | Some r =>
            match launch r s with
            | (s', true) => Queue_start_fuel n s'
            | (s', false) => Some s'
            end
        end
  end.

(** Each recursive call has one startable task less, so one unit of fuel per
    known task (and one for the last call) is enough: see
    [Queue_start_fuel_enough]. *)
Definition Queue_start (s : Adapter) : Adapter :=
  default s (Queue_start_fuel (S (length (tasks (queue s)))) s).

(** ** Adapter methods *)

(** [Math.PI], the double nearest to pi, as an exact rational. *)
Definition Math_PI : Q := 884279719003555 # 281474976710656.

(** Body of the [forEach] in [__loadTiles]. *)
Definition loadTile (s : Adapter) (c : Candidate) : Adapter :=
  let i := tileId (tile c) in
  let p := (Math_PI / 2 - angle c)%Q in
  if decide (i ∈ tiles (props s)) then Queue_setPriority i p s
  else
    let ps := props s in
    let s1 := with_props (mkProps (colSize ps) (rowSize ps) ({[i]} ∪ tiles ps)) s in
    let r := length (heap s1) in
    Queue_enqueue r (with_heap (heap s1 ++ [Task_new i p (tile c)]) s1).

Definition __loadTiles (cands : list Candidate) (s : Adapter) : Adapter :=
  Queue_start (foldl loadTile (Queue_setAllPriorities 0 s) cands).

(** [__refresh()]; reading [panorama.cols] raises when no panorama is set. *)
Definition __refresh (view : View) (s : Adapter) : Adapter :=
  match config_panorama s with
  | Some panorama => __loadTiles (tilesToLoad panorama view) s
  | None => s
  end.

(** The promise chain of [__drawTile] once the image load has settled
    ([ok = true]: loaded, [ok = false]: failed).  Both branches draw on the
    captured context; the last reaction writes [this.textures[canvasIdx]] and
    asks for a redraw.  The boolean is [true] when the chain is fulfilled and
    [false] when that last reaction raised. *)
Definition drawTile_settle (job : DrawJob) (ok : bool) (s : Adapter) : Adapter * bool :=
  let w := colSize (props s) in
  let h := rowSize (props s) in
  let x := (inject_Z (job_colInCanvas job) * w)%Q in
  let y := (inject_Z (job_rowInCanvas job) * h)%Q in
  let op := if ok then DrawImage x y w h else Placeholder x y w h in
  let cs := alter (λ c, c ++ [op]) (job_ctx job) (canvases s) in
  match textures s !! job_canvasIdx job with
  | Some _ =>
      (with_output cs
         (alter (λ t, mkTexture (tex_canvas t) (S (tex_updates t)))
                (job_canvasIdx job) (textures s))
         (S (redraws s)) s, true)
  | None => (with_output cs (textures s) (redraws s) s, false)
  end.

(** The image load of task [r] settles.  In order: the chain of
    [__drawTile], the reaction of [Task.start] (status [DONE] or [ERROR]) and
    the reaction of [Queue.start] (both [delete]s, then [this.start()]).  The
    reactions follow each other in the microtask queue and are taken as one
    step.  Nothing happens when task [r] has no load outstanding. *)
Definition settle (r : nat) (ok : bool) (s : Adapter) : Adapter :=
  match loading s !! r, heap s !! r with
  | Some job, Some t =>
      let s1 := with_loading (delete r (loading s)) s in
      let '(s2, fulfilled) := drawTile_settle job ok s1 in
      let s3 :=
        with_heap (alter (set_status (if fulfilled then DONE else ERROR)) r (heap s2)) s2 in
      let q := queue s3 in
      Queue_start
        (with_queue (mkQueue (concurency q) (runningTasks q ∖ {[id t]})
                             (obj_delete (id t) (tasks q))) s3)
  | _, _ => s
  end.

(** [loadTexture(panorama)], up to the point where the promise is returned.
    The viewer keeps the loaded panorama in [psv.config.panorama].  The
    deferred [__refresh] is a later event.  [__loadBase] only draws the base
    image on the canvases once it is loaded (and decides how the promise of
    an accepted call settles); it is left out. *)
Definition loadTexture (arg : PanoramaArg) (s : Adapter) : LoadOutcome * Adapter :=
  match checkPanorama arg with
  | inl outcome => (outcome, s)
  | inr panorama =>
      let cs := (inject_Z (width panorama) / inject_Z (cols panorama))%Q in
      let rs := (inject_Z (width panorama) / 2 / inject_Z (rows panorama))%Q in
      let s1 := Queue_clear s in
      let first := length (canvases s1) in
      (Accepted,
       {| heap := heap s1;
          queue := queue s1;
          props := {| colSize := cs; rowSize := rs; tiles := ∅ |};
          canvas := seq first 8;
          textures := (λ c, mkTexture c 0) <$> seq first 8;
          canvases := canvases s1 ++ replicate 8 [FillBackground];
          loading := loading s1;
          config_panorama := Some panorama;
          redraws := redraws s1 |})
  end.

(** ** Events *)

Inductive Event :=
| EvLoadTexture (arg : PanoramaArg)      (* the viewer loads a panorama *)
| EvRefresh (view : View)                (* position or zoom changed *)
| EvLoadTiles (cands : list Candidate)   (* [__loadTiles] on a given list *)
| EvSettle (r : nat) (ok : bool).        (* the image load of task [r] settles *)

Definition step (s : Adapter) (ev : Event) : Adapter :=
  match ev with
  | EvLoadTexture arg => (loadTexture arg s).2
  | EvRefresh view => __refresh view s
  | EvLoadTiles cands => __loadTiles cands s
  | EvSettle r ok => settle r ok s
  end.

Definition run (evs : list Event) (s : Adapter) : Adapter := foldl step s evs.

(** Events of the scheduler within one panorama load. *)
Definition is_sched (ev : Event) : bool :=
  match ev with EvLoadTexture _ => false | _ => true end.

(** Number of [Task] objects whose status is [RUNNING]. *)
Definition running_count (s : Adapter) : nat :=
  length (filter (λ t, status t = RUNNING) (heap s)).

Definition status_of (s : Adapter) (r : nat) : option STATUS :=
  status <$> heap s !! r.

(** The tasks allocated since the heap had [n] objects. *)
Definition created_since (n : nat) (s : Adapter) : list Task := drop n (heap s).

(** * Notions used in the statements and proofs *)

(** Ascending order of the keys. *)
Definition ascending {A} (key : A → Q) : list A → Prop :=
  StronglySorted (λ a b, (key a <= key b)%Q).

(** The state after [runningTasks[id] = true] and [task.start()] for the task
    [t] at [r], with [l] the loads outstanding afterwards. *)
Definition launched (r : nat) (t : Task) (l : gmap nat DrawJob) (s : Adapter) : Adapter :=
  {| heap := alter (set_status RUNNING) r (heap s);
     queue := {| concurency := concurency (queue s);
                 runningTasks := {[id t]} ∪ runningTasks (queue s);
                 tasks := tasks (queue s) |};
     props := props s;
     canvas := canvas s;
     textures := textures s;
     canvases := canvases s;
     loading := l;
     config_panorama := config_panorama s;
     redraws := redraws s |}.

(** Either [fn] raised and nothing is outstanding for [r], or the load of
    [r] was handed to the loader. *)
Definition loads_after (r : nat) (t : Task) (s : Adapter) (l : gmap nat DrawJob) : Prop :=
  l = loading s
  ∨ ∃ job, drawTile_begin s (fn t) = Some job ∧ l = <[r := job]> (loading s).

(** What every reachable state satisfies: the known set has one entry per
    id, each entry names a task of that id whose tile is recorded in
    [props.tiles]; every outstanding load belongs to an allocated task and
    targets an existing texture. *)
Record wf (s : Adapter) : Prop := mkWf {
  wf_keys : NoDup (obj_keys (tasks (queue s)));
  wf_task : ∀ k r, (k, r) ∈ tasks (queue s) → ∃ t, heap s !! r = Some t ∧ id t = k;
  wf_tiles : ∀ k r, (k, r) ∈ tasks (queue s) → k ∈ tiles (props s);
  wf_loading : ∀ r job, loading s !! r = Some job →
      is_Some (heap s !! r) ∧ (job_canvasIdx job < length (textures s))%nat;
  wf_canvas : length (canvas s) = length (textures s) ∧ (length (textures s) ≤ 8)%nat;
}.

(** The state after the [else] branch of [__loadTiles] for a new id [i]. *)
Definition enqueued (i : string) (p : Q) (t : Tile) (s : Adapter) : Adapter :=
  {| heap := heap s ++ [Task_new i p t];
     queue := {| concurency := concurency (queue s);
                 runningTasks := runningTasks (queue s);
                 tasks := obj_set i (length (heap s)) (tasks (queue s)) |};
     props := {| colSize := colSize (props s); rowSize := rowSize (props s);
                 tiles := {[i]} ∪ tiles (props s) |};
     canvas := canvas s;
     textures := textures s;
     canvases := canvases s;
     loading := loading s;
     config_panorama := config_panorama s;
     redraws := redraws s |}.

(** The state in which the reactions of [settle] call [this.start()]: the
    load is no longer outstanding, the canvases, textures and redraw count
    are [cs], [ts] and [n], the task has status [st] and its id is deleted
    from both dictionaries. *)
Definition settled (r : nat) (t : Task) (st : STATUS)
    (cs : list Canvas) (ts : list Texture) (n : nat) (s : Adapter) : Adapter :=
  {| heap := alter (set_status st) r (heap s);
     queue := {| concurency := concurency (queue s);
                 runningTasks := runningTasks (queue s) ∖ {[id t]};
                 tasks := obj_delete (id t) (tasks (queue s)) |};
     props := props s;
     canvas := canvas s;
     textures := ts;
     canvases := cs;
     loading := delete r (loading s);
     config_panorama := config_panorama s;
     redraws := n |}.

(** From [s] to [s'] the heap only got new tasks at its end, with pairwise
    distinct ids that were not recorded in [props.tiles] of [s], and
    [props.tiles] got exactly these ids in addition. *)
Definition grows (s s' : Adapter) : Prop :=
  ∃ new : list string,
    id <$> heap s' = (id <$> heap s) ++ new
    ∧ NoDup new
    ∧ (∀ i, i ∈ new → i ∉ tiles (props s))
    ∧ tiles (props s') = tiles (props s) ∪ list_to_set new.

Definition inactive (s : Adapter) (r : nat) : Prop :=
  ∃ t, heap s !! r = Some t ∧ status t ≠ PENDING ∧ status t ≠ RUNNING.

(** Holds as long as no panorama was loaded over tasks that still exist:
    task ids are unique in the heap and recorded in [props.tiles], every
    task whose status is [RUNNING] is in both dictionaries of the queue, and
    [runningTasks] respects the limit. *)
Record single_load (s : Adapter) : Prop := mkSingleLoad {
  sl_ids : NoDup (id <$> heap s);
  sl_tiles : ∀ t, t ∈ heap s → id t ∈ tiles (props s);
  sl_running : ∀ r t, heap s !! r = Some t → status t = RUNNING →
      (id t, r) ∈ tasks (queue s) ∧ id t ∈ runningTasks (queue s);
  sl_slots : (size (runningTasks (queue s)) ≤ concurency (queue s))%nat;
}.

(** [t'] is [t] possibly started: same id, closure and priority; the status
    is unchanged or went from [PENDING] to [RUNNING] with a positive
    priority. *)
Definition started_or_same (t t' : Task) : Prop :=
  id t' = id t ∧ fn t' = fn t ∧ priority t' = priority t
  ∧ (status t' = status t
     ∨ (status t = PENDING ∧ status t' = RUNNING ∧ (0 < priority t)%Q)).

(** The task known under id [i], if any, has priority [p]. *)
Definition known_priority (i : string) (p : Q) (s : Adapter) : Prop :=
  ∀ r, obj_get i (tasks (queue s)) = Some r →
    ∃ t, heap s !! r = Some t ∧ priority t = p.

(** A checked configuration with 16 columns and 8 rows. *)
Definition p16x8 : Panorama := mkPanorama 6000 16 8 (λ _ _, EmptyString) None.

(** The candidates [(tile, angle)] of one sample point, and of the whole
    lattice, in the order the loops of [__refresh] meet them. *)
Definition sample_cands (panorama : Panorama) (view : View) (cr : Z * Z)
  : list (Tile * Q) :=
  match view cr.1 cr.2 with
  | Some a => (λ t, (t, a)) <$> __getAdjacentTiles panorama cr.1 cr.2
  | None => []
  end.

Definition all_cands (panorama : Panorama) (view : View) : list (Tile * Q) :=
  samples panorama ≫= sample_cands panorama view.

Definition merge1 (acc : list Candidate) (ta : Tile * Q) : list Candidate :=
  mergeTile ta.2 acc ta.1.

(** The angle recorded for [t] in a list of candidates (first entry). *)
Fixpoint angle_of (t : Tile) (l : list Candidate) : option Q :=
  match l with
  | [] => None
  | c :: l' => if decide (tile c = t) then Some (angle c) else angle_of t l'
  end.

(** Running minimum of the angles met for tile [t]. *)
Definition min_step (t : Tile) (o : option Q) (ta : Tile * Q) : option Q :=
  if decide (ta.1 = t)
  then Some (match o with Some b => Math_min b ta.2 | None => ta.2 end)
  else o.

(** The rejection condition as the specification words it: the argument is
    not an object, or a required property is absent, or a count is not a
    multiple of 4 (columns) or 2 (rows). *)
Definition lacks_config (arg : PanoramaArg) : Prop :=
  match arg with
  | ArgPrimitive | ArgNull => True
  | ArgObject o =>
      f_width o = None ∨ f_cols o = None ∨ f_rows o = None ∨ f_tileUrl o = None
      ∨ (∃ c, f_cols o = Some c ∧ Z.rem c 4 ≠ 0)
      ∨ (∃ r, f_rows o = Some r ∧ Z.rem r 2 ≠ 0)
  end.

(** The rejection condition of the code: a required number that is absent or
    zero counts as invalid. *)
Definition invalid_config (arg : PanoramaArg) : Prop :=
  match arg with
  | ArgPrimitive => True
  | ArgNull => False
  | ArgObject o =>
      falsy (f_width o) = true ∨ falsy (f_cols o) = true
      ∨ falsy (f_rows o) = true ∨ f_tileUrl o = None
      ∨ (∃ c, f_cols o = Some c ∧ Z.rem c 4 ≠ 0)
      ∨ (∃ r, f_rows o = Some r ∧ Z.rem r 2 ≠ 0)
  end.

Definition rejects (arg : PanoramaArg) (s : Adapter) : Prop :=
  ∃ message, (loadTexture arg s).1 = Rejected message.

Definition zero_width : PanoramaArg :=
  ArgObject (mkFields (Some 0) (Some 16) (Some 8) (Some (λ _ _, EmptyString)) None).

Definition odd_rows : PanoramaArg :=
  ArgObject (mkFields (Some 6000) (Some 16) (Some 7) (Some (λ _ _, EmptyString)) None).

(** ** Concrete inputs used by the examples *)

(** The panorama of the guide: 16 columns, 8 rows. *)
Definition panorama16x8 : PanoramaArg :=
  ArgObject (mkFields (Some 6000) (Some 16) (Some 8)
                      (Some (λ c r, tileId (mkTile c r))) None).

Definition cand (c r : Z) (a : Q) : Candidate := mkCandidate (mkTile c r) a.

(** The camera looks at the grid corner (1, 1), the only sample on screen,
    at an angle of 1/10 from the view direction. *)
Definition corner_view : View :=
  λ c r, if (c =? 1) && (r =? 1) then Some (1 # 10)%Q else None.

(** A panorama is loaded and the view refreshed: the four tiles around the
    corner are tasks 0 to 3 (ids 0x0, 1x0, 1x1, 0x1), tasks 3 and 2 are
    running. *)
Definition corner_loading : Adapter :=
  run [EvLoadTexture panorama16x8; EvRefresh corner_view] init.

(** The same, then a panorama is loaded again while the loads are in
    flight. *)
Definition reloaded_in_flight : Adapter :=
  step corner_loading (EvLoadTexture panorama16x8).

(** Five tiles requested after a load, then one load fails. *)
Definition five_tiles : list Event :=
  [EvLoadTiles [cand 0 0 (1 # 10); cand 1 0 (2 # 10); cand 2 0 (5 # 100);
                cand 3 0 (3 # 1); cand 4 4 (3 # 10)];
   EvSettle 2 false].

(** * Further parts of the adapter *)

(** The rest of the tiles adapter ([__loadBase], [createMesh], [setTexture],
    [setTextureOpacity], the sizes of [loadTexture]), the adapter driven by
    a viewer that owns [psv.config.panorama], the loader
    [services/TextureLoader.js] behind [__loadBase], and the cubemap adapter
    [adapters/cubemap/index.js], which reports its progress through the same
    loader.  Canvas coordinates and sizes are exact rationals, like the
    angles. *)

From Stdlib Require Import Ascii.

(** A configuration that passed the two guards of [loadTexture]. *)
Definition accepted (p : Panorama) : Prop := ∃ arg, checkPanorama arg = inr p.

(** [__loadBase]: the cell of the base image that is drawn on canvas [i],
    as column [x = Math.floor((7 - i) / 2)] of four and row [y = i % 2] of
    two; the source rectangle of [drawImage] is
    [(x * width / 4, y * height / 2, width / 4, height / 2)]. *)
Definition loadBase_cell (i : Z) : Z * Z := ((7 - i) / 2, Z.rem i 2).

Definition loadBase_source (image_width image_height : Q) (i : Z)
  : Q * Q * Q * Q :=
  let '(x, y) := loadBase_cell i in
  ((inject_Z x * image_width / 4)%Q, (inject_Z y * image_height / 2)%Q,
   (image_width / 4)%Q, (image_height / 2)%Q).

(** The character [a] does not occur in [s]. *)
Fixpoint free_of (a : Ascii.ascii) (s : string) : Prop :=
  match s with
  | EmptyString => True
  | String b s' => b ≠ a ∧ free_of a s'
  end.

(** The panorama of the guide once checked, and the adapter after loading
    it. *)
Definition checked16x8 : Panorama :=
  mkPanorama 6000 16 8 (λ c r, tileId (mkTile c r)) None.

Definition loaded16x8 : Adapter := (loadTexture panorama16x8 init).2.

(** ** The life of a task *)

(** The status changes that one event can make to a task. *)
Definition status_edge (a b : STATUS) : bool :=
  match a, b with
  | PENDING, (PENDING | RUNNING | CANCELLED) => true
  | RUNNING, (RUNNING | CANCELLED | DONE) => true
  | CANCELLED, (CANCELLED | DONE) => true
  | DONE, DONE => true
  | _, _ => false
  end.

(** Known tasks are pending or running; a task whose load is outstanding is
    running or cancelled; no task has the status [ERROR]. *)
Record life (s : Adapter) : Prop := mkLife {
  life_known : ∀ k r t, (k, r) ∈ tasks (queue s) → heap s !! r = Some t →
      status t = PENDING ∨ status t = RUNNING;
  life_loading : ∀ r job t, loading s !! r = Some job → heap s !! r = Some t →
      status t = RUNNING ∨ status t = CANCELLED;
  life_no_error : ∀ t, t ∈ heap s → status t ≠ ERROR;
}.

(** The drawing operation of [drawTile_settle] for [job]. *)
Definition settle_op (job : DrawJob) (ok : bool) (s : Adapter) : DrawOp :=
  let w := colSize (props s) in
  let h := rowSize (props s) in
  let x := (inject_Z (job_colInCanvas job) * w)%Q in
  let y := (inject_Z (job_rowInCanvas job) * h)%Q in
  if ok then DrawImage x y w h else Placeholder x y w h.

(** ** Canvases and textures *)

(** The canvases of [this.canvas] exist, are distinct, were first filled
    with the background and back the textures of [this.textures] in the same
    order; there are none or eight.  The canvas captured by an outstanding
    load exists, and it is none of the current canvases when the task of
    the load is cancelled. *)
Record surfaces (s : Adapter) : Prop := mkSurfaces {
  sf_refs : ∀ c, c ∈ canvas s → (c < length (canvases s))%nat;
  sf_jobs : ∀ r job, loading s !! r = Some job →
      (job_ctx job < length (canvases s))%nat;
  sf_stale : ∀ r job t, loading s !! r = Some job → heap s !! r = Some t →
      status t = CANCELLED → job_ctx job ∉ canvas s;
  sf_tex : tex_canvas <$> textures s = canvas s;
  sf_nodup : NoDup (canvas s);
  sf_len : canvas s = [] ∨ length (canvas s) = 8%nat;
  sf_filled : ∀ c, c ∈ canvas s →
      ∃ ops, canvases s !! c = Some (FillBackground :: ops);
}.


(** ** The adapter inside the viewer *)

(** [index.js] reads [this.psv.config.panorama] in [__refresh],
    [__getAdjacentTiles] and [__drawTile] and never assigns it: the value is
    the viewer's.  In this part the field [config_panorama] changes only by
    the event [VConfig], and [loadTexture] is taken as the code has it. *)
Definition with_config (c : option Panorama) (s : Adapter) : Adapter :=
  mkAdapter (heap s) (queue s) (props s) (canvas s) (textures s) (canvases s)
            (loading s) c (redraws s).

(** [loadTexture(panorama)] up to the point where the promise is returned:
    the two guards, the sizes, [queue.clear()], [props.tiles = {}], the
    eight new canvases and textures.  [psv.config.panorama] is not
    written. *)
Definition adapter_loadTexture (arg : PanoramaArg) (s : Adapter)
  : LoadOutcome * Adapter :=
  match checkPanorama arg with
  | inl outcome => (outcome, s)
  | inr panorama =>
      let cs := (inject_Z (width panorama) / inject_Z (cols panorama))%Q in
      let rs := (inject_Z (width panorama) / 2 / inject_Z (rows panorama))%Q in
      let s1 := Queue_clear s in
      let first := length (canvases s1) in
      (Accepted,
       {| heap := heap s1;
          queue := queue s1;
          props := {| colSize := cs; rowSize := rs; tiles := ∅ |};
          canvas := seq first 8;
          textures := (λ c, mkTexture c 0) <$> seq first 8;
          canvases := canvases s1 ++ replicate 8 [FillBackground];
          loading := loading s1;
          config_panorama := config_panorama s1;
          redraws := redraws s1 |})
  end.

(** What reaches the adapter while it is in use (before [destroy]). *)
Inductive ViewerEvent :=
| VConfig (panorama : option Panorama)
    (* the viewer assigns [psv.config.panorama]; [None] is [undefined] *)
| VLoadTexture (arg : PanoramaArg)
    (* [adapter.loadTexture(arg)], from the viewer or from
       [TextureLoader.preloadPanorama] *)
| VRefresh (view : View)
    (* a position or zoom event ([handleEvent]), or the [__refresh] that
       [loadTexture] defers with [setTimeout] *)
| VSettle (r : nat) (ok : bool).
    (* the image load of task [r] settles *)

Definition viewer_step (s : Adapter) (ev : ViewerEvent) : Adapter :=
  match ev with
  | VConfig c => with_config c s
  | VLoadTexture arg => (adapter_loadTexture arg s).2
  | VRefresh view => __refresh view s
  | VSettle r ok => settle r ok s
  end.

Definition viewer_run (evs : list ViewerEvent) (s : Adapter) : Adapter :=
  foldl viewer_step s evs.

(** The test made by the two guards of [loadTexture], on a configuration
    that has its four properties. *)
Definition acceptable (p : Panorama) : bool :=
  negb (width p =? 0) && negb (cols p =? 0) && negb (rows p =? 0)
  && (Z.rem (cols p) 4 =? 0) && (Z.rem (rows p) 2 =? 0).

Definition accepts (arg : PanoramaArg) : bool :=
  match checkPanorama arg with inr _ => true | inl _ => false end.

(** The viewer changes its panorama in an orderly way: what it assigns to
    [psv.config.panorama] is [undefined] or a configuration that passes the
    guards of [loadTexture], and the next thing it does is a call of
    [loadTexture] that is accepted. *)
Fixpoint orderly (evs : list ViewerEvent) : bool :=
  match evs with
  | [] => true
  | VConfig c :: VLoadTexture arg :: evs' =>
      match c with Some p => acceptable p | None => true end
      && accepts arg && orderly evs'
  | VConfig _ :: _ => false
  | _ :: evs' => orderly evs'
  end.

(** The events within one panorama load. *)
Definition within_load (ev : ViewerEvent) : bool :=
  match ev with VRefresh _ | VSettle _ _ => true | _ => false end.

(** What holds when the viewer is orderly: a configured panorama passed the
    guards of [loadTexture] and the adapter has its eight canvases, every
    known task is for a tile of the grid of that panorama, and every known
    task with status [RUNNING] has its image load outstanding. *)
Record ready (s : Adapter) : Prop := mkReady {
  rd_config : ∀ p, config_panorama s = Some p →
      accepted p ∧ length (canvas s) = 8%nat;
  rd_known : ∀ k r t, (k, r) ∈ tasks (queue s) → heap s !! r = Some t →
      ∃ p, config_panorama s = Some p ∧ in_grid p (fn t);
  rd_loading : ∀ k r t, (k, r) ∈ tasks (queue s) → heap s !! r = Some t →
      status t = RUNNING → is_Some (loading s !! r);
}.

(** No call of [queue.start()] is due: the slots are taken, or no known task
    is [PENDING] with a positive priority. *)
Definition saturated (s : Adapter) : Prop :=
  (size (runningTasks (queue s)) < concurency (queue s))%nat →
  Queue_next s = None.

(** The viewer configures and loads the panorama of the guide and refreshes
    at the corner; the view turns away; one of the two loads settles. *)
Definition turned_away : list ViewerEvent :=
  [VConfig (Some checked16x8); VLoadTexture panorama16x8; VRefresh corner_view;
   VRefresh (λ _ _, None); VSettle 3 true].

Definition corner_asked : list ViewerEvent :=
  [VConfig (Some checked16x8); VLoadTexture panorama16x8; VRefresh corner_view].

(** ** Sizes *)

(** From [s] to [s'] the configured panorama and the tile sizes are the
    same. *)
Definition same_setup (s s' : Adapter) : Prop :=
  config_panorama s' = config_panorama s
  ∧ colSize (props s') = colSize (props s)
  ∧ rowSize (props s') = rowSize (props s).

(** The rectangle [(x, y, w, h)] of a drawing operation. *)
Definition op_rect (op : DrawOp) : option (Q * Q * Q * Q) :=
  match op with
  | FillBackground => None
  | DrawImage x y w h | Placeholder x y w h => Some (x, y, w, h)
  end.

(** [canvas.width = Math.min(panorama.width / 4, SYSTEM.getMaxCanvasWidth() / 2)],
    the value that the call [loadTexture(panorama)] assigns to each of its
    eight canvases; [canvas.height] is set to the same value.  The canvas
    keeps the integer part. *)
Definition canvas_width (panorama : Panorama) (maxCanvasWidth : Q) : Q :=
  Math_min (inject_Z (width panorama) / 4) (maxCanvasWidth / 2).

(** ** Meshes *)

(** The arguments [phiStart, phiLength, thetaStart, thetaLength] that
    [__getSphereGeometry] passes to [THREE.SphereGeometry]. *)
Record SphereGeometry := mkGeometry {
  phiStart : Q;
  phiLength : Q;
  thetaStart : Q;
  thetaLength : Q;
}.

(** The material of a mesh: [map] names a texture. *)
Record Material := mkMaterial {
  mat_map : option nat;
  mat_opacity : Q;
  mat_transparent : bool;
}.

(** The children of the group made by [createMesh], in the order of the
    calls of [group.add]. *)
Definition createMesh : list SphereGeometry :=
  [ mkGeometry Math_PI (Math_PI / 2) 0 (Math_PI / 2);
    mkGeometry Math_PI (Math_PI / 2) (Math_PI / 2) (Math_PI / 2);
    mkGeometry (Math_PI / 2) (Math_PI / 2) 0 (Math_PI / 2);
    mkGeometry (Math_PI / 2) (Math_PI / 2) (Math_PI / 2) (Math_PI / 2);
    mkGeometry 0 (Math_PI / 2) 0 (Math_PI / 2);
    mkGeometry 0 (Math_PI / 2) (Math_PI / 2) (Math_PI / 2);
    mkGeometry (- Math_PI / 2) (Math_PI / 2) 0 (Math_PI / 2);
    mkGeometry (- Math_PI / 2) (Math_PI / 2) (Math_PI / 2) (Math_PI / 2) ]%Q.

(** The materials of the children of a group, and the textures on which
    [dispose] was called, in order. *)
Record Group := mkGroup {
  children : list Material;
  disposed : list nat;
}.

(** One round of the loop of [setTexture]: [None] is the [TypeError] of
    [group.children[i].material] when there is no child [i];
    [textureData.texture[i]] is [undefined] past the end of the list. *)
Definition setTexture_at (texture : list nat) (g : Group) (i : nat) : option Group :=
  match children g !! i with
  | None => None
  | Some m =>
      Some {| children :=
                <[i := mkMaterial (texture !! i) (mat_opacity m) (mat_transparent m)]>
                  (children g);
              disposed :=
                match mat_map m with
                | Some old => disposed g ++ [old]
                | None => disposed g
                end |}
  end.

Definition for_range (n : nat) (body : Group → nat → option Group) (g : Group)
  : option Group :=
  foldl (λ acc i, acc ≫= λ g', body g' i) (Some g) (seq 0 n).

(** [setTexture(group, textureData)]: [for (let i = 0; i < 8; i++)] *)
Definition setTexture (texture : list nat) (g : Group) : option Group :=
  for_range 8 (setTexture_at texture) g.

Definition setTextureOpacity_at (o : Q) (g : Group) (i : nat) : option Group :=
  match children g !! i with
  | None => None
  | Some m =>
      Some {| children :=
                <[i := mkMaterial (mat_map m) o (if Qlt_le_dec o 1 then true else false)]>
                  (children g);
              disposed := disposed g |}
  end.

(** [setTextureOpacity(group, opacity)]: [for (let i = 0; i < 4; i++)] *)
Definition setTextureOpacity (o : Q) (g : Group) : option Group :=
  for_range 4 (setTextureOpacity_at o) g.

(** The group of [createMesh]: eight meshes whose fresh materials have no
    map and are opaque. *)
Definition fresh_group : Group :=
  mkGroup ((λ _, mkMaterial None 1 false) <$> createMesh) [].

(** ** Refreshing twice *)

(** The priority that the loop of [__loadTiles] leaves to the task known
    under the id [k]: the one of the last tile of the list with this id, or
    [d] when the list has none. *)
Definition listed_priority (cands : list Candidate) (k : string) (d : Q) : Q :=
  foldl (λ acc c, if decide (tileId (tile c) = k)
                  then (Math_PI / 2 - angle c)%Q else acc)
        d cands.

(** [s'] is [s] but for the priorities of tasks that [s] knows. *)
Record reprioritised (s s' : Adapter) : Prop := mkReprioritised {
  rp_queue : queue s' = queue s;
  rp_props : props s' = props s;
  rp_output : canvas s' = canvas s ∧ textures s' = textures s
              ∧ canvases s' = canvases s ∧ redraws s' = redraws s;
  rp_loading : loading s' = loading s;
  rp_config : config_panorama s' = config_panorama s;
  rp_length : length (heap s') = length (heap s);
  rp_heap : ∀ r t, heap s !! r = Some t →
      ∃ t', heap s' !! r = Some t' ∧ id t' = id t ∧ fn t' = fn t
            ∧ status t' = status t
            ∧ (priority t' = priority t ∨ r ∈ obj_values (tasks (queue s)));
}.

(** * [TextureLoader.js] *)

(** The numbers that [e.loaded / e.total * 100] can be for the unsigned
    integers of a progress event. *)
Inductive Num :=
| NaN                (* [0 / 0] *)
| Infinity           (* [loaded / 0] with [loaded > 0] *)
| Finite (q : Q).

(** [e.loaded / e.total * 100] *)
Definition percent (loaded total : N) : Num :=
  if (total =? 0)%N then (if (loaded =? 0)%N then NaN else Infinity)
  else Finite (inject_Z (Z.of_N loaded) / inject_Z (Z.of_N total) * 100)%Q.

(** [a > b] *)
Definition Num_gt (a b : Num) : bool :=
  match a, b with
  | Finite x, Finite y => if Qlt_le_dec y x then true else false
  | Infinity, Finite _ => true
  | _, _ => false
  end.

(** What the [FileLoader] tells the three callbacks given to [loader.load]. *)
Inductive LoaderEvent :=
| OnLoad
| OnProgress (lengthComputable : bool) (loaded total : N)
| OnError.

(** One call of [loadFile]: the variable [progress] of the closure, the
    arguments of the calls of [onProgress] so far, and how the promise was
    settled ([true]: resolved, [false]: rejected), if it was. *)
Record FileLoad := mkFileLoad {
  progress : Num;
  reports : list Num;
  outcome : option bool;
}.

(** [let progress = 0; onProgress && onProgress(progress);]
    [cb] tells whether [onProgress] was given. *)
Definition report (cb : bool) (p : Num) (l : list Num) : list Num :=
  if cb then l ++ [p] else l.

Definition loadFile_begin (cb : bool) : FileLoad :=
  mkFileLoad (Finite 0) (report cb (Finite 0) []) None.

(** A promise keeps the first of [resolve] and [reject]. *)
Definition settle_once (o : option bool) (b : bool) : option bool :=
  match o with Some _ => o | None => Some b end.

(** The callbacks of [loader.load], without the bookkeeping of
    [this.requests]. *)
Definition loadFile_on (cb : bool) (f : FileLoad) (e : LoaderEvent) : FileLoad :=
  match e with
  | OnLoad =>
      mkFileLoad (Finite 100) (report cb (Finite 100) (reports f))
                 (settle_once (outcome f) true)
  | OnProgress lengthComputable loaded total =>
      if lengthComputable then
        let newProgress := percent loaded total in
        if Num_gt newProgress (progress f)
        then mkFileLoad newProgress (report cb newProgress (reports f)) (outcome f)
        else f
      else f
  | OnError => mkFileLoad (progress f) (reports f) (settle_once (outcome f) false)
  end.

Definition loadFile_run (cb : bool) (es : list LoaderEvent) : FileLoad :=
  foldl (loadFile_on cb) (loadFile_begin cb) es.

(** [this.requests.indexOf(request)], [None] for [-1]. *)
Fixpoint indexOf (r : nat) (l : list nat) : option nat :=
  match l with
  | [] => None
  | x :: l' => if decide (x = r) then Some 0%nat else S <$> indexOf r l'
  end.

(** [const rIdx = this.requests.indexOf(request);]
    [if (rIdx !== -1) this.requests.splice(rIdx, 1);] *)
Definition forget_request (r : nat) (requests : list nat) : list nat :=
  match indexOf r requests with
  | Some rIdx => delete rIdx requests
  | None => requests
  end.

(** What happens to [this.requests]: a call of [loadFile] whose request [r]
    is an [XMLHttpRequest] ([xhr = true]) or a value of the cache, and the
    load or error callback of request [r]. *)
Inductive RequestEvent :=
| ReqBegin (r : nat) (xhr : bool)
| ReqEnd (r : nat).

Definition requests_on (requests : list nat) (e : RequestEvent) : list nat :=
  match e with
  | ReqBegin r xhr => if xhr then requests ++ [r] else requests
  | ReqEnd r => forget_request r requests
  end.

(** The requests begun in a trace, and those ended. *)
Definition begun (es : list RequestEvent) : list nat :=
  es ≫= λ e, match e with ReqBegin r _ => [r] | ReqEnd _ => [] end.

Definition begun_xhr (es : list RequestEvent) : list nat :=
  es ≫= λ e, match e with ReqBegin r true => [r] | _ => [] end.

Definition ended (es : list RequestEvent) : list nat :=
  es ≫= λ e, match e with ReqEnd r => [r] | ReqBegin _ _ => [] end.

(** The order on the reported numbers. *)
Definition Num_lt (a b : Num) : Prop := Num_gt b a = true.

(** A progress event of a transfer whose length is known and not exceeded. *)
Definition within_total (e : LoaderEvent) : Prop :=
  match e with
  | OnProgress _ loaded total => (loaded ≤ total)%N
  | _ => True
  end.

Definition is_progress (e : LoaderEvent) : bool :=
  match e with OnProgress _ _ _ => true | _ => false end.

(** * [adapters/cubemap/index.js] *)

(** [const CUBE_MAP = [0, 2, 4, 5, 3, 1]] *)
Definition CUBE_MAP : list nat := [0; 2; 4; 5; 3; 1]%nat.

(** [const CUBE_HASHMAP = ['left', 'right', 'top', 'bottom', 'back', 'front']] *)
Definition CUBE_HASHMAP : list string :=
  ["left"; "right"; "top"; "bottom"; "back"; "front"].

(** The argument of [loadTexture]: an array, [null], another object seen
    through its properties, or a value that is not an object.  An entry is a
    path, or [None] for [undefined]. *)
Inductive CubemapArg :=
| CubeArray (l : list (option string))
| CubeNull
| CubeObject (o : string → option string)
| CubePrimitive.

(** [!!v] *)
Definition truthy (v : option string) : bool :=
  match v with
  | None | Some EmptyString => false
  | Some _ => true
  end.

Inductive CubemapOutcome :=
| CubeRejected (message : string)
| CubeThrown                               (* [TypeError]: a property of [null] *)
| CubeClean (cleanPanorama : list (option string)).

Definition six_message : string :=
  "Must provide exactly 6 image paths when using cubemap.".
Definition sides_message : string :=
  "Must provide exactly left, front, right, back, top, bottom when using cubemap.".
Definition cubemap_message : string :=
  "Invalid cubemap panorama, are you using the right adapter?.".

(** The first part of [loadTexture]: the value of [cleanPanorama], or how
    the call ends before it. *)
Definition cleanPanorama (panorama : CubemapArg) : CubemapOutcome :=
  match panorama with
  | CubeArray l =>
      if decide (length l = 6%nat)
      then CubeClean ((λ j, mjoin (l !! j)) <$> CUBE_MAP)
      else CubeRejected six_message
  | CubeNull => CubeThrown
  | CubeObject o =>
      if forallb (λ side, truthy (o side)) CUBE_HASHMAP
      then CubeClean (o <$> CUBE_HASHMAP)
      else CubeRejected sides_message
  | CubePrimitive => CubeRejected cubemap_message
  end.

(** An object with the six sides. *)
Definition cube_object (left front right back top bottom : option string)
  : string → option string :=
  λ side,
    if decide (side = "left") then left
    else if decide (side = "front") then front
    else if decide (side = "right") then right
    else if decide (side = "back") then back
    else if decide (side = "top") then top
    else if decide (side = "bottom") then bottom
    else None.

(** ** Progress of the six images *)

(** [a + b] and [a / d] for a positive constant [d]. *)
Definition Num_add (a b : Num) : Num :=
  match a, b with
  | NaN, _ | _, NaN => NaN
  | Infinity, _ | _, Infinity => Infinity
  | Finite x, Finite y => Finite (x + y)
  end.

Definition Num_div (a : Num) (d : Q) : Num :=
  match a with Finite x => Finite (x / d) | _ => a end.

(** [utils.sum(array)], the sum of the numbers of the array. *)
Definition utils_sum (l : list Num) : Num := foldl Num_add (Finite 0) l.

(** The six calls of [loadFile] behind [loadImage], the array [progress] and
    the arguments of the calls of [psv.loader.setProgress]. *)
Record Cubemap := mkCubemap {
  loads : list FileLoad;
  progress6 : list Num;
  shown : list Num;
}.

(** [(p) => { progress[i] = p; this.psv.loader.setProgress(utils.sum(progress) / 6); }] *)
Definition cube_report (i : nat) (c : Cubemap) (p : Num) : Cubemap :=
  let progress := <[i := p]> (progress6 c) in
  mkCubemap (loads c) progress (shown c ++ [Num_div (utils_sum progress) 6]).

(** The loop that starts the six loads: each call of [loadFile] reports 0 at
    once. *)
Definition cube_begin : Cubemap :=
  foldl (λ c i,
           let f := loadFile_begin true in
           foldl (cube_report i)
                 (mkCubemap (loads c ++ [f]) (progress6 c) (shown c))
                 (reports f))
        (mkCubemap [] (replicate 6 (Finite 0)) [])
        (seq 0 6).

(** The loader of image [i] calls one of its callbacks: what [loadFile]
    reports then is passed on. *)
Definition cube_on (c : Cubemap) (ie : nat * LoaderEvent) : Cubemap :=
  match loads c !! ie.1 with
  | None => c
  | Some f =>
      let f' := loadFile_on true f ie.2 in
      foldl (cube_report ie.1)
            (mkCubemap (<[ie.1 := f']> (loads c)) (progress6 c) (shown c))
            (drop (length (reports f)) (reports f'))
  end.

Definition cube_run (es : list (nat * LoaderEvent)) : Cubemap :=
  foldl cube_on cube_begin es.

(** What holds of the six loads when no progress event exceeds its total. *)
Record cube_inv (c : Cubemap) (ps qs : list Q) : Prop := mkCubeInv {
  ci_progress : progress6 c = Finite <$> ps;
  ci_shown : shown c = Finite <$> qs;
  ci_six : length ps = 6%nat ∧ length (loads c) = 6%nat;
  ci_load : ∀ i f, loads c !! i = Some f →
      ∃ q, progress f = Finite q ∧ ps !! i = Some q ∧ (0 <= q <= 100)%Q
           ∧ (outcome f = Some true → q = 100%Q);
  ci_range : Forall (λ q, 0 <= q <= 100)%Q qs;
  ci_sorted : StronglySorted Qle qs;
  ci_below : Forall (λ q, q <= foldl Qplus 0 ps / 6)%Q qs;
  ci_last : ∃ q, last qs = Some q ∧ (q == foldl Qplus 0 ps / 6)%Q;
}.

(** * Proofs *)

(** ** Dictionaries *)

Section ObjLemmas.
Context {V : Type}.
Implicit Types (o : list (string * V)) (k : string) (v : V).

Lemma obj_get_Some_elem o k v : obj_get k o = Some v → (k, v) ∈ o.
Proof.
  induction o as [|[k' v'] o IH]; simpl; [done|].
  case_decide as E; [intros [= ->]; subst; left | intros H; right; auto].
Qed.

Lemma obj_get_None o k : obj_get k o = None ↔ k ∉ o.*1.
Proof.
  induction o as [|[k' v'] o IH]; simpl; [set_solver|].
  case_decide as E; [set_solver|]. rewrite IH. set_solver.
Qed.

Lemma elem_obj_get o k v : NoDup o.*1 → (k, v) ∈ o → obj_get k o = Some v.
Proof.
  induction o as [|[k' v'] o IH]; simpl; [set_solver|].
  intros [Hnot Hnd]%NoDup_cons [[= -> ->]|Hin]%elem_of_cons.
  - by rewrite decide_True.
  - rewrite decide_False; [auto|]. intros ->. apply Hnot.
    apply list_elem_of_fmap. by exists (k, v).
Qed.

Lemma obj_get_set o k k' v :
  obj_get k' (obj_set k v o) = if decide (k = k') then Some v else obj_get k' o.
Proof.
  induction o as [|[k0 v0] o IH]; simpl.
  - repeat case_decide; congruence.
  - repeat (case_decide; simpl); try congruence.
Qed.

Lemma obj_get_delete o k k' :
  obj_get k' (obj_delete k o) = if decide (k = k') then None else obj_get k' o.
Proof.
  induction o as [|[k0 v0] o IH]; simpl.
  - by case_decide.
  - repeat (case_decide; simpl); try congruence.
Qed.

Lemma obj_set_keys o k v :
  (obj_set k v o).*1 = if decide (k ∈ o.*1) then o.*1 else o.*1 ++ [k].
Proof.
  induction o as [|[k0 v0] o IH]; cbn [obj_set fmap list_fmap fst].
  - rewrite decide_False; [done | set_solver].
  - destruct (decide (k0 = k)) as [->|Hne]; cbn [fmap list_fmap fst].
    + rewrite decide_True; [done | set_solver].
    + change (list_fmap _ _ fst) with (fmap (M:=list) (@fst string V)).
      rewrite IH. destruct (decide (k ∈ o.*1)).
      * rewrite decide_True; [done | set_solver].
      * rewrite decide_False; [done | set_solver].
Qed.

Lemma NoDup_obj_set o k v : NoDup o.*1 → NoDup (obj_set k v o).*1.
Proof.
  intros Hnd. rewrite obj_set_keys. case_decide; [done|].
  apply NoDup_app. split; [done|]. split; [set_solver | apply NoDup_singleton].
Qed.

Lemma elem_of_obj_delete o k k' v' :
  (k', v') ∈ obj_delete k o ↔ (k', v') ∈ o ∧ k' ≠ k.
Proof.
  induction o as [|[k0 v0] o IH]; simpl; [set_solver|].
  case_decide as E; [subst; rewrite IH; set_solver|].
  rewrite !elem_of_cons, IH. split; [|naive_solver].
  intros [[= -> ->]|[? ?]]; naive_solver.
Qed.

Lemma NoDup_obj_delete o k : NoDup o.*1 → NoDup (obj_delete k o).*1.
Proof.
  induction o as [|[k0 v0] o IH]; simpl; [done|].
  intros [Hnot Hnd]%NoDup_cons. case_decide; [auto|].
  cbn [fmap list_fmap fst]. apply NoDup_cons. split; [|by apply IH].
  intros [[k1 v1] [Hk Hin]]%list_elem_of_fmap. simpl in Hk. subst k1.
  apply elem_of_obj_delete in Hin as [Hin _]. apply Hnot.
  apply list_elem_of_fmap. by exists (k0, v1).
Qed.
End ObjLemmas.

(** ** Sorting by priority *)

Section SortLemmas.
Context {A : Type} (key : A → Q).

Lemma elem_of_sort_insert (x y : A) (l : list A) :
  y ∈ sort_insert (λ a b, (key a - key b)%Q) x l ↔ y = x ∨ y ∈ l.
Proof.
  induction l as [|z l IH]; simpl; [set_solver|].
  destruct (Qlt_le_dec 0 (key x - key z)); [|set_solver].
  rewrite elem_of_cons, IH. set_solver.
Qed.

Lemma elem_of_Array_sort (y : A) (l : list A) : y ∈ Array_sort (λ a b, (key a - key b)%Q) l ↔ y ∈ l.
Proof.
  induction l as [|x l IH]; simpl; [done|].
  rewrite elem_of_sort_insert, IH. set_solver.
Qed.

Lemma sort_insert_ascending (x : A) (l : list A) :
  ascending key l → ascending key (sort_insert (λ a b, (key a - key b)%Q) x l).
Proof.
  induction 1 as [|y l Hl IH Hy]; simpl.
  - repeat constructor.
  - destruct (Qlt_le_dec 0 (key x - key y)) as [Hgt|Hle].
    + constructor; [done|]. apply Forall_forall. intros z Hz.
      apply elem_of_sort_insert in Hz as [->|Hz]; [lra|].
      by eapply Forall_forall in Hy.
    + constructor; [by constructor|]. constructor; [lra|].
      eapply Forall_impl; [exact Hy|]. simpl. intros z Hz. lra.
Qed.

Lemma Array_sort_ascending (l : list A) : ascending key (Array_sort (λ a b, (key a - key b)%Q) l).
Proof.
  induction l as [|x l IH]; simpl; [constructor | by apply sort_insert_ascending].
Qed.

Lemma ascending_last_max (l : list A) (m : A) :
  ascending key l → last l = Some m → ∀ y, y ∈ l → (key y <= key m)%Q.
Proof.
  induction 1 as [|x l Hl IH Hx]; [done|].
  destruct l as [|x' l'].
  - simpl. intros [= <-] y ->%list_elem_of_singleton. lra.
  - change (last (x :: x' :: l')) with (last (x' :: l')). intros Hm y Hy.
    apply elem_of_cons in Hy as [->|Hy]; [|by apply IH].
    eapply Forall_forall in Hx; [exact Hx|]. by eapply last_Some_elem_of.
Qed.

(** [sort] then [pop] picks an element of greatest key. *)
Lemma sort_pop_max (l : list A) (m : A) :
  Array_pop (Array_sort (λ a b, (key a - key b)%Q) l) = Some m →
  m ∈ l ∧ ∀ y, y ∈ l → (key y <= key m)%Q.
Proof.
  unfold Array_pop. intros Hm. split.
  - apply elem_of_Array_sort. by eapply last_Some_elem_of.
  - intros y Hy. eapply ascending_last_max; [apply Array_sort_ascending | done |].
    by apply elem_of_Array_sort.
Qed.

Lemma sort_pop_None (l : list A) :
  Array_pop (Array_sort (λ a b, (key a - key b)%Q) l) = None → l = [].
Proof.
  unfold Array_pop. rewrite last_None. destruct l as [|x l]; [done|].
  intros E. assert (x ∈ Array_sort (λ a b, (key a - key b)%Q) (x :: l)) as Hx
    by (apply elem_of_Array_sort; left).
  rewrite E in Hx. by apply not_elem_of_nil in Hx.
Qed.
End SortLemmas.

(** ** Selection of the next task *)

Lemma startable_spec (t : Task) :
  startable t = true ↔ status t = PENDING ∧ (0 < priority t)%Q.
Proof.
  unfold startable. rewrite andb_true_iff, bool_decide_eq_true.
  destruct (Qlt_le_dec 0 (priority t)); [naive_solver|].
  split; [intros [_ [=]] | intros [_ H]; lra].
Qed.

Lemma startable_ref_spec (h : list Task) (r : nat) :
  startable_ref h r = true
  ↔ ∃ t, h !! r = Some t ∧ status t = PENDING ∧ (0 < priority t)%Q.
Proof.
  unfold startable_ref. destruct (h !! r) as [t|]; [|naive_solver].
  rewrite startable_spec. naive_solver.
Qed.

Lemma elem_of_obj_values {V} (o : list (string * V)) (v : V) :
  v ∈ obj_values o ↔ ∃ k, (k, v) ∈ o.
Proof.
  unfold obj_values. rewrite list_elem_of_fmap. split.
  - intros ([k v'] & -> & Hin). by exists k.
  - intros [k Hin]. by exists (k, v).
Qed.

Lemma Queue_next_Some (s : Adapter) (r : nat) :
  Queue_next s = Some r →
  ∃ k t, (k, r) ∈ tasks (queue s) ∧ heap s !! r = Some t
         ∧ status t = PENDING ∧ (0 < priority t)%Q
         ∧ ∀ k' r' t', (k', r') ∈ tasks (queue s) → heap s !! r' = Some t' →
             status t' = PENDING → (0 < priority t')%Q →
             (priority t' <= priority t)%Q.
Proof.
  unfold Queue_next, by_priority. intros [Hin Hmax]%sort_pop_max.
  apply list_elem_of_In, filter_In in Hin as [Hin Hst].
  apply list_elem_of_In, elem_of_obj_values in Hin as [k Hk].
  apply startable_ref_spec in Hst as (t & Ht & Hp & Hpos).
  exists k, t. repeat split; try done.
  intros k' r' t' Hk' Ht' Hp' Hpos'.
  assert (Hr' : r' ∈ List.filter (startable_ref (heap s)) (obj_values (tasks (queue s)))).
  { apply list_elem_of_In, filter_In. split.
    - apply list_elem_of_In, elem_of_obj_values. by exists k'.
    - apply startable_ref_spec. by exists t'. }
  apply Hmax in Hr'. unfold priority_of in Hr'. by rewrite Ht, Ht' in Hr'.
Qed.

Lemma Queue_next_None (s : Adapter) :
  Queue_next s = None →
  ∀ k r t, (k, r) ∈ tasks (queue s) → heap s !! r = Some t →
    ¬ (status t = PENDING ∧ (0 < priority t)%Q).
Proof.
  unfold Queue_next, by_priority. intros Hnil%sort_pop_None k r t Hk Ht [Hp Hpos].
  assert (Hr : r ∈ List.filter (startable_ref (heap s)) (obj_values (tasks (queue s)))).
  { apply list_elem_of_In, filter_In. split.
    - apply list_elem_of_In, elem_of_obj_values. by exists k.
    - apply startable_ref_spec. by exists t. }
  rewrite Hnil in Hr. by apply not_elem_of_nil in Hr.
Qed.

(** ** One launch, and induction over [Queue.start] *)

Lemma launch_eq (r : nat) (s s' : Adapter) (t : Task) (b : bool) :
  heap s !! r = Some t → launch r s = (s', b) →
  ∃ l, s' = launched r t l s ∧ loads_after r t s l.
Proof.
  intros Ht. unfold launch, Task_start, loads_after. simpl. rewrite Ht. simpl.
  unfold drawTile_begin at 1. simpl. fold (drawTile_begin s (fn t)).
  destruct (drawTile_begin s (fn t)) as [job|]; intros [= <- <-].
  - exists (<[r := job]> (loading s)). split; [done | right; eauto].
  - exists (loading s). split; [done | by left].
Qed.

Lemma Queue_start_fuel_ind (P : Adapter → Prop) :
  (∀ s r k t l,
      P s →
      (size (runningTasks (queue s)) < concurency (queue s))%nat →
      Queue_next s = Some r → (k, r) ∈ tasks (queue s) → heap s !! r = Some t →
      status t = PENDING → (0 < priority t)%Q → loads_after r t s l →
      P (launched r t l s)) →
  ∀ n s s', P s → Queue_start_fuel n s = Some s' → P s'.
Proof.
  intros Hstep n. induction n as [|n IH]; intros s s' HP; simpl; [done|].
  case_decide as Hfull; [by intros [= <-]|].
  destruct (Queue_next s) as [r|] eqn:Hnext; [|by intros [= <-]].
  destruct (Queue_next_Some _ _ Hnext) as (k & t & Hk & Ht & Hp & Hpos & _).
  destruct (launch r s) as [s1 b] eqn:Hl.
  destruct (launch_eq _ _ _ _ _ Ht Hl) as (l & -> & Hloads).
  assert (P (launched r t l s)) by (eapply Hstep; eauto; lia).
  destruct b; [by apply IH | by intros [= <-]].
Qed.

Lemma Queue_start_ind (P : Adapter → Prop) :
  (∀ s r k t l,
      P s →
      (size (runningTasks (queue s)) < concurency (queue s))%nat →
      Queue_next s = Some r → (k, r) ∈ tasks (queue s) → heap s !! r = Some t →
      status t = PENDING → (0 < priority t)%Q → loads_after r t s l →
      P (launched r t l s)) →
  ∀ s, P s → P (Queue_start s).
Proof.
  intros Hstep s HP. unfold Queue_start.
  destruct (Queue_start_fuel _ s) as [s'|] eqn:E; simpl; [|done].
  by eapply Queue_start_fuel_ind.
Qed.

(** *** The fuel is enough *)

Lemma filter_length_lt {A} (f g : A → bool) (l : list A) (x : A) :
  (∀ y, f y = true → g y = true) → x ∈ l → g x = true → f x = false →
  (length (List.filter f l) < length (List.filter g l))%nat.
Proof.
  intros Hfg. 
  assert (Hle : ∀ l', (length (List.filter f l') ≤ length (List.filter g l'))%nat).
  { induction l' as [|y l' IH]; simpl; [done|].
    destruct (f y) eqn:Ef; [rewrite (Hfg _ Ef); simpl; lia|].
    destruct (g y); simpl; lia. }
  induction l as [|y l IH]; intros Hin Hg Hf; [by apply not_elem_of_nil in Hin|].
  apply elem_of_cons in Hin as [<-|Hin]; simpl.
  - rewrite Hg, Hf. simpl. specialize (Hle l). lia.
  - specialize (IH Hin Hg Hf). destruct (f y) eqn:Ef; [rewrite (Hfg _ Ef); simpl; lia|].
    destruct (g y); simpl; lia.
Qed.

Lemma Queue_start_fuel_Some (n : nat) (s : Adapter) :
  (length (List.filter (startable_ref (heap s)) (obj_values (tasks (queue s)))) < n)%nat →
  is_Some (Queue_start_fuel n s).
Proof.
  revert s. induction n as [|n IH]; intros s Hlt; [lia|]. simpl.
  case_decide; [done|].
  destruct (Queue_next s) as [r|] eqn:Hnext; [|done].
  destruct (Queue_next_Some _ _ Hnext) as (k & t & Hk & Ht & Hp & Hpos & _).
  destruct (launch r s) as [s1 b] eqn:Hl.
  destruct (launch_eq _ _ _ _ _ Ht Hl) as (l & -> & Hloads).
  destruct b; [|done]. apply IH. simpl.
  eapply Nat.lt_le_trans; [|apply Nat.lt_succ_r, Hlt].
  apply (filter_length_lt _ _ _ r).
  - intros r'. rewrite !startable_ref_spec. intros (t' & Ht' & Hp' & Hpos').
    rewrite list_lookup_alter in Ht'. case_decide as E.
    + subst r'. rewrite Ht in Ht'. by simplify_eq/=.
    + eauto.
  - apply elem_of_obj_values. by exists k.
  - apply startable_ref_spec. eauto.
  - apply not_true_is_false. rewrite startable_ref_spec.
    intros (t' & Ht' & Hp' & _). rewrite list_lookup_alter_eq, Ht in Ht'.
    by simplify_eq/=.
Qed.

Lemma Queue_start_fuel_enough (s : Adapter) :
  ∃ s', Queue_start_fuel (S (length (tasks (queue s)))) s = Some s'.
Proof.
  apply Queue_start_fuel_Some. apply Nat.lt_succ_r.
  etransitivity; [apply List.filter_length_le|]. unfold obj_values. by rewrite length_fmap.
Qed.

(** ** Well-formed states *)

Lemma wf_init : wf init.
Proof.
  split; simpl.
  - constructor.
  - intros k r Hin. by apply not_elem_of_nil in Hin.
  - intros k r Hin. by apply not_elem_of_nil in Hin.
  - intros r job Hj. by rewrite lookup_empty in Hj.
  - split; [done | lia].
Qed.

Lemma lookup_alter_Some {A} (f : A → A) (h : list A) (r r' : nat) (t' : A) :
  alter f r h !! r' = Some t' →
  ∃ t, h !! r' = Some t ∧ t' = (if decide (r = r') then f t else t).
Proof.
  rewrite list_lookup_alter. case_decide as E.
  - subst. destruct (h !! r') as [t|]; [|done]. intros [= <-]. eauto.
  - eauto.
Qed.

Lemma lookup_alter_Some_inv {A} (f : A → A) (h : list A) (r r' : nat) (t : A) :
  h !! r' = Some t →
  alter f r h !! r' = Some (if decide (r = r') then f t else t).
Proof.
  intros Ht. rewrite list_lookup_alter.
  destruct (decide (r = r')) as [->|]; [by rewrite Ht | done].
Qed.

Lemma fmap_id_alter (f : Task → Task) (r : nat) (h : list Task) :
  (∀ t, id (f t) = id t) → id <$> alter f r h = id <$> h.
Proof.
  intros Hf. rewrite (list_fmap_alter id f (λ x, x)) by (apply Forall_forall; intros; apply Hf).
  by apply list_alter_id.
Qed.

Lemma wf_alter (f : Task → Task) (r : nat) (s : Adapter) :
  (∀ t, id (f t) = id t) → wf s → wf (with_heap (alter f r (heap s)) s).
Proof.
  intros Hf [H1 H2 H3 H4 H5]. split; simpl; try done.
  - intros k r' Hk. destruct (H2 _ _ Hk) as (t & Ht & Hid).
    eexists. split; [by apply lookup_alter_Some_inv|]. case_decide; by rewrite ?Hf.
  - intros r' job Hj. destruct (H4 _ _ Hj) as [[t Ht] Hlt]. split; [|done].
    eexists. by apply lookup_alter_Some_inv.
Qed.

Lemma foldl_alter_ind (P : Adapter → Prop) (f : Task → Task) :
  (∀ s r, P s → P (with_heap (alter f r (heap s)) s)) →
  ∀ l s, P s → P (foldl (λ s' r, with_heap (alter f r (heap s')) s') s l).
Proof.
  intros Hstep l. induction l as [|r l IH]; intros s HP; simpl; [done|].
  apply IH, Hstep, HP.
Qed.

Lemma Queue_setAllPriorities_ind (P : Adapter → Prop) (p : Q) :
  (∀ s r, P s → P (with_heap (alter (set_priority p) r (heap s)) s)) →
  ∀ s, P s → P (Queue_setAllPriorities p s).
Proof.
  intros Hstep s HP. unfold Queue_setAllPriorities.
  by apply (foldl_alter_ind P (set_priority p)).
Qed.

Lemma Queue_setPriority_ind (P : Adapter → Prop) (k : string) (p : Q) :
  (∀ s r, P s → P (with_heap (alter (set_priority p) r (heap s)) s)) →
  ∀ s, P s → P (Queue_setPriority k p s).
Proof.
  intros Hstep s HP. unfold Queue_setPriority.
  destruct (obj_get k (tasks (queue s))); [by apply Hstep | done].
Qed.

Lemma loadTile_eq (s : Adapter) (c : Candidate) :
  loadTile s c
  = if decide (tileId (tile c) ∈ tiles (props s))
    then Queue_setPriority (tileId (tile c)) (Math_PI / 2 - angle c)%Q s
    else enqueued (tileId (tile c)) (Math_PI / 2 - angle c)%Q (tile c) s.
Proof.
  unfold loadTile. case_decide; [done|].
  unfold Queue_enqueue, enqueued. simpl.
  by rewrite list_lookup_middle.
Qed.

Lemma loadTile_ind (P : Adapter → Prop) :
  (∀ s r p, P s → P (with_heap (alter (set_priority p) r (heap s)) s)) →
  (∀ s i p t, P s → i ∉ tiles (props s) → P (enqueued i p t s)) →
  ∀ s c, P s → P (loadTile s c).
Proof.
  intros Hprio Hnew s c HP. rewrite loadTile_eq. case_decide.
  - apply Queue_setPriority_ind; [|done]. intros; by apply Hprio.
  - by apply Hnew.
Qed.

Lemma wf_elem (s : Adapter) (k : string) (r : nat) :
  wf s → ((k, r) ∈ tasks (queue s) ↔ obj_get k (tasks (queue s)) = Some r).
Proof.
  intros Hwf. split; [apply elem_obj_get, Hwf | apply obj_get_Some_elem].
Qed.

Lemma wf_enqueued (i : string) (p : Q) (t : Tile) (s : Adapter) :
  wf s → wf (enqueued i p t s).
Proof.
  intros Hwf. pose proof Hwf as [H1 H2 H3 H4 H5].
  assert (Hk : NoDup (obj_keys (obj_set i (length (heap s)) (tasks (queue s)))))
    by by apply NoDup_obj_set.
  assert (Hcase : ∀ k r, (k, r) ∈ obj_set i (length (heap s)) (tasks (queue s)) →
            (k = i ∧ r = length (heap s)) ∨ (k ≠ i ∧ (k, r) ∈ tasks (queue s))).
  { intros k r Hin%(elem_obj_get _ _ _ Hk). rewrite obj_get_set in Hin.
    case_decide; [left; by simplify_eq | right]. split; [done|].
    by apply obj_get_Some_elem. }
  split; simpl; try done.
  - intros k r [[-> ->]|[Hne Hin]]%Hcase.
    + exists (Task_new i p t). split; [by rewrite list_lookup_middle | done].
    + destruct (H2 _ _ Hin) as (t' & Ht' & Hid). exists t'. split; [|done].
      by apply lookup_app_l_Some.
  - intros k r [[-> ->]|[Hne Hin]]%Hcase; [set_solver|].
    apply elem_of_union_r. eauto.
  - intros r job Hj. destruct (H4 _ _ Hj) as [[t' Ht'] Hlt]. split; [|done].
    exists t'. by apply lookup_app_l_Some.
Qed.

Lemma drawTile_begin_idx (s : Adapter) (t : Tile) (job : DrawJob) :
  drawTile_begin s t = Some job → (job_canvasIdx job < length (canvas s))%nat.
Proof.
  unfold drawTile_begin. intros H.
  repeat case_match; simplify_eq/=; by eapply lookup_lt_Some.
Qed.

Lemma wf_launched (r : nat) (t : Task) (l : gmap nat DrawJob) (s : Adapter) :
  wf s → heap s !! r = Some t → loads_after r t s l → wf (launched r t l s).
Proof.
  intros Hwf Ht Hl.
  pose proof (wf_alter (set_status RUNNING) r s (λ _, eq_refl) Hwf) as [H1 H2 H3 H4 H5].
  split; simpl in *; try done.
  intros r' job Hj. destruct Hl as [->|(job' & Hb & ->)]; [by apply H4|].
  apply lookup_insert_Some in Hj as [[<- <-]|[Hne Hj]]; [|by apply H4].
  split.
  - eexists. by apply lookup_alter_Some_inv.
  - apply drawTile_begin_idx in Hb. destruct H5 as [<- _]. done.
Qed.

Lemma wf_Queue_start (s : Adapter) : wf s → wf (Queue_start s).
Proof.
  apply Queue_start_ind. intros s' r k t l Hwf _ _ _ Ht _ _ Hl. by apply wf_launched.
Qed.

Lemma wf_loadTiles (cands : list Candidate) (s : Adapter) :
  wf s → wf (__loadTiles cands s).
Proof.
  intros Hwf. unfold __loadTiles. apply wf_Queue_start.
  assert (Hs : wf (Queue_setAllPriorities 0 s)).
  { apply Queue_setAllPriorities_ind; [|done]. intros; by apply wf_alter. }
  revert Hs. generalize (Queue_setAllPriorities 0 s). clear.
  induction cands as [|c cands IH]; intros s Hwf; simpl; [done|].
  apply IH. apply loadTile_ind; [| |done].
  - intros; by apply wf_alter.
  - intros; by apply wf_enqueued.
Qed.

Lemma settle_eq (r : nat) (ok : bool) (s : Adapter) (job : DrawJob) (t : Task) :
  loading s !! r = Some job → heap s !! r = Some t →
  ∃ st cs ts n,
    settle r ok s = Queue_start (settled r t st cs ts n s)
    ∧ length ts = length (textures s)
    ∧ (st = DONE ∨ st = ERROR)
    ∧ ((job_canvasIdx job < length (textures s))%nat → st = DONE).
Proof.
  intros Hj Ht. unfold settle. rewrite Hj, Ht. unfold drawTile_settle. simpl.
  destruct (textures s !! job_canvasIdx job) as [tx|] eqn:E; simpl.
  - exists DONE, (alter (λ c, c ++ [if ok then DrawImage
        (inject_Z (job_colInCanvas job) * colSize (props s))%Q
        (inject_Z (job_rowInCanvas job) * rowSize (props s))%Q
        (colSize (props s)) (rowSize (props s)) else Placeholder
        (inject_Z (job_colInCanvas job) * colSize (props s))%Q
        (inject_Z (job_rowInCanvas job) * rowSize (props s))%Q
        (colSize (props s)) (rowSize (props s))]) (job_ctx job) (canvases s)),
      (alter (λ t, mkTexture (tex_canvas t) (S (tex_updates t)))
             (job_canvasIdx job) (textures s)), (S (redraws s)).
    split; [reflexivity|]. rewrite length_alter. auto.
  - eexists ERROR, _, _, _. split; [reflexivity|]. split; [done|]. split; [auto|].
    intros Hlt. apply lookup_ge_None in E. lia.
Qed.

Lemma settle_idle (r : nat) (ok : bool) (s : Adapter) :
  loading s !! r = None ∨ heap s !! r = None → settle r ok s = s.
Proof.
  unfold settle. intros [-> | ->]; [done|]. by destruct (loading s !! r).
Qed.

Lemma wf_settled (r : nat) (t : Task) (st : STATUS)
    (cs : list Canvas) (ts : list Texture) (n : nat) (s : Adapter) :
  wf s → length ts = length (textures s) → wf (settled r t st cs ts n s).
Proof.
  intros Hwf Hlen.
  pose proof (wf_alter (set_status st) r s (λ _, eq_refl) Hwf) as [H1 H2 H3 H4 H5].
  split; simpl in *.
  - by apply NoDup_obj_delete.
  - intros k r' [Hin _]%elem_of_obj_delete. by apply H2.
  - intros k r' [Hin _]%elem_of_obj_delete. by eapply H3.
  - intros r' job' [_ Hj]%lookup_delete_Some. rewrite Hlen. by apply H4.
  - by rewrite Hlen.
Qed.

Lemma wf_settle (r : nat) (ok : bool) (s : Adapter) : wf s → wf (settle r ok s).
Proof.
  intros Hwf.
  destruct (loading s !! r) as [job|] eqn:Hj; [|by rewrite settle_idle by auto].
  destruct (heap s !! r) as [t|] eqn:Ht; [|by rewrite settle_idle by auto].
  destruct (settle_eq r ok s job t Hj Ht) as (st & cs & ts & n & -> & Hlen & _).
  by apply wf_Queue_start, wf_settled.
Qed.

Lemma Queue_clear_queue (s : Adapter) :
  queue (Queue_clear s) = mkQueue (concurency (queue s)) ∅ [].
Proof.
  unfold Queue_clear.
  by apply (foldl_alter_ind (λ s', queue s' = mkQueue (concurency (queue s)) ∅ [])
                          (set_status CANCELLED)).
Qed.

Lemma Queue_clear_ind (P : Adapter → Prop) (s : Adapter) :
  (∀ s' r, P s' → P (with_heap (alter (set_status CANCELLED) r (heap s')) s')) →
  P (with_queue (mkQueue (concurency (queue s)) ∅ []) s) →
  P (Queue_clear s).
Proof.
  intros Hstep H0. unfold Queue_clear.
  by apply (foldl_alter_ind P (set_status CANCELLED)).
Qed.

Lemma wf_drop_queue (s : Adapter) :
  wf s → wf (with_queue (mkQueue (concurency (queue s)) ∅ []) s).
Proof.
  intros [H1 H2 H3 H4 H5]. split; simpl; try done; try set_solver. constructor.
Qed.

Lemma wf_Queue_clear (s : Adapter) : wf s → wf (Queue_clear s).
Proof.
  intros Hwf. apply Queue_clear_ind; [|by apply wf_drop_queue].
  intros; by apply wf_alter.
Qed.

Lemma wf_loadTexture (arg : PanoramaArg) (s : Adapter) :
  wf s → wf (loadTexture arg s).2.
Proof.
  intros Hwf. unfold loadTexture. destruct (checkPanorama arg) as [o|p]; [done|].
  pose proof (wf_Queue_clear s Hwf) as [H1 H2 H3 H4 H5].
  pose proof (Queue_clear_queue s) as Hq.
  split; simpl.
  - done.
  - done.
  - rewrite Hq. simpl. intros k r Hin. by apply not_elem_of_nil in Hin.
  - intros r job Hj. destruct (H4 _ _ Hj) as [? ?]. split; [done|]. lia.
  - done.
Qed.

Lemma wf_step (s : Adapter) (ev : Event) : wf s → wf (step s ev).
Proof.
  intros Hwf. destruct ev as [arg|view|cands|r ok]; simpl.
  - by apply wf_loadTexture.
  - unfold __refresh. destruct (config_panorama s); [by apply wf_loadTiles | done].
  - by apply wf_loadTiles.
  - by apply wf_settle.
Qed.

Lemma wf_run (evs : list Event) (s : Adapter) : wf s → wf (run evs s).
Proof.
  revert s. induction evs as [|ev evs IH]; intros s Hwf; simpl; [done|].
  apply IH. by apply wf_step.
Qed.

(** ** Task creation within one panorama load *)

Lemma grows_refl (s : Adapter) : grows s s.
Proof.
  exists []. rewrite app_nil_r. split; [done|]. split; [constructor|].
  split; [set_solver | set_solver].
Qed.

Lemma grows_trans (s1 s2 s3 : Adapter) : grows s1 s2 → grows s2 s3 → grows s1 s3.
Proof.
  intros (n1 & Hi1 & Hd1 & Hf1 & Ht1) (n2 & Hi2 & Hd2 & Hf2 & Ht2).
  exists (n1 ++ n2). split; [by rewrite Hi2, Hi1, app_assoc|].
  split; [|split].
  - apply NoDup_app. split; [done|]. split; [|done].
    intros i Hi Hi'. apply (Hf2 _ Hi'). rewrite Ht1. set_solver.
  - intros i [Hi|Hi]%elem_of_app; [by apply Hf1|].
    intros Hin. apply (Hf2 _ Hi). rewrite Ht1. set_solver.
  - rewrite Ht2, Ht1, list_to_set_app_L. set_solver.
Qed.

Lemma grows_same (s s' : Adapter) :
  id <$> heap s' = id <$> heap s → props s' = props s → grows s s'.
Proof.
  intros Hi Hp. exists []. rewrite app_nil_r, Hp. split; [done|].
  split; [constructor|]. split; set_solver.
Qed.

Lemma grows_alter (f : Task → Task) (r : nat) (s : Adapter) :
  (∀ t, id (f t) = id t) → grows s (with_heap (alter f r (heap s)) s).
Proof. intros Hf. apply grows_same; [by apply fmap_id_alter | done]. Qed.

Lemma grows_enqueued (i : string) (p : Q) (t : Tile) (s : Adapter) :
  i ∉ tiles (props s) → grows s (enqueued i p t s).
Proof.
  intros Hi. exists [i]. simpl. rewrite fmap_app. split; [done|].
  split; [apply NoDup_singleton|]. split; [set_solver | set_solver].
Qed.

Lemma grows_launched (r : nat) (t : Task) (l : gmap nat DrawJob) (s : Adapter) :
  grows s (launched r t l s).
Proof. apply grows_same; [by apply fmap_id_alter | done]. Qed.

Lemma grows_Queue_start (s : Adapter) : grows s (Queue_start s).
Proof.
  apply (Queue_start_ind (grows s)); [|apply grows_refl].
  intros s' r k t l Hg _ _ _ _ _ _ _. eapply grows_trans; [exact Hg|].
  apply grows_launched.
Qed.

Lemma grows_loadTile (s : Adapter) (c : Candidate) : grows s (loadTile s c).
Proof.
  apply (loadTile_ind (grows s)); [| |apply grows_refl].
  - intros s' r p Hg. eapply grows_trans; [exact Hg|]. by apply grows_alter.
  - intros s' i p t Hg Hi. eapply grows_trans; [exact Hg|]. by apply grows_enqueued.
Qed.

Lemma grows_foldl_loadTile (cands : list Candidate) (s : Adapter) :
  grows s (foldl loadTile s cands).
Proof.
  revert s. induction cands as [|c cands IH]; intros s; simpl; [apply grows_refl|].
  eapply grows_trans; [apply grows_loadTile | apply IH].
Qed.

Lemma grows_loadTiles (cands : list Candidate) (s : Adapter) :
  grows s (__loadTiles cands s).
Proof.
  unfold __loadTiles.
  eapply grows_trans; [|apply grows_Queue_start].
  eapply grows_trans; [|apply grows_foldl_loadTile].
  apply (Queue_setAllPriorities_ind (grows s)); [|apply grows_refl].
  intros s' r Hg. eapply grows_trans; [exact Hg|]. by apply grows_alter.
Qed.

Lemma grows_settle (r : nat) (ok : bool) (s : Adapter) : grows s (settle r ok s).
Proof.
  destruct (loading s !! r) as [job|] eqn:Hj;
    [|rewrite settle_idle by auto; apply grows_refl].
  destruct (heap s !! r) as [t|] eqn:Ht;
    [|rewrite settle_idle by auto; apply grows_refl].
  destruct (settle_eq r ok s job t Hj Ht) as (st & cs & ts & n & -> & _).
  eapply grows_trans; [|apply grows_Queue_start].
  apply grows_same; [by apply fmap_id_alter | done].
Qed.

Lemma grows_step (s : Adapter) (ev : Event) :
  is_sched ev = true → grows s (step s ev).
Proof.
  destruct ev as [arg|view|cands|r ok]; simpl; intros Hs; [done| | |].
  - unfold __refresh. destruct (config_panorama s);
      [apply grows_loadTiles | apply grows_refl].
  - apply grows_loadTiles.
  - apply grows_settle.
Qed.

Lemma grows_run (evs : list Event) (s : Adapter) :
  forallb is_sched evs = true → grows s (run evs s).
Proof.
  revert s. induction evs as [|ev evs IH]; intros s; simpl; [intros; apply grows_refl|].
  intros [Hev Hevs]%andb_true_iff.
  eapply grows_trans; [by apply grows_step | by apply IH].
Qed.

Lemma grows_created (s s' : Adapter) :
  grows s s' →
  NoDup (id <$> created_since (length (heap s)) s')
  ∧ (∀ t, t ∈ created_since (length (heap s)) s' →
       (id t ∉ tiles (props s)) ∧ id t ∈ tiles (props s'))
  ∧ tiles (props s) ⊆ tiles (props s').
Proof.
  intros (new & Hi & Hd & Hf & Ht). unfold created_since.
  assert (Hnew : id <$> drop (length (heap s)) (heap s') = new).
  { rewrite fmap_drop, Hi. apply drop_app_length'. by rewrite length_fmap. }
  rewrite Hnew. split; [done|]. split; [|set_solver].
  intros t Hin. assert (id t ∈ new) as Hin'.
  { rewrite <- Hnew. by apply list_elem_of_fmap_2. }
  split; [by apply Hf | set_solver].
Qed.

(** ** Tasks that are neither pending nor running stay so *)

Lemma inactive_alter (f : Task → Task) (r r' : nat) (s : Adapter) :
  (∀ t, status t ≠ PENDING → status t ≠ RUNNING →
        status (f t) ≠ PENDING ∧ status (f t) ≠ RUNNING) →
  inactive s r → inactive (with_heap (alter f r' (heap s)) s) r.
Proof.
  intros Hf (t & Ht & Hp & Hr). unfold inactive; simpl.
  eexists. split; [by apply lookup_alter_Some_inv|].
  case_decide; [by apply Hf | done].
Qed.

Lemma inactive_launched (r r' : nat) (t : Task) (l : gmap nat DrawJob) (s : Adapter) :
  heap s !! r' = Some t → status t = PENDING →
  inactive s r → inactive (launched r' t l s) r.
Proof.
  intros Ht' Hp (t0 & Ht0 & Hp0 & Hr0). unfold inactive; simpl.
  eexists. split; [by apply lookup_alter_Some_inv|].
  case_decide; [subst; simplify_eq; done | done].
Qed.

Lemma inactive_Queue_start (s : Adapter) (r : nat) :
  inactive s r → inactive (Queue_start s) r.
Proof.
  apply (Queue_start_ind (λ s', inactive s' r)).
  intros s' r' k t l Hi _ _ _ Ht Hp _ _. by apply inactive_launched.
Qed.

Lemma inactive_enqueued (i : string) (p : Q) (t : Tile) (s : Adapter) (r : nat) :
  inactive s r → inactive (enqueued i p t s) r.
Proof.
  intros (t0 & Ht0 & Hp0 & Hr0). exists t0. split; [|done].
  simpl. by apply lookup_app_l_Some.
Qed.

Lemma inactive_loadTiles (cands : list Candidate) (s : Adapter) (r : nat) :
  inactive s r → inactive (__loadTiles cands s) r.
Proof.
  intros Hi. unfold __loadTiles. apply inactive_Queue_start.
  assert (Hs : inactive (Queue_setAllPriorities 0 s) r).
  { apply (Queue_setAllPriorities_ind (λ s', inactive s' r)); [|done].
    intros; by apply inactive_alter. }
  revert Hs. generalize (Queue_setAllPriorities 0 s). clear.
  induction cands as [|c cands IH]; intros s Hi; simpl; [done|].
  apply IH. apply (loadTile_ind (λ s', inactive s' r)); [| |done].
  - intros; by apply inactive_alter.
  - intros; by apply inactive_enqueued.
Qed.

Lemma inactive_settle (r' : nat) (ok : bool) (s : Adapter) (r : nat) :
  inactive s r → inactive (settle r' ok s) r.
Proof.
  intros Hi.
  destruct (loading s !! r') as [job|] eqn:Hj; [|by rewrite settle_idle by auto].
  destruct (heap s !! r') as [t|] eqn:Ht; [|by rewrite settle_idle by auto].
  destruct (settle_eq r' ok s job t Hj Ht) as (st & cs & ts & n & -> & _ & Hst & _).
  apply inactive_Queue_start.
  destruct Hi as (t0 & Ht0 & Hp0 & Hr0). unfold inactive; simpl.
  eexists. split; [by apply lookup_alter_Some_inv|].
  case_decide; [|done]. simpl. destruct Hst as [-> | ->]; done.
Qed.

Lemma inactive_Queue_clear (s : Adapter) (r : nat) :
  inactive s r → inactive (Queue_clear s) r.
Proof.
  intros Hi. apply (Queue_clear_ind (λ s', inactive s' r)); [|done].
  intros; by apply inactive_alter.
Qed.

Lemma inactive_step (s : Adapter) (ev : Event) (r : nat) :
  inactive s r → inactive (step s ev) r.
Proof.
  intros Hi. destruct ev as [arg|view|cands|r' ok]; simpl.
  - unfold loadTexture. destruct (checkPanorama arg); [done|].
    apply inactive_Queue_clear in Hi. exact Hi.
  - unfold __refresh. destruct (config_panorama s); [by apply inactive_loadTiles | done].
  - by apply inactive_loadTiles.
  - by apply inactive_settle.
Qed.

Lemma inactive_run (evs : list Event) (s : Adapter) (r : nat) :
  inactive s r → inactive (run evs s) r.
Proof.
  revert s. induction evs as [|ev evs IH]; intros s Hi; simpl; [done|].
  by apply IH, inactive_step.
Qed.

(** ** The running tasks within one panorama load *)

Lemma elem_of_alter (f : Task → Task) (r : nat) (h : list Task) (t' : Task) :
  t' ∈ alter f r h → ∃ t, t ∈ h ∧ (t' = t ∨ t' = f t).
Proof.
  intros [r' Hr']%list_elem_of_lookup.
  apply lookup_alter_Some in Hr' as (t & Ht & ->).
  exists t. split; [by eapply list_elem_of_lookup_2|]. case_decide; auto.
Qed.

Lemma single_load_alter_priority (p : Q) (r : nat) (s : Adapter) :
  single_load s → single_load (with_heap (alter (set_priority p) r (heap s)) s).
Proof.
  intros [H1 H2 H3 H4]. split; simpl; [| | |done].
  - by rewrite fmap_id_alter.
  - intros t' (t & Ht & [->| ->])%elem_of_alter; simpl; by apply H2.
  - intros r' t' (t & Ht & ->)%lookup_alter_Some Hst.
    assert (status t = RUNNING ∧ id (if decide (r = r') then set_priority p t else t) = id t)
      as [Hst' ->] by (case_decide; done).
    by apply H3.
Qed.

Lemma NoDup_fmap_lookup_inj {A B} (f : A → B) (l : list A) (i j : nat) (x y : A) :
  NoDup (f <$> l) → l !! i = Some x → l !! j = Some y → f x = f y → i = j.
Proof.
  intros Hnd Hi Hj Hf. eapply NoDup_lookup; [exact Hnd | |].
  - rewrite list_lookup_fmap, Hi. reflexivity.
  - rewrite list_lookup_fmap, Hj. simpl. by rewrite Hf.
Qed.

Lemma single_load_enqueued (i : string) (p : Q) (t : Tile) (s : Adapter) :
  wf s → i ∉ tiles (props s) → single_load s → single_load (enqueued i p t s).
Proof.
  intros Hwf Hi [H1 H2 H3 H4]. split; simpl; [| | |done].
  - rewrite fmap_app. apply NoDup_app. split; [done|]. split; [|apply NoDup_singleton].
    intros k Hk Hk'. apply list_elem_of_fmap in Hk as (t' & -> & Ht').
    simpl in Hk'. apply list_elem_of_singleton in Hk'.
    apply Hi. rewrite <- Hk'. by apply H2.
  - intros t' [Ht'| ->%list_elem_of_singleton]%elem_of_app; [|set_solver].
    apply elem_of_union_r. by apply H2.
  - intros r t' Hr Hst. apply lookup_app_Some in Hr as [Hr|[_ Hr]].
    + destruct (H3 _ _ Hr Hst) as [Hin Hrun]. split; [|done].
      apply obj_get_Some_elem. rewrite obj_get_set, decide_False.
      * by apply (wf_elem s).
      * intros ->. apply Hi. apply H2. by eapply list_elem_of_lookup_2.
    + apply list_lookup_singleton_Some in Hr as [_ <-]. done.
Qed.

Lemma single_load_launched (r : nat) (k : string) (t : Task) (l : gmap nat DrawJob)
    (s : Adapter) :
  wf s → (k, r) ∈ tasks (queue s) → heap s !! r = Some t →
  (size (runningTasks (queue s)) < concurency (queue s))%nat →
  single_load s → single_load (launched r t l s).
Proof.
  intros Hwf Hk Ht Hfree [H1 H2 H3 H4]. split; simpl.
  - by rewrite fmap_id_alter.
  - intros t' (t0 & Ht0 & [->| ->])%elem_of_alter; simpl; by apply H2.
  - intros r' t' (t0 & Ht0 & ->)%lookup_alter_Some Hst.
    destruct (decide (r = r')) as [<-|Hne].
    + simplify_eq. simpl. split; [|set_solver].
      destruct (wf_task _ Hwf _ _ Hk) as (t1 & Ht1 & <-). by simplify_eq.
    + destruct (H3 _ _ Ht0 Hst) as [? ?]. split; [done | set_solver].
  - pose proof (size_union_alt {[id t]} (runningTasks (queue s))) as Hu.
    rewrite size_singleton in Hu.
    assert (Hsub : runningTasks (queue s) ∖ {[id t]} ⊆ runningTasks (queue s))
      by set_solver.
    apply subseteq_size in Hsub. lia.
Qed.

Lemma single_load_Queue_start (s : Adapter) :
  wf s → single_load s → single_load (Queue_start s).
Proof.
  intros Hwf Hsl.
  apply (Queue_start_ind (λ s', wf s' ∧ single_load s')); [|done].
  intros s' r k t l [Hwf' Hsl'] Hfree _ Hk Ht _ _ Hl. split.
  - by apply wf_launched.
  - by eapply single_load_launched.
Qed.

Lemma single_load_loadTiles (cands : list Candidate) (s : Adapter) :
  wf s → single_load s → single_load (__loadTiles cands s).
Proof.
  intros Hwf Hsl. unfold __loadTiles.
  assert (Hs : wf (Queue_setAllPriorities 0 s) ∧ single_load (Queue_setAllPriorities 0 s)).
  { apply (Queue_setAllPriorities_ind (λ s', wf s' ∧ single_load s')); [|done].
    intros s' r [? ?]. split; [by apply wf_alter | by apply single_load_alter_priority]. }
  revert Hs. generalize (Queue_setAllPriorities 0 s). clear.
  induction cands as [|c cands IH]; intros s [Hwf Hsl]; simpl.
  - by apply single_load_Queue_start.
  - apply IH. apply (loadTile_ind (λ s', wf s' ∧ single_load s')); [| |done].
    + intros s' r p [? ?]. split; [by apply wf_alter | by apply single_load_alter_priority].
    + intros s' i p t [? ?] Hi. split; [by apply wf_enqueued | by apply single_load_enqueued].
Qed.

Lemma single_load_settled (r : nat) (t : Task) (st : STATUS)
    (cs : list Canvas) (ts : list Texture) (n : nat) (s : Adapter) :
  heap s !! r = Some t → st ≠ RUNNING →
  single_load s → single_load (settled r t st cs ts n s).
Proof.
  intros Ht Hst [H1 H2 H3 H4]. split; simpl.
  - by rewrite fmap_id_alter.
  - intros t' (t0 & Ht0 & [->| ->])%elem_of_alter; simpl; by apply H2.
  - intros r' t' (t0 & Ht0 & ->)%lookup_alter_Some Hrun.
    destruct (decide (r = r')) as [<-|Hne]; [done|].
    destruct (H3 _ _ Ht0 Hrun) as [Hin Hr].
    assert (id t0 ≠ id t).
    { intros E. apply Hne. by eapply (NoDup_fmap_lookup_inj id (heap s)). }
    split; [by apply elem_of_obj_delete | set_solver].
  - etransitivity; [apply subseteq_size|exact H4]. set_solver.
Qed.

Lemma single_load_settle (r : nat) (ok : bool) (s : Adapter) :
  wf s → single_load s → single_load (settle r ok s).
Proof.
  intros Hwf Hsl.
  destruct (loading s !! r) as [job|] eqn:Hj; [|by rewrite settle_idle by auto].
  destruct (heap s !! r) as [t|] eqn:Ht; [|by rewrite settle_idle by auto].
  destruct (settle_eq r ok s job t Hj Ht) as (st & cs & ts & n & -> & Hlen & Hst & _).
  apply single_load_Queue_start; [by apply wf_settled|].
  apply single_load_settled; [done | by destruct Hst as [-> | ->] | done].
Qed.

Lemma single_load_step (s : Adapter) (ev : Event) :
  is_sched ev = true → wf s → single_load s → single_load (step s ev).
Proof.
  destruct ev as [arg|view|cands|r ok]; simpl; intros Hs Hwf Hsl; [done| | |].
  - unfold __refresh. destruct (config_panorama s); [by apply single_load_loadTiles | done].
  - by apply single_load_loadTiles.
  - by apply single_load_settle.
Qed.

Lemma single_load_run (evs : list Event) (s : Adapter) :
  forallb is_sched evs = true → wf s → single_load s → single_load (run evs s).
Proof.
  revert s. induction evs as [|ev evs IH]; intros s; simpl; [done|].
  intros [Hev Hevs]%andb_true_iff Hwf Hsl.
  apply IH; [done | by apply wf_step | by apply single_load_step].
Qed.

Lemma single_load_fresh (s : Adapter) :
  heap s = [] → (size (runningTasks (queue s)) ≤ concurency (queue s))%nat →
  single_load s.
Proof.
  intros Hh Hc. split; rewrite ?Hh; simpl; [constructor | | |done].
  - intros t Ht. by apply not_elem_of_nil in Ht.
  - intros r t Hr. done.
Qed.

Lemma running_count_bound (s : Adapter) :
  single_load s → (running_count s ≤ concurency (queue s))%nat.
Proof.
  intros [H1 H2 H3 H4]. unfold running_count.
  etransitivity; [|exact H4].
  set (l := filter (λ t, status t = RUNNING) (heap s)).
  assert (Hnd : NoDup (id <$> l)).
  { apply (sublist_NoDup (id <$> l) (id <$> heap s)); [exact H1 | apply fmap_sublist, sublist_filter]. }
  rewrite <- (length_fmap id l), <- (size_list_to_set (C:=gset string) _ Hnd).
  apply subseteq_size. intros k Hk%elem_of_list_to_set.
  apply list_elem_of_fmap in Hk as (t & -> & Ht).
  apply list_elem_of_filter in Ht as [Hst [r Hr]%list_elem_of_lookup].
  by apply (H3 r t).
Qed.

Lemma heap_Queue_clear_nil (s : Adapter) : heap s = [] → heap (Queue_clear s) = [].
Proof.
  intros Hh. apply (Queue_clear_ind (λ s', heap s' = [])); [|done].
  intros s' r Hs'. simpl. by rewrite Hs'.
Qed.

(** ** What [Queue.start] changes *)

Lemma Queue_start_tasks (s : Adapter) :
  ∀ r t, heap s !! r = Some t →
    ∃ t', heap (Queue_start s) !! r = Some t' ∧ started_or_same t t'.
Proof.
  apply (Queue_start_ind (λ s', ∀ r t, heap s !! r = Some t →
            ∃ t', heap s' !! r = Some t' ∧ started_or_same t t')).
  - intros s' r0 k t0 l IH _ _ _ Ht0 Hp0 Hpos0 _ r t Ht.
    destruct (IH _ _ Ht) as (t1 & Ht1 & Hid & Hfn & Hpr & Hst).
    simpl. eexists. split; [by apply lookup_alter_Some_inv|].
    destruct (decide (r0 = r)) as [->|]; [|done]. simplify_eq.
    unfold started_or_same. simpl. rewrite Hid, Hfn, Hpr. repeat split.
    right. destruct Hst as [Hst|(? & ? & ?)]; [|congruence].
    split; [congruence|]. split; [done|]. by rewrite <- Hpr.
  - intros r t Ht. exists t. split; [done|]. unfold started_or_same. auto.
Qed.

(** A task started by [Queue.start] has at least the priority of every known
    task of positive priority that is left pending. *)
Lemma Queue_start_order (s : Adapter) :
  ∀ r t k' r' t',
    heap s !! r = Some t → status t = PENDING →
    status_of (Queue_start s) r = Some RUNNING →
    (k', r') ∈ tasks (queue s) → heap (Queue_start s) !! r' = Some t' →
    status t' = PENDING → (0 < priority t')%Q →
    (priority t' <= priority t)%Q.
Proof.
  cut (tasks (queue (Queue_start s)) = tasks (queue s)
       ∧ (∀ r t, heap s !! r = Some t →
            ∃ t', heap (Queue_start s) !! r = Some t' ∧ started_or_same t t')
       ∧ ∀ r t k' r' t',
           heap s !! r = Some t → status t = PENDING →
           status_of (Queue_start s) r = Some RUNNING →
           (k', r') ∈ tasks (queue s) → heap (Queue_start s) !! r' = Some t' →
           status t' = PENDING → (0 < priority t')%Q →
           (priority t' <= priority t)%Q); [naive_solver|].
  apply (Queue_start_ind (λ s',
    tasks (queue s') = tasks (queue s)
    ∧ (∀ r t, heap s !! r = Some t →
         ∃ t', heap s' !! r = Some t' ∧ started_or_same t t')
    ∧ ∀ r t k' r' t',
        heap s !! r = Some t → status t = PENDING →
        status_of s' r = Some RUNNING →
        (k', r') ∈ tasks (queue s) → heap s' !! r' = Some t' →
        status t' = PENDING → (0 < priority t')%Q →
        (priority t' <= priority t)%Q)).
  - intros s' r0 k0 t0 l (Htasks & Hrel & IH) _ Hnext _ Ht0 Hp0 Hpos0 _.
    destruct (Queue_next_Some _ _ Hnext) as (_ & t0' & _ & Ht0' & _ & _ & Hmax).
    simplify_eq. split; [done|]. split.
    + intros r t Ht. destruct (Hrel _ _ Ht) as (t1 & Ht1 & Hid & Hfn & Hpr & Hst).
      simpl. eexists. split; [by apply lookup_alter_Some_inv|].
      destruct (decide (r0 = r)) as [->|]; [|done]. simplify_eq.
      unfold started_or_same. simpl. rewrite Hid, Hfn, Hpr. repeat split.
      right. destruct Hst as [Hst|(? & ? & ?)]; [|congruence].
      split; [congruence|]. split; [done|]. by rewrite <- Hpr.
    + intros r t k' r' t' Ht Hp Hrun Hk' Ht' Hp' Hpos'. simpl in Ht'.
      apply lookup_alter_Some in Ht' as (t1 & Ht1 & ->).
      destruct (decide (r0 = r')) as [->|Hne']; [done|].
      unfold status_of in Hrun. simpl in Hrun.
      rewrite list_lookup_alter in Hrun. destruct (decide (r0 = r)) as [->|Hne].
      * destruct (Hrel _ _ Ht) as (t2 & Ht2 & _ & _ & Hpr & _). simplify_eq.
        rewrite <- Hpr. rewrite <- Htasks in Hk'. by eapply Hmax.
      * by eapply IH.
  - split; [done|]. split.
    + intros r t Ht. exists t. split; [done|]. unfold started_or_same. auto.
    + intros r t k' r' t' Ht Hp Hrun. unfold status_of in Hrun.
      rewrite Ht in Hrun. simpl in Hrun. congruence.
Qed.

Lemma Queue_start_frame (s : Adapter) :
  tasks (queue (Queue_start s)) = tasks (queue s)
  ∧ concurency (queue (Queue_start s)) = concurency (queue s)
  ∧ props (Queue_start s) = props s
  ∧ length (heap (Queue_start s)) = length (heap s).
Proof.
  apply (Queue_start_ind (λ s',
    tasks (queue s') = tasks (queue s) ∧ concurency (queue s') = concurency (queue s)
    ∧ props s' = props s ∧ length (heap s') = length (heap s))); [|done].
  intros s' r k t l (? & ? & ? & ?) _ _ _ _ _ _ _. simpl.
  by rewrite length_alter.
Qed.

Lemma Queue_start_idle (s : Adapter) :
  (concurency (queue s) ≤ size (runningTasks (queue s)))%nat ∨ Queue_next s = None →
  Queue_start s = s.
Proof.
  unfold Queue_start. simpl. intros [Hfull|Hnone].
  - by rewrite decide_True.
  - case_decide; [done|]. by rewrite Hnone.
Qed.

Lemma Queue_start_launches (s : Adapter) (r : nat) :
  (size (runningTasks (queue s)) < concurency (queue s))%nat →
  Queue_next s = Some r → status_of (Queue_start s) r = Some RUNNING.
Proof.
  intros Hfree Hnext. unfold Queue_start.
  destruct (Queue_start_fuel_enough s) as [s' Hs']. rewrite Hs'. simpl.
  simpl in Hs'. rewrite decide_False, Hnext in Hs' by lia.
  destruct (Queue_next_Some _ _ Hnext) as (k & t & Hk & Ht & Hp & Hpos & _).
  destruct (launch r s) as [s1 b] eqn:Hl.
  destruct (launch_eq _ _ _ _ _ Ht Hl) as (l & -> & Hloads).
  assert (H1 : status_of (launched r t l s) r = Some RUNNING).
  { unfold status_of. simpl. by rewrite list_lookup_alter_eq, Ht. }
  destruct b; [|by simplify_eq].
  revert Hs'. apply (Queue_start_fuel_ind (λ s', status_of s' r = Some RUNNING)); [|done].
  intros s2 r2 k2 t2 l2 Hst _ _ _ Ht2 Hp2 _ _. unfold status_of in *. simpl.
  rewrite list_lookup_alter. case_decide; [|done]. subst.
  rewrite Ht2 in Hst. simpl in Hst. congruence.
Qed.

Lemma concurency_step (s : Adapter) (ev : Event) :
  concurency (queue (step s ev)) = concurency (queue s).
Proof.
  assert (Hload : ∀ cands s', concurency (queue (__loadTiles cands s'))
                              = concurency (queue s')).
  { intros cands s'. unfold __loadTiles.
    destruct (Queue_start_frame (foldl loadTile (Queue_setAllPriorities 0 s') cands))
      as (_ & -> & _).
    assert (Hs : concurency (queue (Queue_setAllPriorities 0 s')) = concurency (queue s')).
    { by apply (Queue_setAllPriorities_ind
                  (λ s2, concurency (queue s2) = concurency (queue s'))). }
    rewrite <- Hs. generalize (Queue_setAllPriorities 0 s'). clear.
    induction cands as [|c cands IH]; intros s; simpl; [done|].
    rewrite IH. by apply (loadTile_ind (λ s2, concurency (queue s2) = concurency (queue s))). }
  destruct ev as [arg|view|cands|r ok]; simpl.
  - unfold loadTexture. destruct (checkPanorama arg); [done|]. simpl.
    by rewrite Queue_clear_queue.
  - unfold __refresh. by destruct (config_panorama s).
  - done.
  - destruct (loading s !! r) as [job|] eqn:Hj; [|by rewrite settle_idle by auto].
    destruct (heap s !! r) as [t|] eqn:Ht; [|by rewrite settle_idle by auto].
    destruct (settle_eq r ok s job t Hj Ht) as (st & cs & ts & n & -> & _).
    by destruct (Queue_start_frame (settled r t st cs ts n s)) as (_ & -> & _).
Qed.

Lemma concurency_run (evs : list Event) (s : Adapter) :
  concurency (queue (run evs s)) = concurency (queue s).
Proof.
  revert s. induction evs as [|ev evs IH]; intros s; simpl; [done|].
  by rewrite IH, concurency_step.
Qed.

(** ** Priorities after [__loadTiles] *)

Lemma known_priority_set (c : Candidate) (s : Adapter) :
  wf s → known_priority (tileId (tile c)) (Math_PI / 2 - angle c)%Q (loadTile s c).
Proof.
  intros Hwf. rewrite loadTile_eq. case_decide as Hin.
  - unfold Queue_setPriority.
    destruct (obj_get (tileId (tile c)) (tasks (queue s))) as [r0|] eqn:E.
    + intros r Hr. simpl in Hr. rewrite E in Hr. simplify_eq.
      apply (wf_elem s _ _ Hwf) in E.
      destruct (wf_task _ Hwf _ _ E) as (t & Ht & _).
      simpl. eexists. split; [by rewrite list_lookup_alter_eq, Ht|done].
    + intros r Hr. congruence.
  - intros r Hr. simpl in Hr. rewrite obj_get_set, decide_True in Hr by done.
    simplify_eq. simpl. eexists. split; [by rewrite list_lookup_middle | done].
Qed.

Lemma known_priority_other (i : string) (p : Q) (c : Candidate) (s : Adapter) :
  wf s → tileId (tile c) ≠ i →
  known_priority i p s → known_priority i p (loadTile s c).
Proof.
  intros Hwf Hne Hkp. rewrite loadTile_eq. case_decide as Hin.
  - unfold Queue_setPriority.
    destruct (obj_get (tileId (tile c)) (tasks (queue s))) as [r0|] eqn:E; [|done].
    intros r Hr. simpl in Hr. destruct (Hkp _ Hr) as (t & Ht & Hp).
    exists t. split; [|done]. simpl. rewrite list_lookup_alter_ne; [done|].
    intros ->. apply (wf_elem s _ _ Hwf) in E, Hr.
    destruct (wf_task _ Hwf _ _ E) as (t1 & Ht1 & Hid1).
    destruct (wf_task _ Hwf _ _ Hr) as (t2 & Ht2 & Hid2). congruence.
  - intros r Hr. simpl in Hr. rewrite obj_get_set, decide_False in Hr by done.
    destruct (Hkp _ Hr) as (t & Ht & Hp). exists t. split; [|done].
    simpl. by apply lookup_app_l_Some.
Qed.

Lemma wf_foldl_loadTile (cands : list Candidate) (s : Adapter) :
  wf s → wf (foldl loadTile s cands).
Proof.
  revert s. induction cands as [|c cands IH]; intros s Hwf; simpl; [done|].
  apply IH. apply loadTile_ind; [| |done].
  - intros; by apply wf_alter.
  - intros; by apply wf_enqueued.
Qed.

Lemma known_priority_latest (pre post : list Candidate) (c : Candidate) (s : Adapter) :
  wf s →
  (∀ c', c' ∈ post → tileId (tile c') ≠ tileId (tile c)) →
  known_priority (tileId (tile c)) (Math_PI / 2 - angle c)%Q
                 (__loadTiles (pre ++ c :: post) s).
Proof.
  intros Hwf Hpost. unfold __loadTiles. rewrite foldl_app. simpl.
  set (s1 := foldl loadTile (Queue_setAllPriorities 0 s) pre).
  assert (Hwf1 : wf s1).
  { apply wf_foldl_loadTile. apply Queue_setAllPriorities_ind; [|done].
    intros; by apply wf_alter. }
  pose proof (known_priority_set c s1 Hwf1) as Hk.
  assert (Hwf2 : wf (loadTile s1 c)).
  { apply loadTile_ind; [| |done]; intros; [by apply wf_alter | by apply wf_enqueued]. }
  revert Hk Hwf2. generalize (loadTile s1 c). clear s1 Hwf1 Hwf.
  induction post as [|c' post IH]; intros s2 Hk Hwf2; simpl.
  - intros r Hr. destruct (Queue_start_frame s2) as (Ht & _). rewrite Ht in Hr.
    destruct (Hk _ Hr) as (t & Hlook & Hp).
    destruct (Queue_start_tasks s2 _ _ Hlook) as (t' & Ht' & _ & _ & Hp' & _).
    exists t'. split; [done | congruence].
  - apply IH.
    + intros c2 Hc2. apply Hpost. by right.
    + apply known_priority_other; [done | apply Hpost; by left | done].
    + apply loadTile_ind; [| |done]; intros; [by apply wf_alter | by apply wf_enqueued].
Qed.

(** ** [Queue.clear] *)

Lemma Queue_clear_cancels (s : Adapter) (k : string) (r : nat) :
  (k, r) ∈ tasks (queue s) → is_Some (heap s !! r) →
  status_of (Queue_clear s) r = Some CANCELLED.
Proof.
  intros Hin [t Ht]. unfold Queue_clear.
  assert (Hr : r ∈ obj_values (tasks (queue s))) by (apply elem_of_obj_values; eauto).
  revert Hr. generalize (obj_values (tasks (queue s))).
  assert (Ht0 : is_Some (heap (with_queue (mkQueue (concurency (queue s)) ∅ []) s) !! r))
    by (simpl; eauto).
  revert Ht0. generalize (with_queue (mkQueue (concurency (queue s)) ∅ []) s).
  intros s0 Hs0 l. revert s0 Hs0. induction l as [|r' l IH]; intros s0 [t0 Ht0] Hr.
  - by apply not_elem_of_nil in Hr.
  - simpl. destruct (decide (r' = r)) as [->|Hne].
    + apply (foldl_alter_ind (λ s', status_of s' r = Some CANCELLED) (set_status CANCELLED)).
      * intros s' r' Hs'. unfold status_of in *. simpl.
        rewrite list_lookup_alter. case_decide; [|done]. subst.
        destruct (heap s' !! r); by simplify_eq/=.
      * unfold status_of, Task_cancel. simpl. by rewrite list_lookup_alter_eq, Ht0.
    + apply IH.
      * unfold Task_cancel. simpl. rewrite list_lookup_alter_ne by done. eauto.
      * apply elem_of_cons in Hr as [->|Hr]; done.
Qed.

Lemma Queue_clear_status (s : Adapter) (r : nat) (t' : Task) :
  heap (Queue_clear s) !! r = Some t' →
  ∃ t, heap s !! r = Some t ∧ (status t' = status t ∨ status t' = CANCELLED).
Proof.
  revert r t'.
  apply (Queue_clear_ind (λ s', ∀ r t', heap s' !! r = Some t' →
           ∃ t, heap s !! r = Some t ∧ (status t' = status t ∨ status t' = CANCELLED))).
  - intros s' r0 IH r t' Ht'. simpl in Ht'.
    apply lookup_alter_Some in Ht' as (t1 & Ht1 & ->).
    destruct (IH _ _ Ht1) as (t & Ht & Hst). exists t. split; [done|].
    case_decide; [by right | done].
  - intros r t' Ht'. exists t'. split; [done | by left].
Qed.

(** Within one panorama load every running task is known, so [Queue.clear]
    leaves no task with the status [RUNNING]. *)
Lemma Queue_clear_running_count (s : Adapter) :
  single_load s → running_count (Queue_clear s) = 0%nat.
Proof.
  intros Hsl. unfold running_count. apply length_zero_iff_nil.
  apply elem_of_nil_inv. intros t' [Hrun [r Hr]%list_elem_of_lookup]%list_elem_of_filter.
  destruct (Queue_clear_status _ _ _ Hr) as (t & Ht & [Hst|Hst]); [|congruence].
  destruct (sl_running _ Hsl r t Ht) as [Hk _]; [congruence|].
  pose proof (Queue_clear_cancels s _ r Hk (ex_intro _ t Ht)) as Hc.
  unfold status_of in Hc. rewrite Hr in Hc. simpl in Hc. congruence.
Qed.

Lemma loadTiles_nil_cleared (s : Adapter) :
  tasks (queue s) = [] → __loadTiles [] s = s.
Proof.
  intros Ht. unfold __loadTiles, Queue_setAllPriorities. rewrite Ht. simpl.
  apply Queue_start_idle. right. unfold Queue_next. by rewrite Ht.
Qed.

(** ** Grid geometry *)

Lemma wrap_col_mod (n x : Z) :
  0 < n → - n ≤ x < 2 * n →
  (if x <? 0 then x + n else if n <=? x then x - n else x) = x `mod` n.
Proof.
  intros Hn Hx.
  destruct (Z.ltb_spec x 0) as [Hneg|Hpos].
  - apply (Z.mod_unique_pos x n (-1) (x + n)); lia.
  - destruct (Z.leb_spec n x) as [Hbig|Hsmall].
    + apply (Z.mod_unique_pos x n 1 (x - n)); lia.
    + symmetry. apply Z.mod_small. lia.
Qed.

Lemma wrapTile_spec (p : Panorama) (t : Tile) :
  0 < cols p → 0 < rows p → Z.rem (cols p) 4 = 0 →
  -1 ≤ col t ≤ cols p → -1 ≤ row t ≤ rows p →
  wrapTile p t = wrap_spec (cols p) (rows p) t ∧ in_grid p (wrapTile p t).
Proof.
  intros Hc Hr H4 Hcol Hrow.
  assert (Hhalf : 2 ≤ cols p / 2 ∧ 2 * (cols p / 2) = cols p).
  { rewrite Z.rem_mod_nonneg in H4 by lia.
    apply Z.mod_divide in H4; [|lia]. destruct H4 as [k Hk].
    replace (cols p) with ((2 * k) * 2) in * by lia.
    rewrite Z.div_mul by lia. lia. }
  destruct Hhalf as [Hh2 Hh].
  unfold wrapTile, wrap_spec, in_grid. destruct t as [c r]; simpl in *.
  destruct (Z.ltb_spec r 0) as [Hr0|Hr0]; simpl.
  - rewrite <- (wrap_col_mod (cols p) (c + cols p / 2)) by lia.
    split; [repeat case_match; reflexivity|].
    repeat case_match; simpl; lia.
  - destruct (Z.leb_spec (rows p) r) as [Hr1|Hr1]; simpl.
    + rewrite <- (wrap_col_mod (cols p) (c + cols p / 2)) by lia.
      split; [repeat case_match; reflexivity|].
      repeat case_match; simpl; lia.
    + rewrite <- (wrap_col_mod (cols p) c) by lia.
      split; [repeat case_match; reflexivity|].
      repeat case_match; simpl; lia.
Qed.

(** C3.  For a checked configuration (non-zero counts, [cols] a multiple of
    4, [rows] a multiple of 2) and a sample point of the lattice,
    [__getAdjacentTiles] returns the four neighbours wrapped as the
    specification says, all of them inside the grid; the three examples for
    16 columns and 8 rows hold. *)
Theorem getAdjacentTiles_wraps (p : Panorama) (c r : Z) :
  cols p ≠ 0 → rows p ≠ 0 →
  Z.rem (cols p) 4 = 0 → Z.rem (rows p) 2 = 0 →
  0 ≤ c ≤ cols p → 0 ≤ r ≤ rows p →
  __getAdjacentTiles p c r = adjacentTiles_spec (cols p) (rows p) c r
  ∧ Forall (in_grid p) (__getAdjacentTiles p c r)
  ∧ (cols p = 16 → rows p = 8 →
     wrapTile p (mkTile 0 (-1)) = mkTile 8 0
     ∧ wrapTile p (mkTile 0 8) = mkTile 8 7
     ∧ wrapTile p (mkTile (-1) 3) = mkTile 15 3).
Proof.
  intros Hc0 Hr0 H4 H2 Hc Hr.
  assert (Hcp : 0 < cols p) by lia. assert (Hrp : 0 < rows p) by lia.
  unfold __getAdjacentTiles, adjacentTiles_spec.
  split; [|split].
  - simpl. repeat f_equal; apply wrapTile_spec; simpl; lia.
  - simpl. repeat constructor; apply wrapTile_spec; simpl; lia.
  - intros E16 E8. unfold wrapTile. simpl. rewrite E16, E8. simpl. done.
Qed.

(** The sample point on the bottom edge of the 16 x 8 grid. *)
Lemma getAdjacentTiles_wraps_witness :
  __getAdjacentTiles p16x8 0 8 = [mkTile 15 7; mkTile 0 7; mkTile 8 7; mkTile 7 7]
  ∧ Forall (in_grid p16x8) (__getAdjacentTiles p16x8 0 8).
Proof.
  destruct (getAdjacentTiles_wraps p16x8 0 8) as (H1 & H2 & _);
    simpl; try lia; try reflexivity.
  split; [reflexivity | exact H2].
Defined.

(** ** The merge loop of [__refresh] *)

Lemma same_tile_spec (t : Tile) (c : Candidate) :
  same_tile t c = true ↔ tile c = t.
Proof.
  unfold same_tile. destruct c as [[c1 r1] a], t as [c2 r2]; simpl.
  rewrite andb_true_iff, !Z.eqb_eq. split; [intros [-> ->]; done | intros [= -> ->]; done].
Qed.

Lemma Math_min_cases (a b : Q) :
  (Math_min a b = a ∨ Math_min a b = b)
  ∧ (Math_min a b <= a)%Q ∧ (Math_min a b <= b)%Q.
Proof.
  unfold Math_min. destruct (Qlt_le_dec b a) as [H|H].
  - split; [by right|]. split; [by apply Qlt_le_weak | apply Qle_refl].
  - split; [by left|]. split; [apply Qle_refl | done].
Qed.

Lemma mergeTile_tiles (a : Q) (acc : list Candidate) (t : Tile) :
  tile <$> mergeTile a acc t
  = if decide (t ∈ tile <$> acc) then tile <$> acc else (tile <$> acc) ++ [t].
Proof.
  induction acc as [|c acc IH]; cbn [mergeTile].
  - case_decide; [set_solver | done].
  - destruct (same_tile t c) eqn:E.
    + apply same_tile_spec in E. cbn [fmap list_fmap tile].
      rewrite decide_True; [done | set_solver].
    + assert (tile c ≠ t) by (intros ?; apply same_tile_spec in H; congruence).
      cbn [fmap list_fmap]. change (list_fmap _ _ tile) with (fmap (M:=list) tile).
      rewrite IH. destruct (decide (t ∈ tile <$> acc)).
      * rewrite decide_True; [done | set_solver].
      * rewrite decide_False; [done | set_solver].
Qed.

Lemma mergeTile_angle_of (a : Q) (acc : list Candidate) (t t' : Tile) :
  angle_of t' (mergeTile a acc t) = min_step t' (angle_of t' acc) (t, a).
Proof.
  unfold min_step; simpl.
  induction acc as [|c acc IH]; simpl.
  - destruct (decide (t = t')); done.
  - destruct (same_tile t c) eqn:E.
    + apply same_tile_spec in E. simpl. subst t.
      destruct (decide (tile c = t')); done.
    + assert (tile c ≠ t) by (intros ?; apply same_tile_spec in H; congruence).
      simpl. destruct (decide (tile c = t')).
      * rewrite decide_False; [done | congruence].
      * apply IH.
Qed.

Lemma merge_fold_tiles (cs : list (Tile * Q)) (acc : list Candidate) :
  NoDup (tile <$> acc) →
  NoDup (tile <$> foldl merge1 acc cs)
  ∧ ∀ t, t ∈ tile <$> foldl merge1 acc cs ↔ t ∈ tile <$> acc ∨ t ∈ cs.*1.
Proof.
  revert acc. induction cs as [|[t a] cs IH]; intros acc Hnd; simpl.
  - split; [done | set_solver].
  - assert (Hnd' : NoDup (tile <$> merge1 acc (t, a))).
    { unfold merge1; simpl. rewrite mergeTile_tiles. case_decide; [done|].
      apply NoDup_app. split; [done|]. split; [set_solver | apply NoDup_singleton]. }
    destruct (IH _ Hnd') as [H1 H2]. split; [done|].
    intros t'. rewrite H2. unfold merge1; simpl. rewrite mergeTile_tiles.
    case_decide; set_solver.
Qed.

Lemma merge_fold_angle_of (cs : list (Tile * Q)) (acc : list Candidate) (t : Tile) :
  angle_of t (foldl merge1 acc cs) = foldl (min_step t) (angle_of t acc) cs.
Proof.
  revert acc. induction cs as [|[t' a] cs IH]; intros acc; simpl; [done|].
  rewrite IH. unfold merge1; simpl. by rewrite mergeTile_angle_of.
Qed.

Lemma min_fold_spec (t : Tile) (cs : list (Tile * Q)) (o : option Q) (m : Q) :
  foldl (min_step t) o cs = Some m →
  (o = Some m ∨ (t, m) ∈ cs)
  ∧ (∀ b, o = Some b → (m <= b)%Q)
  ∧ (∀ a, (t, a) ∈ cs → (m <= a)%Q).
Proof.
  revert o. induction cs as [|[t' a] cs IH]; intros o Hm; simpl in *.
  - subst o. split; [by left|]. split; [|set_solver].
    intros b [= ->]. apply Qle_refl.
  - apply IH in Hm as (Hin & Hle & Hall). unfold min_step in *; simpl in *.
    destruct (decide (t' = t)) as [->|Hne].
    + destruct o as [b|].
      * destruct (Math_min_cases b a) as (Hc & Hb & Ha).
        specialize (Hle _ eq_refl).
        split; [|split].
        -- destruct Hin as [[= Hin]|Hin]; [|set_solver].
           destruct Hc as [Hc|Hc]; rewrite Hc in Hin; subst; [by left | right; set_solver].
        -- intros b' [= <-]. by eapply Qle_trans.
        -- intros a' [[= <-]|Ha']%elem_of_cons; [by eapply Qle_trans | by apply Hall].
      * specialize (Hle _ eq_refl). split; [|split].
        -- destruct Hin as [[= ->]|Hin]; right; set_solver.
        -- done.
        -- intros a' [[= <-]|Ha']%elem_of_cons; [done | by apply Hall].
    + split; [|split].
      * destruct Hin; [by left | right; set_solver].
      * done.
      * intros a' [[= ? ?]|Ha']%elem_of_cons; [congruence | by apply Hall].
Qed.

Lemma angle_of_NoDup (l : list Candidate) (c : Candidate) :
  NoDup (tile <$> l) → c ∈ l → angle_of (tile c) l = Some (angle c).
Proof.
  induction l as [|c' l IH]; simpl; intros Hnd Hin; [set_solver|].
  apply NoDup_cons in Hnd as [Hnot Hnd].
  apply elem_of_cons in Hin as [->|Hin].
  - by rewrite decide_True.
  - rewrite decide_False; [by apply IH|].
    intros E. apply Hnot. rewrite E. by apply list_elem_of_fmap_2.
Qed.

Lemma foldl_bind {A B C} (g : C → B → C) (f : A → list B) (l : list A) (acc : C) :
  foldl (λ acc x, foldl g acc (f x)) acc l = foldl g acc (l ≫= f).
Proof.
  revert acc. induction l as [|x l IH]; intros acc; simpl; [done|].
  by rewrite foldl_app, IH.
Qed.

Lemma tilesToLoad_flat (p : Panorama) (view : View) :
  tilesToLoad p view = foldl merge1 [] (all_cands p view).
Proof.
  unfold tilesToLoad, all_cands, samples.
  rewrite <- foldl_bind.
  generalize (@nil Candidate) as acc. generalize (seqZ 0 (cols p + 1)) as cl.
  induction cl as [|c cl IH]; intros acc; simpl; [done|].
  rewrite foldl_app, <- IH. f_equal.
  generalize acc. generalize (seqZ 0 (rows p + 1)) as rl.
  induction rl as [|r rl IHr]; intros acc'; simpl; [done|].
  rewrite <- IHr. f_equal.
  unfold visitSample, sample_cands; simpl. destruct (view c r); simpl; [|done].
  generalize (__getAdjacentTiles p c r) as ts. intros ts. revert acc'.
  induction ts as [|t ts IHt]; intros acc'; simpl; [done|]. by rewrite IHt.
Qed.

Lemma all_cands_produces (p : Panorama) (view : View) (t : Tile) (a : Q) :
  (t, a) ∈ all_cands p view ↔ produces p view t a.
Proof.
  unfold all_cands, produces. rewrite list_elem_of_bind. split.
  - intros ([c r] & Hin & Hs). unfold sample_cands in Hin; cbn [fst snd] in Hin.
    destruct (view c r) as [a'|] eqn:E; [|set_solver].
    apply list_elem_of_fmap in Hin as (t' & [= -> ->] & Hin). eauto.
  - intros (c & r & Hs & Hv & Hin). exists (c, r). split; [|done].
    unfold sample_cands; cbn [fst snd]. rewrite Hv. apply list_elem_of_fmap. eauto.
Qed.

(** C7.  The list built by [__refresh] holds each tile position once; the
    angle kept for a tile is the angle of a visible sample that produced it
    and is not greater than the angle of any visible sample that produced
    it; every tile produced by a visible sample is in the list. *)
Theorem refresh_merges_min_angle (p : Panorama) (view : View) :
  NoDup (tile <$> tilesToLoad p view)
  ∧ (∀ c, c ∈ tilesToLoad p view →
       produces p view (tile c) (angle c)
       ∧ ∀ a, produces p view (tile c) a → (angle c <= a)%Q)
  ∧ (∀ t a, produces p view t a → t ∈ tile <$> tilesToLoad p view).
Proof.
  rewrite tilesToLoad_flat.
  destruct (merge_fold_tiles (all_cands p view) []) as [Hnd Hmem]; [constructor|].
  split; [done|]. split.
  - intros c Hc.
    pose proof (angle_of_NoDup _ _ Hnd Hc) as Ha.
    rewrite merge_fold_angle_of in Ha. simpl in Ha.
    apply min_fold_spec in Ha as (Hin & _ & Hall).
    destruct Hin as [?|Hin]; [done|].
    split; [by apply all_cands_produces|].
    intros a Hp. apply Hall. by apply all_cands_produces.
  - intros t a Hp. apply Hmem. right.
    apply all_cands_produces in Hp. apply list_elem_of_fmap. by exists (t, a).
Qed.

(** ** The configuration check *)

Lemma checkPanorama_rejected (arg : PanoramaArg) :
  arg ≠ ArgNull →
  (∃ message, checkPanorama arg = inl (Rejected message)) ↔ invalid_config arg.
Proof.
  intros Hnull. destruct arg as [| |[w c r u b]]; simpl; [naive_solver | done |].
  destruct (falsy w) eqn:Ew; simpl; [naive_solver|].
  destruct (falsy c) eqn:Ec; simpl; [naive_solver|].
  destruct (falsy r) eqn:Er; simpl; [naive_solver|].
  destruct u as [u|]; simpl; [|naive_solver].
  destruct c as [c|]; [|done]. destruct r as [r|]; [|done]. simpl.
  destruct (Z.eqb_spec (Z.rem c 4) 0) as [E4|E4]; simpl; [|naive_solver].
  destruct (Z.eqb_spec (Z.rem r 2) 0) as [E2|E2]; simpl; [|naive_solver].
  split; [intros [m [=]] | naive_solver].
Qed.

Lemma checkPanorama_outcome (arg : PanoramaArg) (o : LoadOutcome) :
  checkPanorama arg = inl o →
  o ≠ Accepted
  ∧ ∀ message, o = Rejected message →
      message = invalid_message ∨ message = multiple_message.
Proof.
  destruct arg as [| |f]; simpl.
  - intros [= <-]. split; [done|]. intros m [= <-]. by left.
  - intros [= <-]. split; done.
  - repeat case_match; intros [= <-]; (split; [done|]); intros m [= <-]; eauto.
Qed.

(** A configuration that passes the check has non-zero sizes, a number of
    columns that is a multiple of 4 and a number of rows that is a multiple
    of 2. *)
Lemma checkPanorama_accepts (arg : PanoramaArg) (p : Panorama) :
  checkPanorama arg = inr p →
  width p ≠ 0 ∧ cols p ≠ 0 ∧ rows p ≠ 0
  ∧ Z.rem (cols p) 4 = 0 ∧ Z.rem (rows p) 2 = 0.
Proof.
  destruct arg as [| |[w c r u b]]; simpl; [done | done |].
  destruct w as [w|], c as [c|], r as [r|], u as [u|]; simpl;
    rewrite ?orb_true_r; try done.
  destruct (Z.eqb_spec w 0), (Z.eqb_spec c 0), (Z.eqb_spec r 0); simpl; try done.
  destruct (Z.eqb_spec (Z.rem c 4) 0), (Z.eqb_spec (Z.rem r 2) 0); simpl; try done.
  by intros [= <-].
Qed.

(** C9 (amended).  For an argument other than [null], [loadTexture] returns
    a rejected promise exactly when the argument is not an object, or
    [width], [cols] or [rows] is absent or zero, or [tileUrl] is absent, or
    [cols] is not a multiple of 4, or [rows] is not a multiple of 2; the
    message is one of the two validation messages and the adapter is left
    as it was. *)
Theorem loadTexture_rejects_invalid (arg : PanoramaArg) (s : Adapter) :
  arg ≠ ArgNull →
  (rejects arg s ↔ invalid_config arg)
  ∧ (∀ message, (loadTexture arg s).1 = Rejected message →
       (message = invalid_message ∨ message = multiple_message)
       ∧ (loadTexture arg s).2 = s).
Proof.
  intros Hnull. pose proof (checkPanorama_rejected arg Hnull) as Hiff.
  unfold rejects, loadTexture.
  destruct (checkPanorama arg) as [o|p] eqn:E; simpl.
  - apply checkPanorama_outcome in E as [_ Hmsg]. split.
    + rewrite <- Hiff. split.
      * intros [m ->]. by exists m.
      * intros (m & [= ->]). by exists m.
    + intros m ->. split; [by apply Hmsg | done].
  - split; [|done]. rewrite <- Hiff. split; [intros [m [=]] | intros (m & [=])].
Qed.

Lemma loadTexture_rejects_invalid_witness :
  rejects odd_rows init ∧ (loadTexture odd_rows init).2 = init.
Proof.
  assert (Hn : odd_rows ≠ ArgNull) by discriminate.
  destruct (loadTexture_rejects_invalid odd_rows init Hn) as [Hiff Hst].
  assert (Hr : rejects odd_rows init).
  { apply Hiff. simpl. do 5 right. exists 7. split; [reflexivity | discriminate]. }
  split; [exact Hr|]. destruct Hr as [m Hm]. exact (proj2 (Hst m Hm)).
Defined.

(** C9 (counterexample to the claim as worded).  A configuration that has
    every required property and counts that are multiples of 4 and 2, but a
    width of zero, is rejected. *)
Lemma loadTexture_rejects_zero_width :
  (loadTexture zero_width init).1 = Rejected invalid_message
  ∧ ¬ lacks_config zero_width.
Proof.
  split; [reflexivity|].
  simpl. intros [H|[H|[H|[H|[(c & [= <-] & H)|(r & [= <-] & H)]]]]]; try discriminate;
    by apply H.
Qed.

(** ** The scheduler *)

(** C1 (counterexample to the claim as worded).  The load of tile 0x1 fails:
    its task ends with status [DONE], not [ERROR]; its id stays in
    [props.tiles]; the next refresh, which lists the tile again, allocates
    no task for it and hands nothing to the loader. *)
Lemma failed_tile_is_done_and_stays_recorded :
  let s := settle 3 false corner_loading in
  let s' := __refresh corner_view s in
  (id <$> heap s) !! 3%nat = Some "0x1"%string
  ∧ status_of s 3 = Some DONE
  ∧ bool_decide ("0x1"%string ∈ tiles (props s)) = true
  ∧ status <$> heap s' = [PENDING; RUNNING; RUNNING; DONE]
  ∧ loading s' !! 3%nat = None.
Proof. vm_compute. repeat split; reflexivity. Qed.

(** C1 (amended).  In every reachable state, when the load of a task fails,
    the task gets the final status [DONE], its id is deleted from the
    queue's [tasks] and [runningTasks], and [props.tiles] is unchanged; so
    if the tile is recorded there, no refresh allocates a task for it as
    long as no panorama is loaded. *)
Theorem failed_tile_not_retried (evs : list Event) (r : nat) (job : DrawJob) :
  loading (run evs init) !! r = Some job →
  ∃ t, heap (run evs init) !! r = Some t
    ∧ status_of (settle r false (run evs init)) r = Some DONE
    ∧ obj_get (id t) (tasks (queue (settle r false (run evs init)))) = None
    ∧ (id t ∉ runningTasks (queue (settle r false (run evs init))))
    ∧ tiles (props (settle r false (run evs init))) = tiles (props (run evs init))
    ∧ (id t ∈ tiles (props (run evs init)) →
       ∀ later t',
         forallb is_sched later = true →
         t' ∈ created_since (length (heap (settle r false (run evs init))))
                            (run later (settle r false (run evs init))) →
         id t' ≠ id t).
Proof.
  set (s := run evs init). intros Hj.
  assert (Hwf : wf s) by apply wf_run, wf_init.
  destruct (wf_loading _ Hwf _ _ Hj) as [[t Ht] Hidx].
  exists t. split; [done|].
  destruct (settle_eq r false s job t Hj Ht) as (st & cs & ts & n & Heq & Hlen & _ & Hdone).
  specialize (Hdone Hidx). subst st. rewrite Heq.
  set (s1 := settled r t DONE cs ts n s).
  assert (Hwf1 : wf s1) by by apply wf_settled.
  assert (Hst : status_of (Queue_start s1) r = Some DONE).
  { apply (Queue_start_ind (λ s', status_of s' r = Some DONE)).
    - intros s' r' k' t' l Hs' _ _ _ Ht' Hp' _ _. unfold status_of in *. simpl.
      rewrite list_lookup_alter. case_decide; [|done]. subst.
      rewrite Ht' in Hs'. simpl in Hs'. congruence.
    - unfold status_of, s1. simpl. by rewrite list_lookup_alter_eq, Ht. }
  assert (Hgone : obj_get (id t) (tasks (queue (Queue_start s1))) = None
                  ∧ id t ∉ runningTasks (queue (Queue_start s1))).
  { assert (H0 : wf s1 ∧ obj_get (id t) (tasks (queue s1)) = None
                 ∧ id t ∉ runningTasks (queue s1)).
    { split; [done|]. unfold s1; simpl. rewrite obj_get_delete, decide_True by done.
      split; [done | set_solver]. }
    revert H0.
    apply (Queue_start_ind (λ s', wf s' ∧ obj_get (id t) (tasks (queue s')) = None
                                  ∧ id t ∉ runningTasks (queue s'))).
    intros s' r' k' t' l (Hwf' & Hnone & Hnot) _ _ Hk' Ht' _ _ Hl.
    split; [by apply wf_launched|]. simpl. split; [done|].
    destruct (wf_task _ Hwf' _ _ Hk') as (t2 & Ht2 & Hid). simplify_eq.
    apply (wf_elem s' _ _ Hwf') in Hk'.
    assert (id t' ≠ id t) by congruence. set_solver. }
  destruct Hgone as [Hnone Hnot].
  destruct (Queue_start_frame s1) as (_ & _ & Hprops & _).
  split; [done|]. split; [done|]. split; [done|].
  split; [by rewrite Hprops|].
  intros Hin later t' Hlater Ht'.
  pose proof (grows_created _ _ (grows_run later (Queue_start s1) Hlater)) as (_ & Hnew & _).
  destruct (Hnew _ Ht') as [Hfresh _]. rewrite Hprops in Hfresh.
  intros E. apply Hfresh. by rewrite E.
Qed.

Lemma failed_tile_not_retried_witness :
  ∃ t, heap corner_loading !! 3%nat = Some t
    ∧ status_of (settle 3 false corner_loading) 3 = Some DONE.
Proof.
  destruct (failed_tile_not_retried
              [EvLoadTexture panorama16x8; EvRefresh corner_view]
              3 (mkJob "0x1" 6 6 0 1)) as (t & Ht & Hst & _).
  - vm_compute. reflexivity.
  - exists t. split; [exact Ht | exact Hst].
Defined.

(** C2 (the code at the failing input).  Task 3 is cancelled by
    [Queue.clear] while its load is in flight; when the load settles, its
    status is overwritten with [DONE] and a texture of the newly loaded
    panorama has its [needsUpdate] set. *)
Lemma cancelled_task_settles_as_done :
  status_of reloaded_in_flight 3 = Some CANCELLED
  ∧ tex_updates <$> textures reloaded_in_flight = [0; 0; 0; 0; 0; 0; 0; 0]%nat
  ∧ status_of (settle 3 true reloaded_in_flight) 3 = Some DONE
  ∧ tex_updates <$> textures (settle 3 true reloaded_in_flight)
    = [0; 0; 0; 0; 0; 0; 1; 0]%nat.
Proof. vm_compute. repeat split; reflexivity. Qed.

(** C4.  After the adapter is created and a panorama is loaded (or
    refused), whatever tiles are submitted and whichever loads settle, at
    most [QUEUE_CONCURENCY] tasks have the status [RUNNING]. *)
Theorem running_never_exceeds_concurrency (arg : PanoramaArg) (evs : list Event) :
  forallb is_sched evs = true →
  (running_count (run evs (loadTexture arg init).2) ≤ QUEUE_CONCURENCY)%nat.
Proof.
  intros Hevs. set (s0 := (loadTexture arg init).2).
  assert (Hwf : wf s0) by apply wf_loadTexture, wf_init.
  assert (Hc : concurency (queue s0) = QUEUE_CONCURENCY)
    by apply (concurency_step init (EvLoadTexture arg)).
  assert (Hsl : single_load s0).
  { apply single_load_fresh.
    - unfold s0, loadTexture. by destruct (checkPanorama arg).
    - assert (Hr : runningTasks (queue s0) = ∅)
        by (unfold s0, loadTexture; by destruct (checkPanorama arg)).
      rewrite Hr, size_empty. lia. }
  rewrite <- Hc, <- (concurency_run evs s0).
  apply running_count_bound. by apply single_load_run.
Qed.

Lemma running_never_exceeds_concurrency_witness :
  (running_count (run five_tiles (loadTexture panorama16x8 init).2)
   ≤ QUEUE_CONCURENCY)%nat.
Proof. apply (running_never_exceeds_concurrency panorama16x8 five_tiles). reflexivity. Defined.

(** C5.  The task chosen by [Queue.start] is known, pending, of positive
    priority and of greatest priority among such tasks, and it is started
    when a slot is free; every task that [start] takes from pending to
    running has at least the priority of each known task of positive
    priority left pending; a pending task whose priority is not positive
    stays pending; with no pending task of positive priority, or with no
    free slot, [start] changes nothing; and when a slot is free and some
    known task is pending with a positive priority, [start] does choose a
    task and starts it. *)
Theorem start_selects_highest_positive (s : Adapter) :
  (∀ r, Queue_next s = Some r →
     ∃ k t, (k, r) ∈ tasks (queue s) ∧ heap s !! r = Some t
       ∧ status t = PENDING ∧ (0 < priority t)%Q
       ∧ (∀ k' r' t', (k', r') ∈ tasks (queue s) → heap s !! r' = Some t' →
            status t' = PENDING → (0 < priority t')%Q →
            (priority t' <= priority t)%Q)
       ∧ ((size (runningTasks (queue s)) < concurency (queue s))%nat →
          status_of (Queue_start s) r = Some RUNNING))
  ∧ (∀ r t k' r' t',
       heap s !! r = Some t → status t = PENDING →
       status_of (Queue_start s) r = Some RUNNING →
       (k', r') ∈ tasks (queue s) → heap (Queue_start s) !! r' = Some t' →
       status t' = PENDING → (0 < priority t')%Q →
       (priority t' <= priority t)%Q)
  ∧ (∀ r t, heap s !! r = Some t → status t = PENDING → (priority t <= 0)%Q →
       status_of (Queue_start s) r = Some PENDING)
  ∧ ((∀ k r t, (k, r) ∈ tasks (queue s) → heap s !! r = Some t →
        status t = PENDING → (priority t <= 0)%Q) →
     Queue_start s = s)
  ∧ ((concurency (queue s) ≤ size (runningTasks (queue s)))%nat → Queue_start s = s)
  ∧ ((size (runningTasks (queue s)) < concurency (queue s))%nat →
     ∀ k r t, (k, r) ∈ tasks (queue s) → heap s !! r = Some t →
       status t = PENDING → (0 < priority t)%Q →
       ∃ r' t', Queue_next s = Some r' ∧ heap s !! r' = Some t'
         ∧ status t' = PENDING ∧ (priority t <= priority t')%Q
         ∧ status_of (Queue_start s) r' = Some RUNNING).
Proof.
  split; [|split; [|split; [|split; [|split]]]].
  - intros r Hnext.
    destruct (Queue_next_Some _ _ Hnext) as (k & t & Hk & Ht & Hp & Hpos & Hmax).
    exists k, t. repeat split; try done. intros Hfree. by apply Queue_start_launches.
  - apply Queue_start_order.
  - intros r t Ht Hp Hle.
    destruct (Queue_start_tasks s _ _ Ht) as (t' & Ht' & _ & _ & _ & Hst).
    unfold status_of. rewrite Ht'. simpl.
    destruct Hst as [-> | (_ & _ & Hpos)]; [by rewrite Hp | lra].
  - intros Hall. apply Queue_start_idle. right.
    destruct (Queue_next s) as [r|] eqn:Hnext; [|done].
    destruct (Queue_next_Some _ _ Hnext) as (k & t & Hk & Ht & Hp & Hpos & _).
    specialize (Hall _ _ _ Hk Ht Hp). lra.
  - intros Hfull. apply Queue_start_idle. by left.
  - intros Hfree k r t Hk Ht Hp Hpos.
    destruct (Queue_next s) as [r'|] eqn:Hnext.
    + destruct (Queue_next_Some _ _ Hnext) as (k' & t' & Hk' & Ht' & Hp' & Hpos' & Hmax).
      exists r', t'. split; [done|]. split; [done|]. split; [done|].
      split; [exact (Hmax _ _ _ Hk Ht Hp Hpos) | by apply Queue_start_launches].
    + by destruct (Queue_next_None _ Hnext _ _ _ Hk Ht).
Qed.

Lemma start_selects_highest_positive_witness :
  ∃ r' t',
    Queue_next (loadTile (loadTexture panorama16x8 init).2 (cand 0 0 (1 # 10))) = Some r'
    ∧ heap (loadTile (loadTexture panorama16x8 init).2 (cand 0 0 (1 # 10))) !! r' = Some t'
    ∧ status t' = PENDING
    ∧ (priority (mkTask "0x0" (Math_PI / 2 - (1 # 10)) (mkTile 0 0) PENDING)
       <= priority t')%Q
    ∧ status_of (Queue_start (loadTile (loadTexture panorama16x8 init).2
                                       (cand 0 0 (1 # 10)))) r'
      = Some RUNNING.
Proof.
  destruct (start_selects_highest_positive
              (loadTile (loadTexture panorama16x8 init).2 (cand 0 0 (1 # 10))))
    as (_ & _ & _ & _ & _ & H).
  apply (H ltac:(vm_compute; lia) "0x0"%string 0%nat
           (mkTask "0x0" (Math_PI / 2 - (1 # 10)) (mkTile 0 0) PENDING)).
  - vm_compute. left.
  - vm_compute. reflexivity.
  - reflexivity.
  - vm_compute. reflexivity.
Defined.

(** C6.  In every reachable state the known set has one entry per id and the
    entry names a task of that id.  A [__loadTiles] call allocates tasks of
    pairwise distinct ids, none of which is already known; and the task
    known under a tile's id afterwards has the priority given by the last
    candidate of the list for that tile. *)
Theorem one_task_per_tile (evs : list Event) (cands : list Candidate) :
  (NoDup (obj_keys (tasks (queue (run evs init))))
   ∧ ∀ k r, (k, r) ∈ tasks (queue (run evs init)) →
       ∃ t, heap (run evs init) !! r = Some t ∧ id t = k)
  ∧ (NoDup (id <$> created_since (length (heap (run evs init)))
                                 (__loadTiles cands (run evs init)))
     ∧ ∀ t, t ∈ created_since (length (heap (run evs init)))
                              (__loadTiles cands (run evs init)) →
         obj_get (id t) (tasks (queue (run evs init))) = None)
  ∧ (∀ pre c post r,
       cands = pre ++ c :: post →
       (∀ c', c' ∈ post → tileId (tile c') ≠ tileId (tile c)) →
       obj_get (tileId (tile c)) (tasks (queue (__loadTiles cands (run evs init))))
       = Some r →
       ∃ t, heap (__loadTiles cands (run evs init)) !! r = Some t
            ∧ priority t = (Math_PI / 2 - angle c)%Q).
Proof.
  set (s := run evs init).
  assert (Hwf : wf s) by apply wf_run, wf_init.
  split; [|split].
  - split; [apply Hwf | apply Hwf].
  - destruct (grows_created _ _ (grows_loadTiles cands s)) as (Hnd & Hnew & _).
    split; [done|]. intros t Ht. destruct (Hnew _ Ht) as [Hfresh _].
    destruct (obj_get (id t) (tasks (queue s))) as [r|] eqn:E; [|done].
    exfalso. apply Hfresh. eapply wf_tiles; [done|]. by apply obj_get_Some_elem.
  - intros pre c post r -> Hpost Hr.
    by apply (known_priority_latest pre post c s Hwf Hpost).
Qed.

(** The same tile listed twice in one call: one task, with the priority of
    the second entry. *)
Example repeated_tile_one_task :
  (λ t, (id t, Qeq_bool (priority t) (Math_PI / 2 - (2 # 10))))
    <$> heap (__loadTiles [cand 0 0 (1 # 10); cand 0 0 (2 # 10)]
                          (loadTexture panorama16x8 init).2)
  = [("0x0"%string, true)].
Proof. vm_compute. reflexivity. Qed.

(** C8.  [Queue.clear] is the cancellation of the snapshot run on the state
    whose dictionaries are already empty; afterwards both dictionaries are
    empty, every task that was known is [CANCELLED], and whatever happens
    next such a task is never pending or running again; [__loadTiles] on an
    empty list right after leaves both dictionaries empty, and within the
    first panorama load no task is left with the status [RUNNING]. *)
Theorem clear_empties_then_cancels (s : Adapter) :
  Queue_clear s
  = foldl (λ s' r, Task_cancel r s')
          (with_queue (mkQueue (concurency (queue s)) ∅ []) s)
          (obj_values (tasks (queue s)))
  ∧ tasks (queue (Queue_clear s)) = []
  ∧ runningTasks (queue (Queue_clear s)) = ∅
  ∧ (∀ k r, (k, r) ∈ tasks (queue s) → is_Some (heap s !! r) →
       status_of (Queue_clear s) r = Some CANCELLED
       ∧ ∀ evs, inactive (run evs (Queue_clear s)) r)
  ∧ tasks (queue (__loadTiles [] (Queue_clear s))) = []
  ∧ size (runningTasks (queue (__loadTiles [] (Queue_clear s)))) = 0%nat
  ∧ (∀ arg evs, forallb is_sched evs = true →
       s = run evs (loadTexture arg init).2 →
       running_count (__loadTiles [] (Queue_clear s)) = 0%nat).
Proof.
  pose proof (Queue_clear_queue s) as Hq.
  split; [reflexivity|]. rewrite loadTiles_nil_cleared by by rewrite Hq.
  rewrite Hq. cbn [tasks runningTasks].
  split; [done|]. split; [done|].
  split; [|split; [done|split; [by rewrite size_empty|]]].
  2:{ intros arg evs Hevs ->. apply Queue_clear_running_count.
      apply single_load_run; [done | apply wf_loadTexture, wf_init |].
      apply single_load_fresh.
      - unfold loadTexture. by destruct (checkPanorama arg).
      - assert (Hr : runningTasks (queue (loadTexture arg init).2) = ∅)
          by (unfold loadTexture; by destruct (checkPanorama arg)).
        rewrite Hr, size_empty. lia. }
  intros k r Hk Hr. pose proof (Queue_clear_cancels s k r Hk Hr) as Hc.
  split; [done|]. intros evs. apply inactive_run.
  unfold status_of in Hc.
  destruct (heap (Queue_clear s) !! r) as [t|] eqn:Ht; [|done].
  exists t. split; [done|]. simpl in Hc. simplify_eq. by rewrite Hc.
Qed.

(** Loading a panorama while loads are in flight is outside the bound on
    running tasks: the reaction of a cancelled task
    deletes the entries of the new task of the same id, a slot looks free
    and a third task is started. *)
Lemma stale_settle_frees_a_slot :
  running_count
    (run [EvLoadTexture panorama16x8; EvRefresh corner_view;
          EvLoadTexture panorama16x8; EvRefresh corner_view;
          EvSettle 3 true] init)
  = 3%nat.
Proof. vm_compute. reflexivity. Qed.

(** With two slots, five tiles of distinct priorities (one of them not
    positive): the two best start at once; when one load settles, the best
    of the remaining positive ones starts. *)
Example five_tiles_two_slots :
  status <$> heap (run (take 1 five_tiles) (loadTexture panorama16x8 init).2)
  = [RUNNING; PENDING; RUNNING; PENDING; PENDING]
  ∧ status <$> heap (run five_tiles (loadTexture panorama16x8 init).2)
    = [RUNNING; RUNNING; DONE; PENDING; PENDING].
Proof. vm_compute. split; reflexivity. Qed.

(** C10.  From any state, as long as no panorama is loaded, the tasks
    allocated have pairwise distinct ids, none of them recorded in
    [props.tiles] at the start and all of them recorded at the end;
    [props.tiles] only grows; a successful [loadTexture] empties it. *)
Theorem tile_enqueued_once_per_load (s : Adapter) (evs : list Event) :
  forallb is_sched evs = true →
  NoDup (id <$> created_since (length (heap s)) (run evs s))
  ∧ (∀ t, t ∈ created_since (length (heap s)) (run evs s) →
       (id t ∉ tiles (props s)) ∧ id t ∈ tiles (props (run evs s)))
  ∧ tiles (props s) ⊆ tiles (props (run evs s))
  ∧ (∀ arg, (loadTexture arg s).1 = Accepted →
       tiles (props (loadTexture arg s).2) = ∅).
Proof.
  intros Hevs. destruct (grows_created _ _ (grows_run evs s Hevs)) as (H1 & H2 & H3).
  split; [done|]. split; [done|]. split; [done|].
  intros arg. unfold loadTexture.
  destruct (checkPanorama arg) as [o|p] eqn:E; [|done].
  apply checkPanorama_outcome in E as [Hne _]. simpl. intros ->. done.
Qed.

Lemma tile_enqueued_once_per_load_witness :
  NoDup (id <$> created_since (length (heap corner_loading))
                              (run five_tiles corner_loading)).
Proof.
  destruct (tile_enqueued_once_per_load corner_loading five_tiles) as [H _].
  - reflexivity.
  - exact H.
Defined.

(** * Proofs: further parts *)

(** ** Where a tile is drawn *)

Lemma accepted_facts (p : Panorama) :
  accepted p →
  width p ≠ 0 ∧ cols p ≠ 0 ∧ rows p ≠ 0
  ∧ Z.rem (cols p) 4 = 0 ∧ Z.rem (rows p) 2 = 0.
Proof. intros [arg Harg]. by eapply checkPanorama_accepts. Qed.

Lemma quarter_of_cols (c : Z) :
  0 < c → Z.rem c 4 = 0 → 0 < c / 4 ∧ c = 4 * (c / 4).
Proof.
  intros Hc H4. rewrite Z.rem_mod_nonneg in H4 by lia.
  apply Z.mod_divide in H4; [|lia]. destruct H4 as [k Hk].
  subst c. rewrite Z.div_mul by lia. lia.
Qed.

Lemma half_of_rows (r : Z) :
  0 < r → Z.rem r 2 = 0 → 0 < r / 2 ∧ r = 2 * (r / 2).
Proof.
  intros Hr H2. rewrite Z.rem_mod_nonneg in H2 by lia.
  apply Z.mod_divide in H2; [|lia]. destruct H2 as [k Hk].
  subst r. rewrite Z.div_mul by lia. lia.
Qed.

(** [Math.floor((cols - 1 - col) / cols * 4)] counts the quarters from the
    right. *)
Lemma canvas_column (q c : Z) :
  0 < q → 0 ≤ c < 4 * q →
  4 * (4 * q - 1 - c) / (4 * q) = 3 - c / q.
Proof.
  intros Hq Hc. pose proof (Z.div_mod c q ltac:(lia)) as Hdm.
  pose proof (Z.mod_pos_bound c q Hq) as Hm.
  assert (0 ≤ c / q < 4) as Hd.
  { split; [apply Z.div_pos; lia | apply Z.div_lt_upper_bound; lia]. }
  symmetry. apply (Z.div_unique _ _ _ (4 * q - 4 - 4 * (c `mod` q))); [lia|].
  nia.
Qed.

Lemma drawTile_begin_decompose (s : Adapter) (p : Panorama) (t : Tile) :
  config_panorama s = Some p → accepted p → length (canvas s) = 8%nat →
  in_grid p t →
  ∃ job, drawTile_begin s t = Some job
    ∧ Z.of_nat (job_canvasIdx job)
      = 2 * (3 - col t / (cols p / 4)) + row t / (rows p / 2)
    ∧ 0 ≤ col t / (cols p / 4) < 4 ∧ 0 ≤ row t / (rows p / 2) < 2
    ∧ canvas s !! job_canvasIdx job = Some (job_ctx job)
    ∧ job_url job = tileUrl p (col t) (row t)
    ∧ job_colInCanvas job = col t `mod` (cols p / 4)
    ∧ job_rowInCanvas job = row t `mod` (rows p / 2).
Proof.
  intros Hcfg (_ & Hc0 & Hr0 & H4 & H2)%accepted_facts Hlen [Hcol Hrow].
  destruct (quarter_of_cols (cols p)) as [Hq Hcq]; [lia | done |].
  destruct (half_of_rows (rows p)) as [Hh Hrh]; [lia | done |].
  set (q := cols p / 4) in *. set (h := rows p / 2) in *.
  assert (Hd : 0 ≤ col t / q < 4).
  { split; [apply Z.div_pos; lia | apply Z.div_lt_upper_bound; lia]. }
  assert (He : 0 ≤ row t / h < 2).
  { split; [apply Z.div_pos; lia | apply Z.div_lt_upper_bound; lia]. }
  assert (Hbit : (if rows p <=? 2 * row t then 1 else 0) = row t / h).
  { destruct (Z.leb_spec (rows p) (2 * row t)).
    - assert (1 ≤ row t / h) by (apply Z.div_le_lower_bound; lia). lia.
    - assert (row t / h < 1) by (apply Z.div_lt_upper_bound; lia). lia. }
  assert (Hidx : 4 * (cols p - 1 - col t) / cols p * 2
                 + (if rows p <=? 2 * row t then 1 else 0)
                 = 2 * (3 - col t / q) + row t / h).
  { rewrite Hbit. rewrite Hcq at 1 2. rewrite canvas_column by lia. lia. }
  unfold drawTile_begin. rewrite Hcfg.
  destruct (Z.eqb_spec (cols p) 0); [done|]. rewrite Hidx.
  destruct (Z.ltb_spec (2 * (3 - col t / q) + row t / h) 0); [lia|].
  destruct (canvas s !! Z.to_nat (2 * (3 - col t / q) + row t / h)) as [ctx|] eqn:E.
  - eexists. split; [done|]. simpl.
    rewrite !Z.rem_mod_nonneg by lia. repeat split; try done; lia.
  - apply lookup_ge_None in E. lia.
Qed.

(** The tile goes to the canvas on which [__loadBase] draws the cell of the
    base image that contains the tile, at the tile's place inside that
    cell. *)
Theorem drawTile_matches_loadBase (s : Adapter) (p : Panorama) (t : Tile) (job : DrawJob) :
  config_panorama s = Some p → accepted p → length (canvas s) = 8%nat →
  in_grid p t → drawTile_begin s t = Some job →
  (job_canvasIdx job < 8)%nat
  ∧ canvas s !! job_canvasIdx job = Some (job_ctx job)
  ∧ col t = (loadBase_cell (Z.of_nat (job_canvasIdx job))).1 * (cols p / 4)
            + job_colInCanvas job
  ∧ 0 ≤ job_colInCanvas job < cols p / 4
  ∧ row t = (loadBase_cell (Z.of_nat (job_canvasIdx job))).2 * (rows p / 2)
            + job_rowInCanvas job
  ∧ 0 ≤ job_rowInCanvas job < rows p / 2.
Proof.
  intros Hcfg Hacc Hlen Hgrid Hjob.
  destruct (drawTile_begin_decompose s p t Hcfg Hacc Hlen Hgrid)
    as (job' & Hjob' & Hidx & Hd & He & Hctx & _ & Hcc & Hrc).
  rewrite Hjob in Hjob'. simplify_eq.
  apply accepted_facts in Hacc as (_ & Hc0 & Hr0 & H4 & H2).
  destruct Hgrid as [Hcol Hrow].
  destruct (quarter_of_cols (cols p)) as [Hq _]; [lia | done |].
  destruct (half_of_rows (rows p)) as [Hh _]; [lia | done |].
  pose proof (Z.div_mod (col t) (cols p / 4) ltac:(lia)) as Hdc.
  pose proof (Z.div_mod (row t) (rows p / 2) ltac:(lia)) as Hdr.
  pose proof (Z.mod_pos_bound (col t) (cols p / 4) Hq).
  pose proof (Z.mod_pos_bound (row t) (rows p / 2) Hh).
  unfold loadBase_cell. simpl. rewrite Hidx, Hcc, Hrc.
  assert (Hx : (7 - (2 * (3 - col t / (cols p / 4)) + row t / (rows p / 2))) / 2
               = col t / (cols p / 4)).
  { symmetry. apply (Z.div_unique _ _ _ (1 - row t / (rows p / 2))); lia. }
  assert (Hy : Z.rem (2 * (3 - col t / (cols p / 4)) + row t / (rows p / 2)) 2
               = row t / (rows p / 2)).
  { rewrite Z.rem_mod_nonneg by lia. symmetry.
    apply (Z.mod_unique_pos _ _ (3 - col t / (cols p / 4))); lia. }
  rewrite Hx, Hy. repeat split; try lia. done.
Qed.

Lemma drawTile_matches_loadBase_witness :
  col (mkTile 5 6) = (loadBase_cell 5).1 * (16 / 4) + 1
  ∧ row (mkTile 5 6) = (loadBase_cell 5).2 * (8 / 2) + 2.
Proof.
  assert (Hacc : accepted checked16x8) by (exists panorama16x8; reflexivity).
  destruct (drawTile_matches_loadBase loaded16x8 checked16x8 (mkTile 5 6)
              (mkJob "5x6" 5 5 1 2))
    as (_ & _ & Hc & _ & Hr & _);
    [reflexivity | exact Hacc | reflexivity | (unfold in_grid; simpl; lia) | reflexivity |].
  split; [exact Hc | exact Hr].
Defined.

(** Two tiles of the grid never get the same place on the same canvas. *)
Theorem drawTile_regions_distinct (s : Adapter) (p : Panorama) (t1 t2 : Tile)
    (j1 j2 : DrawJob) :
  config_panorama s = Some p → accepted p → length (canvas s) = 8%nat →
  in_grid p t1 → in_grid p t2 →
  drawTile_begin s t1 = Some j1 → drawTile_begin s t2 = Some j2 →
  job_canvasIdx j1 = job_canvasIdx j2 →
  job_colInCanvas j1 = job_colInCanvas j2 →
  job_rowInCanvas j1 = job_rowInCanvas j2 →
  t1 = t2.
Proof.
  intros Hcfg Hacc Hlen Hg1 Hg2 Hj1 Hj2 Hi Hc Hr.
  destruct (drawTile_begin_decompose s p t1 Hcfg Hacc Hlen Hg1)
    as (j1' & Hj1' & Hidx1 & Hd1 & He1 & _ & _ & Hcc1 & Hrc1).
  destruct (drawTile_begin_decompose s p t2 Hcfg Hacc Hlen Hg2)
    as (j2' & Hj2' & Hidx2 & Hd2 & He2 & _ & _ & Hcc2 & Hrc2).
  rewrite Hj1 in Hj1'. rewrite Hj2 in Hj2'. simplify_eq.
  apply accepted_facts in Hacc as (_ & Hc0 & Hr0 & H4 & H2).
  destruct Hg1 as [Hcol1 Hrow1].
  destruct (quarter_of_cols (cols p)) as [Hq _]; [lia | done |].
  destruct (half_of_rows (rows p)) as [Hh _]; [lia | done |].
  pose proof (Z.div_mod (col t1) (cols p / 4) ltac:(lia)).
  pose proof (Z.div_mod (col t2) (cols p / 4) ltac:(lia)).
  pose proof (Z.div_mod (row t1) (rows p / 2) ltac:(lia)).
  pose proof (Z.div_mod (row t2) (rows p / 2) ltac:(lia)).
  rewrite Hi in Hidx1. rewrite Hc in Hcc1. rewrite Hr in Hrc1.
  assert (col t1 / (cols p / 4) = col t2 / (cols p / 4)) as Ed by lia.
  assert (row t1 / (rows p / 2) = row t2 / (rows p / 2)) as Ee by lia.
  destruct t1 as [c1 r1], t2 as [c2 r2]; simpl in *.
  f_equal; congruence.
Qed.

Lemma drawTile_regions_distinct_witness :
  mkTile 5 6 = mkTile 5 6.
Proof.
  assert (Hacc : accepted checked16x8) by (exists panorama16x8; reflexivity).
  apply (drawTile_regions_distinct loaded16x8 checked16x8 (mkTile 5 6) (mkTile 5 6)
           (mkJob "5x6" 5 5 1 2) (mkJob "5x6" 5 5 1 2));
    try reflexivity; try exact Hacc; unfold in_grid; simpl; lia.
Defined.

(** ** Tile ids *)

Lemma pretty_N_char_not_x (n : N) : pretty_N_char n ≠ "x"%char.
Proof. unfold pretty_N_char. by repeat case_match. Qed.

Lemma pretty_N_go_free (n : N) (s : string) :
  free_of "x" s → free_of "x" (pretty_N_go n s).
Proof.
  revert s. induction (N.lt_wf_0 n) as [n _ IH]; intros s Hs.
  destruct (decide (n = 0)%N) as [->|Hn]; [by rewrite pretty_N_go_0|].
  rewrite pretty_N_go_step by lia. apply IH.
  - apply N.div_lt; lia.
  - split; [apply pretty_N_char_not_x | done].
Qed.

Lemma pretty_Z_free (z : Z) : free_of "x" (pretty z).
Proof.
  unfold pretty, pretty_Z. destruct z as [|n|n]; simpl; [done| |].
  - unfold pretty, pretty_positive, pretty, pretty_N. simpl.
    by apply pretty_N_go_free.
  - split; [done|]. unfold pretty, pretty_positive, pretty, pretty_N. simpl.
    by apply pretty_N_go_free.
Qed.

Lemma append_separator_inj (a : Ascii.ascii) (s1 s2 t1 t2 : string) :
  free_of a s1 → free_of a s2 →
  s1 +:+ String a t1 = s2 +:+ String a t2 → s1 = s2 ∧ t1 = t2.
Proof.
  revert s2. induction s1 as [|b s1 IH]; intros [|c s2]; simpl.
  - intros _ _ [= ->]. done.
  - intros _ [Hc _] [= <- _]. done.
  - intros [Hb _] _ [= -> _]. done.
  - intros [_ H1] [_ H2] [= -> Hrest]. destruct (IH _ H1 H2 Hrest) as [-> ->]. done.
Qed.

(** Two tiles have the same id only if they are the same tile. *)
Theorem tileId_inj (t1 t2 : Tile) : tileId t1 = tileId t2 → t1 = t2.
Proof.
  unfold tileId. intros E.
  apply (append_separator_inj "x") in E as [Ec Er]; [| apply pretty_Z_free..].
  apply (inj pretty) in Ec, Er. destruct t1, t2; simpl in *. by subst.
Qed.

Lemma tileId_inj_witness : mkTile 1 12 = mkTile 1 12.
Proof. apply tileId_inj. reflexivity. Defined.

(** ** The tiles listed by a refresh *)

Lemma tilesToLoad_in_grid (p : Panorama) (view : View) (c : Candidate) :
  accepted p → c ∈ tilesToLoad p view → in_grid p (tile c).
Proof.
  intros (_ & Hc0 & Hr0 & H4 & H2)%accepted_facts Hc.
  rewrite tilesToLoad_flat in Hc.
  destruct (merge_fold_tiles (all_cands p view) []) as [_ Hmem]; [constructor|].
  assert (Ht : tile c ∈ tile <$> foldl merge1 [] (all_cands p view))
    by by apply list_elem_of_fmap_2.
  apply Hmem in Ht as [Ht|Ht]; [by apply not_elem_of_nil in Ht|].
  apply list_elem_of_fmap in Ht as ([t a] & -> & Hta). simpl.
  apply all_cands_produces in Hta as (sc & sr & Hs & _ & Hadj).
  unfold samples in Hs. apply list_elem_of_bind in Hs as (c' & Hs & Hc').
  apply list_elem_of_fmap in Hs as (r' & [= -> ->] & Hr').
  apply elem_of_seqZ in Hc', Hr'.
  unfold __getAdjacentTiles in Hadj.
  apply list_elem_of_fmap in Hadj as (t0 & -> & Ht0).
  apply wrapTile_spec; try lia;
    repeat (apply elem_of_cons in Ht0 as [->|Ht0]; [simpl; lia|]);
    by apply not_elem_of_nil in Ht0.
Qed.

(** Every tile that [__refresh] hands to [__loadTiles] is a tile of the
    grid. *)
Theorem refresh_lists_grid_tiles (p : Panorama) (view : View) (c : Candidate) :
  accepted p → c ∈ tilesToLoad p view → in_grid p (tile c).
Proof. apply tilesToLoad_in_grid. Qed.

Lemma refresh_lists_grid_tiles_witness :
  in_grid checked16x8 (tile (cand 0 1 (1 # 10))).
Proof.
  apply (refresh_lists_grid_tiles checked16x8 corner_view).
  - exists panorama16x8. reflexivity.
  - vm_compute. do 3 right. left.
Defined.

(** ** Frames *)

Lemma Queue_start_output (s : Adapter) :
  canvas (Queue_start s) = canvas s
  ∧ textures (Queue_start s) = textures s
  ∧ canvases (Queue_start s) = canvases s
  ∧ config_panorama (Queue_start s) = config_panorama s
  ∧ redraws (Queue_start s) = redraws s.
Proof.
  apply (Queue_start_ind (λ s',
    canvas s' = canvas s ∧ textures s' = textures s ∧ canvases s' = canvases s
    ∧ config_panorama s' = config_panorama s ∧ redraws s' = redraws s)); [|done].
  intros s' r k t l H _ _ _ _ _ _ _. exact H.
Qed.

Lemma Queue_clear_frame (s : Adapter) :
  props (Queue_clear s) = props s
  ∧ canvas (Queue_clear s) = canvas s
  ∧ textures (Queue_clear s) = textures s
  ∧ canvases (Queue_clear s) = canvases s
  ∧ loading (Queue_clear s) = loading s
  ∧ config_panorama (Queue_clear s) = config_panorama s
  ∧ redraws (Queue_clear s) = redraws s.
Proof.
  apply (Queue_clear_ind (λ s',
    props s' = props s ∧ canvas s' = canvas s ∧ textures s' = textures s
    ∧ canvases s' = canvases s ∧ loading s' = loading s
    ∧ config_panorama s' = config_panorama s ∧ redraws s' = redraws s)); [|done].
  intros s' r H. exact H.
Qed.

(** The tasks allocated before [__loadTiles] keep their status until the
    final [start]. *)
Lemma loadTiles_loop_status (cands : list Candidate) (s : Adapter) :
  ∀ r t, heap s !! r = Some t →
    ∃ t', heap (foldl loadTile (Queue_setAllPriorities 0 s) cands) !! r = Some t'
          ∧ status t' = status t ∧ id t' = id t.
Proof.
  assert (Hs : ∀ r t, heap s !! r = Some t →
            ∃ t', heap (Queue_setAllPriorities 0 s) !! r = Some t'
                  ∧ status t' = status t ∧ id t' = id t).
  { apply (Queue_setAllPriorities_ind (λ s', ∀ r t, heap s !! r = Some t →
              ∃ t', heap s' !! r = Some t' ∧ status t' = status t ∧ id t' = id t)).
    - intros s' r0 IH r t Ht. destruct (IH _ _ Ht) as (t1 & Ht1 & Hst & Hid).
      simpl. eexists. split; [by apply lookup_alter_Some_inv|].
      case_decide; simpl; done.
    - intros r t Ht. eauto. }
  revert Hs. generalize (Queue_setAllPriorities 0 s). 
  induction cands as [|c cands IH]; intros s1 Hs; simpl; [done|].
  apply IH. apply (loadTile_ind (λ s', ∀ r t, heap s !! r = Some t →
      ∃ t', heap s' !! r = Some t' ∧ status t' = status t ∧ id t' = id t)); [| |done].
  - intros s' r0 p H r t Ht. destruct (H _ _ Ht) as (t1 & Ht1 & Hst & Hid).
    simpl. eexists. split; [by apply lookup_alter_Some_inv|].
    case_decide; simpl; done.
  - intros s' i p tl H _ r t Ht. destruct (H _ _ Ht) as (t1 & Ht1 & Hst & Hid).
    exists t1. split; [|done]. simpl. by apply lookup_app_l_Some.
Qed.

Lemma loadTiles_status (cands : list Candidate) (s : Adapter) (r : nat) (t : Task) :
  heap s !! r = Some t →
  ∃ t', heap (__loadTiles cands s) !! r = Some t'
        ∧ (status t' = status t
           ∨ (status t = PENDING ∧ status t' = RUNNING ∧ (0 < priority t')%Q)).
Proof.
  intros Ht. destruct (loadTiles_loop_status cands s _ _ Ht) as (t1 & Ht1 & Hst & _).
  unfold __loadTiles.
  destruct (Queue_start_tasks _ _ _ Ht1) as (t2 & Ht2 & _ & _ & Hpr & Hst2).
  exists t2. split; [done|]. rewrite <- Hst.
  destruct Hst2 as [?|(? & ? & ?)]; [by left | right]. by rewrite Hpr.
Qed.

Lemma settle_precise (r : nat) (ok : bool) (s : Adapter) (job : DrawJob) (t : Task) :
  loading s !! r = Some job → heap s !! r = Some t →
  (job_canvasIdx job < length (textures s))%nat →
  settle r ok s
  = Queue_start
      (settled r t DONE
         (alter (λ c, c ++ [settle_op job ok s]) (job_ctx job) (canvases s))
         (alter (λ x, mkTexture (tex_canvas x) (S (tex_updates x)))
                (job_canvasIdx job) (textures s))
         (S (redraws s)) s).
Proof.
  intros Hj Ht Hidx. unfold settle. rewrite Hj, Ht. unfold drawTile_settle. simpl.
  apply lookup_lt_is_Some in Hidx as [tx Htx]. rewrite Htx. reflexivity.
Qed.

(** ** The invariant [life] *)

Lemma life_init : life init.
Proof.
  split; simpl.
  - intros k r t Hin. by apply not_elem_of_nil in Hin.
  - intros r job t Hj. by rewrite lookup_empty in Hj.
  - intros t Ht. by apply not_elem_of_nil in Ht.
Qed.

Lemma life_alter_priority (p : Q) (r : nat) (s : Adapter) :
  life s → life (with_heap (alter (set_priority p) r (heap s)) s).
Proof.
  intros [H1 H2 H3]. split; simpl.
  - intros k r' t' Hk (t & Ht & ->)%lookup_alter_Some.
    assert (status (if decide (r = r') then set_priority p t else t) = status t)
      as -> by (by case_decide). eauto.
  - intros r' job t' Hj (t & Ht & ->)%lookup_alter_Some.
    assert (status (if decide (r = r') then set_priority p t else t) = status t)
      as -> by (by case_decide). eauto.
  - intros t' (t & Ht & [->| ->])%elem_of_alter; simpl; by apply H3.
Qed.

Lemma elem_of_enqueued_tasks (i : string) (p : Q) (tl : Tile) (s : Adapter)
    (k : string) (r : nat) :
  wf s → (k, r) ∈ tasks (queue (enqueued i p tl s)) →
  (k = i ∧ r = length (heap s)) ∨ (k ≠ i ∧ (k, r) ∈ tasks (queue s)).
Proof.
  intros Hwf Hin. simpl in Hin.
  assert (Hk : NoDup (obj_keys (obj_set i (length (heap s)) (tasks (queue s)))))
    by (apply NoDup_obj_set, Hwf).
  apply (elem_obj_get _ _ _ Hk) in Hin. rewrite obj_get_set in Hin.
  case_decide; [left; by simplify_eq | right]. split; [done|].
  by apply obj_get_Some_elem.
Qed.

Lemma life_enqueued (i : string) (p : Q) (tl : Tile) (s : Adapter) :
  wf s → life s → life (enqueued i p tl s).
Proof.
  intros Hwf [H1 H2 H3]. split.
  - intros k r t Hin Ht.
    apply elem_of_enqueued_tasks in Hin as [[-> ->]|[Hne Hin]]; [| |done].
    + simpl in Ht. rewrite list_lookup_middle in Ht by done. simplify_eq. by left.
    + destruct (wf_task _ Hwf _ _ Hin) as (t0 & Ht0 & _).
      simpl in Ht. rewrite (lookup_app_l_Some _ _ _ _ Ht0) in Ht. simplify_eq. eauto.
  - simpl. intros r job t Hj Ht.
    destruct (wf_loading _ Hwf _ _ Hj) as [[t0 Ht0] _].
    rewrite (lookup_app_l_Some _ _ _ _ Ht0) in Ht. simplify_eq. eauto.
  - simpl. intros t [Ht| ->%list_elem_of_singleton]%elem_of_app; [by apply H3 | done].
Qed.

Lemma life_launched (r : nat) (t : Task) (l : gmap nat DrawJob) (s : Adapter) :
  heap s !! r = Some t → status t = PENDING → loads_after r t s l →
  life s → life (launched r t l s).
Proof.
  intros Ht Hp Hl [H1 H2 H3]. split; simpl.
  - intros k r' t' Hk (t0 & Ht0 & ->)%lookup_alter_Some.
    case_decide; [by right | eauto].
  - intros r' job t' Hj (t0 & Ht0 & ->)%lookup_alter_Some.
    case_decide as E; [by left|].
    destruct Hl as [->|(job' & _ & ->)]; [eauto|].
    rewrite lookup_insert_ne in Hj by done. eauto.
  - intros t' (t0 & Ht0 & [->| ->])%elem_of_alter; simpl; [by apply H3 | done].
Qed.

Lemma life_settled (r : nat) (t : Task) (cs : list Canvas) (ts : list Texture)
    (n : nat) (s : Adapter) :
  wf s → heap s !! r = Some t → life s → life (settled r t DONE cs ts n s).
Proof.
  intros Hwf Ht [H1 H2 H3]. split; simpl.
  - intros k r' t' [Hin Hne]%elem_of_obj_delete (t0 & Ht0 & ->)%lookup_alter_Some.
    case_decide as E; [|eauto]. subst r'.
    destruct (wf_task _ Hwf _ _ Hin) as (t1 & Ht1 & Hid). by simplify_eq.
  - intros r' job t' [Hne Hj]%lookup_delete_Some (t0 & Ht0 & ->)%lookup_alter_Some.
    rewrite decide_False by done. eauto.
  - intros t' (t0 & Ht0 & [->| ->])%elem_of_alter; simpl; [by apply H3 | done].
Qed.

Lemma life_Queue_start (s : Adapter) : wf s → life s → life (Queue_start s).
Proof.
  intros Hwf Hl. apply (Queue_start_ind (λ s', wf s' ∧ life s')); [|done].
  intros s' r k t l [Hwf' Hl'] _ _ _ Ht Hp _ Hloads.
  split; [by apply wf_launched | by apply life_launched].
Qed.

Lemma life_loadTiles (cands : list Candidate) (s : Adapter) :
  wf s → life s → life (__loadTiles cands s).
Proof.
  intros Hwf Hl. unfold __loadTiles.
  assert (Hs : wf (Queue_setAllPriorities 0 s) ∧ life (Queue_setAllPriorities 0 s)).
  { apply (Queue_setAllPriorities_ind (λ s', wf s' ∧ life s')); [|done].
    intros s' r [? ?]. split; [by apply wf_alter | by apply life_alter_priority]. }
  revert Hs. generalize (Queue_setAllPriorities 0 s). clear.
  induction cands as [|c cands IH]; intros s [Hwf Hl]; simpl.
  - by apply life_Queue_start.
  - apply IH. apply (loadTile_ind (λ s', wf s' ∧ life s')); [| |done].
    + intros s' r p [? ?]. split; [by apply wf_alter | by apply life_alter_priority].
    + intros s' i p t [? ?] _. split; [by apply wf_enqueued | by apply life_enqueued].
Qed.

Lemma life_settle (r : nat) (ok : bool) (s : Adapter) :
  wf s → life s → life (settle r ok s).
Proof.
  intros Hwf Hl.
  destruct (loading s !! r) as [job|] eqn:Hj; [|by rewrite settle_idle by auto].
  destruct (wf_loading _ Hwf _ _ Hj) as [[t Ht] Hidx].
  rewrite (settle_precise r ok s job t Hj Ht Hidx).
  apply life_Queue_start; [apply wf_settled; [done | by rewrite length_alter]|].
  by apply life_settled.
Qed.

Lemma life_Queue_clear (s : Adapter) : life s → life (Queue_clear s).
Proof.
  intros [H1 H2 H3].
  cut (tasks (queue (Queue_clear s)) = []
       ∧ (∀ r job t, loading (Queue_clear s) !! r = Some job →
            heap (Queue_clear s) !! r = Some t →
            status t = RUNNING ∨ status t = CANCELLED)
       ∧ ∀ t, t ∈ heap (Queue_clear s) → status t ≠ ERROR).
  { intros (Ht & Hl & He). split; [|done|done].
    intros k r t Hk. rewrite Ht in Hk. by apply not_elem_of_nil in Hk. }
  apply (Queue_clear_ind (λ s',
    tasks (queue s') = []
    ∧ (∀ r job t, loading s' !! r = Some job → heap s' !! r = Some t →
         status t = RUNNING ∨ status t = CANCELLED)
    ∧ ∀ t, t ∈ heap s' → status t ≠ ERROR)).
  - intros s' r (Ht & Hl & He). split; [done|]. split; simpl.
    + intros r' job t' Hj (t0 & Ht0 & ->)%lookup_alter_Some.
      case_decide; [by right | eauto].
    + intros t' (t0 & Ht0 & [->| ->])%elem_of_alter; simpl; [by apply He | done].
  - simpl. split; [done|]. split; [exact H2 | exact H3].
Qed.

Lemma life_step (s : Adapter) (ev : Event) : wf s → life s → life (step s ev).
Proof.
  intros Hwf Hl. destruct ev as [arg|view|cands|r ok]; simpl.
  - unfold loadTexture. destruct (checkPanorama arg); [done|].
    pose proof (life_Queue_clear s Hl) as [H1 H2 H3]. split; simpl; done.
  - unfold __refresh. destruct (config_panorama s); [by apply life_loadTiles | done].
  - by apply life_loadTiles.
  - by apply life_settle.
Qed.

Lemma life_run (evs : list Event) (s : Adapter) : wf s → life s → life (run evs s).
Proof.
  revert s. induction evs as [|ev evs IH]; intros s Hwf Hl; simpl; [done|].
  apply IH; [by apply wf_step | by apply life_step].
Qed.

(** [Queue.clear] changes a task only by cancelling it, and only if the task
    is known. *)
Lemma Queue_clear_lookup (s : Adapter) (r : nat) (t' : Task) :
  heap (Queue_clear s) !! r = Some t' →
  ∃ t, heap s !! r = Some t
       ∧ (t' = t ∨ (r ∈ obj_values (tasks (queue s)) ∧ status t' = CANCELLED)).
Proof.
  unfold Queue_clear.
  assert (H0 : heap (with_queue (mkQueue (concurency (queue s)) ∅ []) s) = heap s)
    by done.
  revert H0. generalize (with_queue (mkQueue (concurency (queue s)) ∅ []) s).
  generalize (obj_values (tasks (queue s))) as l.
  intros l. revert r t'. induction l as [|r0 l IH] using rev_ind; intros r t' s0 H0.
  - simpl. rewrite H0. intros Ht. exists t'. split; [done | by left].
  - rewrite foldl_app. simpl. intros (t1 & Ht1 & ->)%lookup_alter_Some.
    destruct (IH _ _ _ H0 Ht1) as (t & Ht & Hcase). exists t. split; [done|].
    case_decide as E.
    + right. split; [subst; apply elem_of_app; right; by left | done].
    + destruct Hcase as [->|[Hin Hst]]; [by left | right].
      split; [apply elem_of_app; by left | done].
Qed.

(** ** Status changes *)

Lemma status_step (s : Adapter) (ev : Event) (r : nat) (a : STATUS) :
  wf s → life s → status_of s r = Some a →
  ∃ b, status_of (step s ev) r = Some b ∧ status_edge a b = true.
Proof.
  intros Hwf Hl Ha. unfold status_of in Ha.
  destruct (heap s !! r) as [t|] eqn:Ht; [|done]. simpl in Ha. simplify_eq.
  assert (Hne : status t ≠ ERROR).
  { eapply life_no_error; [done|]. by eapply list_elem_of_lookup_2. }
  assert (Hrefl : status_edge (status t) (status t) = true)
    by (by destruct (status t)).
  assert (Hload : ∀ cands, ∃ b, status_of (__loadTiles cands s) r = Some b
                                ∧ status_edge (status t) b = true).
  { intros cands. destruct (loadTiles_status cands s r t Ht) as (t' & Ht' & Hst).
    exists (status t'). unfold status_of. rewrite Ht'. split; [done|].
    destruct Hst as [-> | (-> & -> & _)]; done. }
  destruct ev as [arg|view|cands|r' ok]; simpl.
  - unfold loadTexture. destruct (checkPanorama arg).
    + simpl. exists (status t). unfold status_of. by rewrite Ht.
    + unfold status_of. simpl.
      destruct (heap (Queue_clear s) !! r) as [t'|] eqn:Ht'.
      * destruct (Queue_clear_lookup _ _ _ Ht') as (t0 & Ht0 & Hcase). simplify_eq.
        exists (status t'). split; [done|].
        destruct Hcase as [->|[[k Hk]%elem_of_obj_values Hst]]; [done|].
        rewrite Hst. by destruct (life_known _ Hl _ _ _ Hk Ht) as [-> | ->].
      * exfalso.
        assert (length (heap (Queue_clear s)) = length (heap s)) as Hlen.
        { apply (Queue_clear_ind (λ s', length (heap s') = length (heap s))); [|done].
          intros s' r0 Hs'. simpl. by rewrite length_alter. }
        apply lookup_ge_None in Ht'. apply lookup_lt_Some in Ht. lia.
  - unfold __refresh. destruct (config_panorama s); [apply Hload|].
    exists (status t). unfold status_of. by rewrite Ht.
  - apply Hload.
  - destruct (loading s !! r') as [job|] eqn:Hj;
      [|rewrite settle_idle by auto; exists (status t); unfold status_of; by rewrite Ht].
    destruct (wf_loading _ Hwf _ _ Hj) as [[t1 Ht1] Hidx].
    rewrite (settle_precise r' ok s job t1 Hj Ht1 Hidx).
    match goal with |- context [Queue_start ?x] => set (s1 := x) end.
    assert (Ht' : heap s1 !! r = Some (if decide (r' = r) then set_status DONE t else t)).
    { unfold s1. simpl. by apply lookup_alter_Some_inv. }
    destruct (Queue_start_tasks s1 _ _ Ht') as (t2 & Ht2 & _ & _ & _ & Hst).
    exists (status t2). unfold status_of. rewrite Ht2. split; [done|].
    destruct (decide (r' = r)) as [->|Hne'].
    + simplify_eq. simpl in Hst.
      destruct Hst as [-> | (? & _)]; [|done].
      by destruct (life_loading _ Hl _ _ _ Hj Ht) as [-> | ->].
    + destruct Hst as [-> | (-> & -> & _)]; done.
Qed.

(** In a reachable state one event moves the status of a task along one of
    the edges pending -> running -> done, pending or running -> cancelled,
    cancelled -> done, or leaves it as it is. *)
Theorem task_status_edges (evs : list Event) (ev : Event) (r : nat) (a : STATUS) :
  status_of (run evs init) r = Some a →
  ∃ b, status_of (step (run evs init) ev) r = Some b ∧ status_edge a b = true.
Proof.
  apply status_step; [apply wf_run, wf_init | apply life_run; [apply wf_init | apply life_init]].
Qed.

Lemma task_status_edges_witness :
  ∃ b, status_of (step corner_loading (EvSettle 3 true)) 3 = Some b
       ∧ status_edge RUNNING b = true.
Proof.
  apply (task_status_edges [EvLoadTexture panorama16x8; EvRefresh corner_view]
           (EvSettle 3 true) 3 RUNNING).
  reflexivity.
Defined.

(** A task that is done stays done, whatever happens next. *)
Theorem done_is_final (evs later : list Event) (r : nat) :
  status_of (run evs init) r = Some DONE →
  status_of (run later (run evs init)) r = Some DONE.
Proof.
  assert (Hwf : wf (run evs init)) by apply wf_run, wf_init.
  assert (Hl : life (run evs init))
    by (apply life_run; [apply wf_init | apply life_init]).
  revert Hwf Hl. generalize (run evs init). 
  induction later as [|ev later IH]; intros s Hwf Hl Hd; simpl; [done|].
  apply IH; [by apply wf_step | by apply life_step |].
  destruct (status_step s ev r DONE Hwf Hl Hd) as (b & Hb & Hedge).
  by destruct b.
Qed.

Lemma done_is_final_witness :
  status_of (run [EvLoadTexture panorama16x8; EvRefresh corner_view]
                 (run [EvLoadTexture panorama16x8; EvRefresh corner_view;
                       EvSettle 3 true] init)) 3
  = Some DONE.
Proof.
  apply (done_is_final
           [EvLoadTexture panorama16x8; EvRefresh corner_view; EvSettle 3 true]
           [EvLoadTexture panorama16x8; EvRefresh corner_view] 3).
  vm_compute. reflexivity.
Defined.

(** A refresh, or the settling of another load, leaves the status of a task
    as it is unless the task is pending: a running task is not preempted. *)
Theorem running_task_not_preempted (s : Adapter) (ev : Event) (r : nat) (st : STATUS) :
  status_of s r = Some st → st ≠ PENDING →
  is_sched ev = true → (∀ ok, ev ≠ EvSettle r ok) →
  status_of (step s ev) r = Some st.
Proof.
  intros Ha Hnp Hsched Hev. unfold status_of in Ha.
  destruct (heap s !! r) as [t|] eqn:Ht; [|done]. simpl in Ha. simplify_eq.
  assert (Hload : ∀ cands, status_of (__loadTiles cands s) r = Some (status t)).
  { intros cands. destruct (loadTiles_status cands s r t Ht) as (t' & Ht' & Hst).
    unfold status_of. rewrite Ht'. simpl. by destruct Hst as [-> | (? & _)]. }
  destruct ev as [arg|view|cands|r' ok]; simpl; [done| | |].
  - unfold __refresh. destruct (config_panorama s); [apply Hload|].
    unfold status_of. by rewrite Ht.
  - apply Hload.
  - assert (r' ≠ r) as Hne by (intros ->; by apply (Hev ok)).
    destruct (loading s !! r') as [job|] eqn:Hj;
      [|rewrite settle_idle by auto; unfold status_of; by rewrite Ht].
    destruct (heap s !! r') as [t1|] eqn:Ht1;
      [|rewrite settle_idle by auto; unfold status_of; by rewrite Ht].
    destruct (settle_eq r' ok s job t1 Hj Ht1) as (st1 & cs & ts & n & -> & _).
    match goal with |- context [Queue_start ?x] => set (s1 := x) end.
    assert (Ht' : heap s1 !! r = Some t).
    { unfold s1. simpl. by rewrite list_lookup_alter_ne. }
    destruct (Queue_start_tasks s1 _ _ Ht') as (t2 & Ht2 & _ & _ & _ & Hst).
    unfold status_of. rewrite Ht2. simpl. by destruct Hst as [-> | (? & _)].
Qed.

Lemma running_task_not_preempted_witness :
  status_of (step corner_loading (EvSettle 2 false)) 3 = Some RUNNING.
Proof.
  apply (running_task_not_preempted corner_loading (EvSettle 2 false) 3 RUNNING);
    [reflexivity | discriminate | reflexivity | intros ok; discriminate].
Defined.

(** ** What [__loadTiles] records *)

Lemma loadTiles_loop_tiles (cands : list Candidate) (s : Adapter) :
  tiles (props (foldl loadTile s cands))
  = tiles (props s) ∪ list_to_set ((λ c, tileId (tile c)) <$> cands).
Proof.
  revert s. induction cands as [|c cands IH]; intros s; simpl; [set_solver|].
  rewrite IH, loadTile_eq. case_decide as Hin.
  - assert (props (Queue_setPriority (tileId (tile c)) (Math_PI / 2 - angle c)%Q s)
            = props s) as ->.
    { unfold Queue_setPriority. by destruct (obj_get _ _). }
    set_solver.
  - simpl. set_solver.
Qed.

(** After [__loadTiles], [props.tiles] holds what it held before and the ids
    of all the tiles of the list. *)
Theorem loadTiles_records_all (cands : list Candidate) (s : Adapter) :
  tiles (props (__loadTiles cands s))
  = tiles (props s) ∪ list_to_set ((λ c, tileId (tile c)) <$> cands).
Proof.
  unfold __loadTiles.
  destruct (Queue_start_frame (foldl loadTile (Queue_setAllPriorities 0 s) cands))
    as (_ & _ & -> & _).
  rewrite loadTiles_loop_tiles. f_equal. f_equal.
  by apply (Queue_setAllPriorities_ind (λ s', props s' = props s)).
Qed.

(** ** Tiles that left the view *)

Lemma setAllPriorities_lookup (p : Q) (s : Adapter) (r : nat) (t' : Task) :
  heap (Queue_setAllPriorities p s) !! r = Some t' →
  ∃ t, heap s !! r = Some t
       ∧ (r ∈ obj_values (tasks (queue s)) → priority t' = p).
Proof.
  unfold Queue_setAllPriorities.
  generalize (obj_values (tasks (queue s))) as l.
  intros l. revert r t'. induction l as [|r0 l IH] using rev_ind; intros r t'.
  - simpl. intros Ht. exists t'. split; [done|]. intros Hin.
    by apply not_elem_of_nil in Hin.
  - rewrite foldl_app. simpl. intros (t1 & Ht1 & ->)%lookup_alter_Some.
    destruct (IH _ _ Ht1) as (t & Ht & Hp). exists t. split; [done|].
    intros Hin. case_decide as E; [done|].
    apply Hp. apply elem_of_app in Hin as [Hin|Hin%list_elem_of_singleton]; [done|].
    congruence.
Qed.

Lemma setAllPriorities_frame (p : Q) (s : Adapter) :
  queue (Queue_setAllPriorities p s) = queue s
  ∧ length (heap (Queue_setAllPriorities p s)) = length (heap s).
Proof.
  apply (Queue_setAllPriorities_ind
           (λ s', queue s' = queue s ∧ length (heap s') = length (heap s))); [|done].
  intros s' r [? ?]. simpl. by rewrite length_alter.
Qed.

(** A known tile that the new list does not name keeps its task, with
    priority 0 and the status it had: it is not started by this call. *)
Theorem unlisted_tile_demoted (evs : list Event) (cands : list Candidate)
    (k : string) (r : nat) :
  (k, r) ∈ tasks (queue (run evs init)) →
  k ∉ (λ c, tileId (tile c)) <$> cands →
  (k, r) ∈ tasks (queue (__loadTiles cands (run evs init)))
  ∧ ∃ t t', heap (run evs init) !! r = Some t
      ∧ heap (__loadTiles cands (run evs init)) !! r = Some t'
      ∧ priority t' = 0%Q ∧ status t' = status t.
Proof.
  set (s := run evs init). intros Hk Hnot.
  assert (Hwf : wf s) by apply wf_run, wf_init.
  destruct (wf_task _ Hwf _ _ Hk) as (t & Ht & Hid).
  destruct (setAllPriorities_frame 0 s) as [Hq Hlen].
  set (s1 := Queue_setAllPriorities 0 s) in *.
  assert (Hwf1 : wf s1).
  { apply Queue_setAllPriorities_ind; [|done]. intros; by apply wf_alter. }
  assert (Hget : obj_get k (tasks (queue s1)) = Some r).
  { rewrite Hq. by apply (wf_elem s). }
  assert (Hkp : known_priority k 0 s1).
  { intros r' Hr'. rewrite Hget in Hr'. simplify_eq.
    destruct (heap s1 !! r') as [t1|] eqn:Ht1.
    - exists t1. split; [done|].
      destruct (setAllPriorities_lookup 0 s _ _ Ht1) as (t0 & _ & Hp).
      apply Hp. apply elem_of_obj_values. eauto.
    - apply lookup_ge_None in Ht1. apply lookup_lt_Some in Ht. lia. }
  assert (Hloop : wf (foldl loadTile s1 cands)
                  ∧ known_priority k 0 (foldl loadTile s1 cands)
                  ∧ obj_get k (tasks (queue (foldl loadTile s1 cands))) = Some r).
  { clearbody s1. clear Hq Hlen Hk Ht Hwf. revert s1 Hwf1 Hget Hkp.
    induction cands as [|c cands IH]; intros s1 Hwf1 Hget Hkp; simpl; [done|].
    assert (Hne : tileId (tile c) ≠ k).
    { intros E. apply Hnot. rewrite <- E. simpl. left. }
    apply IH.
    - intros Hin. apply Hnot. simpl. by right.
    - apply loadTile_ind; [| |done]; intros; [by apply wf_alter | by apply wf_enqueued].
    - rewrite loadTile_eq. case_decide.
      + unfold Queue_setPriority. by destruct (obj_get (tileId (tile c)) _).
      + simpl. by rewrite obj_get_set, decide_False.
    - by apply known_priority_other. }
  destruct Hloop as (Hwf2 & Hkp2 & Hget2).
  unfold __loadTiles. fold s1.
  destruct (Queue_start_frame (foldl loadTile s1 cands)) as (Htasks & _).
  split; [rewrite Htasks; by apply obj_get_Some_elem|].
  destruct (Hkp2 _ Hget2) as (t2 & Ht2 & Hp2).
  destruct (loadTiles_loop_status cands s _ _ Ht) as (t2' & Ht2' & Hst2 & _).
  fold s1 in Ht2'. simplify_eq.
  destruct (Queue_start_tasks _ _ _ Ht2) as (t3 & Ht3 & _ & _ & Hp3 & Hst3).
  exists t, t3. split; [done|]. split; [done|]. split; [congruence|].
  destruct Hst3 as [-> | (_ & _ & Hpos)]; [done|].
  rewrite Hp2 in Hpos. by apply Qlt_irrefl in Hpos.
Qed.

Lemma unlisted_tile_demoted_witness :
  ("0x0"%string, 0%nat) ∈ tasks (queue (__loadTiles [cand 7 7 (1 # 10)] corner_loading)).
Proof.
  destruct (unlisted_tile_demoted
              [EvLoadTexture panorama16x8; EvRefresh corner_view]
              [cand 7 7 (1 # 10)] "0x0" 0) as [H _].
  - vm_compute. left.
  - vm_compute. intros H. apply list_elem_of_singleton in H. discriminate.
  - exact H.
Defined.

(** ** The recursion of [Queue.start] *)

Lemma Queue_start_fuel_more (n m : nat) (s s' : Adapter) :
  Queue_start_fuel n s = Some s' → (n ≤ m)%nat → Queue_start_fuel m s = Some s'.
Proof.
  revert m s. induction n as [|n IH]; intros m s; [done|].
  destruct m as [|m]; [lia|]. simpl. intros H Hle.
  case_decide; [done|]. destruct (Queue_next s); [|done].
  destruct (launch n0 s) as [s1 []]; [|done]. apply IH; [done | lia].
Qed.

(** [Queue.start] returns after at most one nested call per known task, and
    a larger bound on the nesting gives the same result. *)
Theorem Queue_start_terminates (s : Adapter) (n : nat) :
  (length (tasks (queue s)) < n)%nat → Queue_start_fuel n s = Some (Queue_start s).
Proof.
  intros Hn. destruct (Queue_start_fuel_enough s) as [s' Hs'].
  unfold Queue_start. rewrite Hs'. simpl.
  eapply Queue_start_fuel_more; [exact Hs' | lia].
Qed.

Lemma Queue_start_terminates_witness :
  Queue_start_fuel 9 corner_loading = Some (Queue_start corner_loading).
Proof. apply Queue_start_terminates. vm_compute. lia. Defined.

(** ** The canvases of the current panorama *)

Lemma surfaces_init : surfaces init.
Proof.
  split; simpl.
  - intros c Hc. by apply not_elem_of_nil in Hc.
  - intros r job Hj. by rewrite lookup_empty in Hj.
  - intros r job t Hj. by rewrite lookup_empty in Hj.
  - done.
  - constructor.
  - by left.
  - intros c Hc. by apply not_elem_of_nil in Hc.
Qed.

Lemma surfaces_alter_priority (p : Q) (r : nat) (s : Adapter) :
  surfaces s → surfaces (with_heap (alter (set_priority p) r (heap s)) s).
Proof.
  intros [H1 H2 H3 H4 H5 H6 H7]. split; simpl; try done.
  intros r' job t' Hj (t & Ht & ->)%lookup_alter_Some Hst.
  apply (H3 _ _ t Hj Ht). by case_decide.
Qed.

Lemma surfaces_enqueued (i : string) (p : Q) (tl : Tile) (s : Adapter) :
  wf s → surfaces s → surfaces (enqueued i p tl s).
Proof.
  intros Hwf [H1 H2 H3 H4 H5 H6 H7]. split; simpl; try done.
  intros r job t Hj Ht Hst.
  destruct (wf_loading _ Hwf _ _ Hj) as [[t0 Ht0] _].
  rewrite (lookup_app_l_Some _ _ _ _ Ht0) in Ht. simplify_eq. by eapply H3.
Qed.

Lemma drawTile_begin_ctx (s : Adapter) (t : Tile) (job : DrawJob) :
  drawTile_begin s t = Some job →
  canvas s !! job_canvasIdx job = Some (job_ctx job).
Proof.
  unfold drawTile_begin. intros H. repeat case_match; by simplify_eq/=.
Qed.

Lemma surfaces_launched (r : nat) (t : Task) (l : gmap nat DrawJob) (s : Adapter) :
  heap s !! r = Some t → loads_after r t s l →
  surfaces s → surfaces (launched r t l s).
Proof.
  intros Ht Hl [H1 H2 H3 H4 H5 H6 H7]. split; simpl; try done.
  - intros r' job Hj. destruct Hl as [->|(job' & Hb & ->)]; [by eapply H2|].
    apply lookup_insert_Some in Hj as [[<- <-]|[_ Hj]]; [|by eapply H2].
    apply H1. eapply list_elem_of_lookup_2. by apply drawTile_begin_ctx in Hb.
  - intros r' job t' Hj (t0 & Ht0 & ->)%lookup_alter_Some Hst.
    case_decide as E; [done|].
    destruct Hl as [->|(job' & _ & ->)]; [by eapply H3|].
    rewrite lookup_insert_ne in Hj by done. by eapply H3.
Qed.

Lemma surfaces_settled (r : nat) (t : Task) (job : DrawJob) (op : DrawOp)
    (n : nat) (s : Adapter) :
  surfaces s →
  surfaces (settled r t DONE
              (alter (λ c, c ++ [op]) (job_ctx job) (canvases s))
              (alter (λ x, mkTexture (tex_canvas x) (S (tex_updates x)))
                     (job_canvasIdx job) (textures s))
              n s).
Proof.
  intros [H1 H2 H3 H4 H5 H6 H7]. split; simpl; try done.
  - intros c Hc. rewrite length_alter. by apply H1.
  - intros r' job' [_ Hj]%lookup_delete_Some. rewrite length_alter. by eapply H2.
  - intros r' job' t' [Hne Hj]%lookup_delete_Some (t0 & Ht0 & ->)%lookup_alter_Some.
    rewrite decide_False by done. by eapply H3.
  - rewrite <- H4. rewrite (list_fmap_alter tex_canvas _ (λ x, x)).
    + by apply list_alter_id.
    + by apply Forall_forall.
  - intros c Hc. destruct (H7 _ Hc) as [ops Hops].
    destruct (decide (job_ctx job = c)) as [->|Hne].
    + exists (ops ++ [op]). rewrite list_lookup_alter_eq.
      apply fmap_Some. eexists. split; [exact Hops | done].
    + exists ops. by rewrite list_lookup_alter_ne.
Qed.

Lemma surfaces_Queue_start (s : Adapter) : surfaces s → surfaces (Queue_start s).
Proof.
  apply (Queue_start_ind surfaces).
  intros s' r k t l Hs _ _ _ Ht _ _ Hl. by apply surfaces_launched.
Qed.

Lemma surfaces_loadTiles (cands : list Candidate) (s : Adapter) :
  wf s → surfaces s → surfaces (__loadTiles cands s).
Proof.
  intros Hwf Hs. unfold __loadTiles. apply surfaces_Queue_start.
  assert (H0 : wf (Queue_setAllPriorities 0 s) ∧ surfaces (Queue_setAllPriorities 0 s)).
  { apply (Queue_setAllPriorities_ind (λ s', wf s' ∧ surfaces s')); [|done].
    intros s' r [? ?]. split; [by apply wf_alter | by apply surfaces_alter_priority]. }
  cut (wf (foldl loadTile (Queue_setAllPriorities 0 s) cands)
       ∧ surfaces (foldl loadTile (Queue_setAllPriorities 0 s) cands)); [tauto|].
  revert H0. generalize (Queue_setAllPriorities 0 s). clear.
  induction cands as [|c cands IH]; intros s [Hwf Hs]; simpl; [done|].
  apply IH. apply (loadTile_ind (λ s', wf s' ∧ surfaces s')); [| |done].
  - intros s' r p [? ?]. split; [by apply wf_alter | by apply surfaces_alter_priority].
  - intros s' i p t [? ?] _. split; [by apply wf_enqueued | by apply surfaces_enqueued].
Qed.

Lemma surfaces_settle (r : nat) (ok : bool) (s : Adapter) :
  wf s → surfaces s → surfaces (settle r ok s).
Proof.
  intros Hwf Hs.
  destruct (loading s !! r) as [job|] eqn:Hj; [|by rewrite settle_idle by auto].
  destruct (wf_loading _ Hwf _ _ Hj) as [[t Ht] Hidx].
  rewrite (settle_precise r ok s job t Hj Ht Hidx).
  by apply surfaces_Queue_start, surfaces_settled.
Qed.

Lemma surfaces_loadTexture (arg : PanoramaArg) (s : Adapter) :
  surfaces s → surfaces (loadTexture arg s).2.
Proof.
  intros [H1 H2 H3 H4 H5 H6 H7]. unfold loadTexture.
  destruct (checkPanorama arg) as [o|p]; [done|].
  destruct (Queue_clear_frame s) as (_ & _ & _ & Hcs & Hload & _).
  split; cbn [snd canvas canvases loading textures heap]; rewrite ?Hcs, ?Hload.
  - intros c Hc%elem_of_seq. rewrite length_app, length_replicate. lia.
  - intros r job Hj. rewrite length_app. apply H2 in Hj. lia.
  - intros r job t Hj _ _ Hc%elem_of_seq. apply H2 in Hj. lia.
  - rewrite <- list_fmap_compose. by apply list_fmap_id.
  - apply NoDup_seq.
  - right. by rewrite length_seq.
  - intros c Hc%elem_of_seq. exists [].
    unfold Canvas in *. rewrite lookup_app_r by lia.
    apply lookup_replicate. split; [done | lia].
Qed.

Lemma surfaces_step (s : Adapter) (ev : Event) :
  wf s → surfaces s → surfaces (step s ev).
Proof.
  intros Hwf Hs. destruct ev as [arg|view|cands|r ok]; simpl.
  - by apply surfaces_loadTexture.
  - unfold __refresh. destruct (config_panorama s); [by apply surfaces_loadTiles | done].
  - by apply surfaces_loadTiles.
  - by apply surfaces_settle.
Qed.

Lemma surfaces_run (evs : list Event) (s : Adapter) :
  wf s → surfaces s → surfaces (run evs s).
Proof.
  revert s. induction evs as [|ev evs IH]; intros s Hwf Hs; simpl; [done|].
  apply IH; [by apply wf_step | by apply surfaces_step].
Qed.

Lemma settle_surfaces_eq (r : nat) (ok : bool) (s : Adapter) (job : DrawJob) :
  wf s → loading s !! r = Some job →
  canvas (settle r ok s) = canvas s
  ∧ canvases (settle r ok s)
    = alter (λ c, c ++ [settle_op job ok s]) (job_ctx job) (canvases s)
  ∧ textures (settle r ok s)
    = alter (λ x, mkTexture (tex_canvas x) (S (tex_updates x)))
            (job_canvasIdx job) (textures s)
  ∧ redraws (settle r ok s) = S (redraws s).
Proof.
  intros Hwf Hj. destruct (wf_loading _ Hwf _ _ Hj) as [[t Ht] Hidx].
  rewrite (settle_precise r ok s job t Hj Ht Hidx).
  match goal with |- context [Queue_start ?x] => 
    destruct (Queue_start_output x) as (-> & -> & -> & _ & ->) end.
  done.
Qed.

(** In every reachable state [this.canvas] and [this.textures] are empty or
    hold eight entries; texture [i] is over canvas [i]; the canvases are
    distinct and each one was first filled with the background. *)
Theorem eight_canvases (evs : list Event) :
  (canvas (run evs init) = [] ∨ length (canvas (run evs init)) = 8%nat)
  ∧ tex_canvas <$> textures (run evs init) = canvas (run evs init)
  ∧ NoDup (canvas (run evs init))
  ∧ ∀ c, c ∈ canvas (run evs init) →
      ∃ ops, canvases (run evs init) !! c = Some (FillBackground :: ops).
Proof.
  pose proof (surfaces_run evs init wf_init surfaces_init) as [H1 H2 H3 H4 H5 H6 H7].
  done.
Qed.

(** The late result of a cancelled task is not drawn on any canvas of the
    panorama that is current: the drawing goes to the canvas captured when
    the task was started. *)
Theorem stale_load_spares_canvases (evs : list Event) (r : nat) (job : DrawJob)
    (ok : bool) (c : nat) :
  loading (run evs init) !! r = Some job →
  status_of (run evs init) r = Some CANCELLED →
  c ∈ canvas (run evs init) →
  canvas (settle r ok (run evs init)) = canvas (run evs init)
  ∧ canvases (settle r ok (run evs init)) !! c = canvases (run evs init) !! c.
Proof.
  set (s := run evs init). intros Hj Hst Hc.
  assert (Hwf : wf s) by apply wf_run, wf_init.
  pose proof (surfaces_run evs init wf_init surfaces_init) as Hs. fold s in Hs.
  destruct (settle_surfaces_eq r ok s job Hwf Hj) as (-> & -> & _).
  split; [done|]. apply list_lookup_alter_ne. intros <-.
  unfold status_of in Hst. destruct (heap s !! r) as [t|] eqn:Ht; [|done].
  simpl in Hst. simplify_eq. by apply (sf_stale _ Hs _ _ _ Hj Ht).
Qed.

Lemma stale_load_spares_canvases_witness :
  canvases (settle 3 true reloaded_in_flight) !! 14%nat
  = canvases reloaded_in_flight !! 14%nat.
Proof.
  destruct (stale_load_spares_canvases
              [EvLoadTexture panorama16x8; EvRefresh corner_view;
               EvLoadTexture panorama16x8]
              3 (mkJob "0x1" 6 6 0 1) true 14) as [_ H].
  - vm_compute. reflexivity.
  - vm_compute. reflexivity.
  - vm_compute. do 6 right. left.
  - exact H.
Defined.




(** ** The adapter inside the viewer *)

Lemma with_config_same (s : Adapter) : with_config (config_panorama s) s = s.
Proof. by destruct s. Qed.

(** [loadTexture] of the first part is [adapter_loadTexture] in a viewer that
    assigns each accepted configuration to [psv.config.panorama] as it loads
    it. *)
Lemma loadTexture_config (arg : PanoramaArg) (s : Adapter) :
  adapter_loadTexture arg s
  = ((loadTexture arg s).1, with_config (config_panorama s) (loadTexture arg s).2).
Proof.
  unfold adapter_loadTexture, loadTexture.
  destruct (checkPanorama arg) as [o|p]; simpl; [by rewrite with_config_same|].
  destruct (Queue_clear_frame s) as (_ & _ & _ & _ & _ & -> & _). done.
Qed.

Lemma wf_with_config (c : option Panorama) (s : Adapter) :
  wf s → wf (with_config c s).
Proof. intros [H1 H2 H3 H4 H5]. by split. Qed.

Lemma wf_adapter_loadTexture (arg : PanoramaArg) (s : Adapter) :
  wf s → wf (adapter_loadTexture arg s).2.
Proof.
  intros Hwf. rewrite loadTexture_config. simpl.
  by apply wf_with_config, wf_loadTexture.
Qed.

Lemma wf_viewer_step (s : Adapter) (ev : ViewerEvent) :
  wf s → wf (viewer_step s ev).
Proof.
  intros Hwf. destruct ev as [c|arg|view|r ok]; simpl.
  - by apply wf_with_config.
  - by apply wf_adapter_loadTexture.
  - by apply (wf_step s (EvRefresh view)).
  - by apply wf_settle.
Qed.

Lemma wf_viewer_run (evs : list ViewerEvent) (s : Adapter) :
  wf s → wf (viewer_run evs s).
Proof.
  revert s. induction evs as [|ev evs IH]; intros s Hwf; simpl; [done|].
  by apply IH, wf_viewer_step.
Qed.

(** ** No task fails while the adapter is in use *)

Lemma life_with_config (c : option Panorama) (s : Adapter) :
  life s → life (with_config c s).
Proof. intros [H1 H2 H3]. by split. Qed.

Lemma life_viewer_run (evs : list ViewerEvent) (s : Adapter) :
  wf s → life s → life (viewer_run evs s).
Proof.
  revert s. induction evs as [|ev evs IH]; intros s Hwf Hl; simpl; [done|].
  apply IH; [by apply wf_viewer_step|].
  destruct ev as [c|arg|view|r ok]; simpl.
  - by apply life_with_config.
  - rewrite loadTexture_config. simpl. apply life_with_config.
    by apply (life_step s (EvLoadTexture arg)).
  - by apply (life_step s (EvRefresh view)).
  - by apply life_settle.
Qed.

(** While the adapter is in use, that is under any sequence of
    [loadTexture], refreshes, [__loadTiles] and loads settling, whatever the
    viewer assigns to [psv.config.panorama] and whether or not [loadTexture]
    comes with such an assignment, no task has the status [ERROR]: a failed
    image load is caught by [__drawTile] and the last reaction of its chain
    finds the texture it writes.  [destroy] is not among these events: once
    the adapter is destroyed the call [this.psv.needsUpdate()] of that
    reaction can raise, which [Task.start] records as [ERROR]. *)
Theorem error_status_unreachable (evs : list Event) (vevs : list ViewerEvent)
    (r : nat) :
  status_of (viewer_run vevs (run evs init)) r ≠ Some ERROR.
Proof.
  assert (Hwf : wf (run evs init)) by apply wf_run, wf_init.
  assert (Hl : life (viewer_run vevs (run evs init))).
  { apply life_viewer_run; [done|]. apply life_run; [apply wf_init | apply life_init]. }
  unfold status_of.
  destruct (heap (viewer_run vevs (run evs init)) !! r) as [t|] eqn:Ht; [|done].
  simpl. intros [= E]. eapply life_no_error; [done | | done].
  by eapply list_elem_of_lookup_2.
Qed.

(** ** No slot is left idle *)

Lemma ready_init : ready init.
Proof.
  split; simpl; [done| |]; intros k r t Hin; by apply not_elem_of_nil in Hin.
Qed.

Lemma ready_alter_priority (p : Q) (r : nat) (s : Adapter) :
  ready s → ready (with_heap (alter (set_priority p) r (heap s)) s).
Proof.
  intros [H1 H2 H3]. split; simpl; [done| |].
  - intros k r' t' Hin (t & Ht & ->)%lookup_alter_Some.
    destruct (H2 _ _ _ Hin Ht) as (p0 & ? & ?). exists p0. by case_decide.
  - intros k r' t' Hin (t & Ht & ->)%lookup_alter_Some Hst.
    apply (H3 _ _ t Hin Ht). by case_decide.
Qed.

Lemma ready_enqueued (i : string) (p : Q) (tl : Tile) (s : Adapter) (p0 : Panorama) :
  wf s → ready s → config_panorama s = Some p0 → in_grid p0 tl →
  ready (enqueued i p tl s).
Proof.
  intros Hwf [H1 H2 H3] Hcfg Hgrid. split; [done| |].
  - intros k r t Hin Ht.
    apply elem_of_enqueued_tasks in Hin as [[-> ->]|[Hne Hin]]; [| |done].
    + simpl in Ht. rewrite list_lookup_middle in Ht by done. simplify_eq.
      by exists p0.
    + destruct (wf_task _ Hwf _ _ Hin) as (t0 & Ht0 & _).
      simpl in Ht. rewrite (lookup_app_l_Some _ _ _ _ Ht0) in Ht. simplify_eq.
      by eapply H2.
  - intros k r t Hin Ht Hst.
    apply elem_of_enqueued_tasks in Hin as [[-> ->]|[Hne Hin]]; [| |done].
    + simpl in Ht. rewrite list_lookup_middle in Ht by done. by simplify_eq.
    + destruct (wf_task _ Hwf _ _ Hin) as (t0 & Ht0 & _).
      simpl in Ht. rewrite (lookup_app_l_Some _ _ _ _ Ht0) in Ht. simplify_eq.
      by eapply H3.
Qed.

Lemma ready_launched (r : nat) (t : Task) (job : DrawJob) (s : Adapter) :
  ready s → ready (launched r t (<[r := job]> (loading s)) s).
Proof.
  intros [H1 H2 H3]. split; simpl; [done| |].
  - intros k r' t' Hin (t0 & Ht0 & ->)%lookup_alter_Some.
    destruct (H2 _ _ _ Hin Ht0) as (p0 & ? & ?). exists p0. by case_decide.
  - intros k r' t' Hin (t0 & Ht0 & ->)%lookup_alter_Some Hst.
    destruct (decide (r = r')) as [->|Hne].
    + rewrite lookup_insert_eq. eauto.
    + rewrite lookup_insert_ne by done. by eapply H3.
Qed.

Lemma ready_settled (r : nat) (t : Task) (st : STATUS) (cs : list Canvas)
    (ts : list Texture) (n : nat) (s : Adapter) :
  wf s → heap s !! r = Some t → ready s → ready (settled r t st cs ts n s).
Proof.
  intros Hwf Ht [H1 H2 H3]. split; simpl; [done| |].
  - intros k r' t' [Hin Hk]%elem_of_obj_delete (t0 & Ht0 & ->)%lookup_alter_Some.
    destruct (H2 _ _ _ Hin Ht0) as (p0 & ? & ?). exists p0. by case_decide.
  - intros k r' t' [Hin Hk]%elem_of_obj_delete (t0 & Ht0 & ->)%lookup_alter_Some Hst.
    destruct (wf_task _ Hwf _ _ Hin) as (t1 & Ht1 & Hid).
    assert (Hne : r ≠ r') by (intros E; rewrite <- E in Ht1; congruence).
    rewrite decide_False in Hst by done.
    rewrite lookup_delete_ne by done. exact (H3 _ _ _ Hin Ht0 Hst).
Qed.

(** An accepted [loadTexture] leaves no known task and eight canvases,
    whatever [psv.config.panorama] is. *)
Lemma adapter_loadTexture_fresh (arg : PanoramaArg) (q : Panorama) (s : Adapter) :
  checkPanorama arg = inr q →
  config_panorama (adapter_loadTexture arg s).2 = config_panorama s
  ∧ tasks (queue (adapter_loadTexture arg s).2) = []
  ∧ length (canvas (adapter_loadTexture arg s).2) = 8%nat.
Proof.
  intros Hq. unfold adapter_loadTexture. rewrite Hq.
  cbn [snd config_panorama queue canvas]. rewrite Queue_clear_queue.
  destruct (Queue_clear_frame s) as (_ & _ & _ & _ & _ & -> & _).
  by rewrite length_seq.
Qed.

Lemma ready_fresh (s : Adapter) :
  tasks (queue s) = [] →
  (∀ p, config_panorama s = Some p → accepted p ∧ length (canvas s) = 8%nat) →
  ready s ∧ saturated s.
Proof.
  intros Ht Hc. split.
  - split; [done| |]; intros k r t Hin; rewrite Ht in Hin;
      by apply not_elem_of_nil in Hin.
  - intros _. unfold Queue_next. by rewrite Ht.
Qed.

Lemma ready_adapter_loadTexture (arg : PanoramaArg) (s : Adapter) :
  ready s ∧ saturated s →
  ready (adapter_loadTexture arg s).2 ∧ saturated (adapter_loadTexture arg s).2.
Proof.
  intros [Hs Hsat]. destruct (checkPanorama arg) as [o|q] eqn:E.
  - unfold adapter_loadTexture. by rewrite E.
  - destruct (adapter_loadTexture_fresh arg q s E) as (Hc & Ht & Hl).
    apply ready_fresh; [done|]. intros p Hp. rewrite Hc in Hp.
    split; [by apply (rd_config _ Hs) | done].
Qed.

(** With a tile of the grid, [fn] does not raise: the task is handed to the
    loader. *)
Lemma launch_ready (s : Adapter) (k : string) (r : nat) (t : Task) :
  ready s → (k, r) ∈ tasks (queue s) → heap s !! r = Some t →
  ∃ job, launch r s = (launched r t (<[r := job]> (loading s)) s, true).
Proof.
  intros [H1 H2 _] Hin Ht.
  destruct (H2 _ _ _ Hin Ht) as (p & Hcfg & Hgrid).
  destruct (H1 _ Hcfg) as [Hacc Hlen].
  destruct (drawTile_begin_decompose s p (fn t) Hcfg Hacc Hlen Hgrid) as (job & Hb & _).
  exists job. unfold launch, Task_start. simpl. rewrite Ht. simpl.
  unfold drawTile_begin at 1. simpl. fold (drawTile_begin s (fn t)).
  by rewrite Hb.
Qed.

Lemma ready_Queue_start_fuel (n : nat) (s s' : Adapter) :
  ready s → Queue_start_fuel n s = Some s' → ready s' ∧ saturated s'.
Proof.
  revert s. induction n as [|n IH]; intros s Hs; simpl; [done|].
  case_decide as Hfull.
  { intros [= <-]. split; [done|]. unfold saturated. lia. }
  destruct (Queue_next s) as [r|] eqn:Hnext.
  2:{ intros [= <-]. split; [done|]. by intros _. }
  destruct (Queue_next_Some _ _ Hnext) as (k & t & Hk & Ht & _).
  destruct (launch_ready s k r t Hs Hk Ht) as (job & ->).
  apply IH. by apply ready_launched.
Qed.

Lemma ready_Queue_start (s : Adapter) :
  ready s → ready (Queue_start s) ∧ saturated (Queue_start s).
Proof.
  intros Hs. unfold Queue_start.
  destruct (Queue_start_fuel_enough s) as [s' E]. rewrite E. simpl.
  by eapply ready_Queue_start_fuel.
Qed.

Lemma ready_foldl_loadTile (p0 : Panorama) (cands : list Candidate) (s : Adapter) :
  config_panorama s = Some p0 → (∀ c, c ∈ cands → in_grid p0 (tile c)) →
  wf s → ready s →
  wf (foldl loadTile s cands) ∧ ready (foldl loadTile s cands).
Proof.
  revert s. induction cands as [|c cands IH]; intros s Hcfg Hgrid Hwf Hs; simpl; [done|].
  assert (Hc : in_grid p0 (tile c)) by (apply Hgrid; left).
  assert (Hrest : ∀ c', c' ∈ cands → in_grid p0 (tile c')) by (intros; apply Hgrid; by right).
  rewrite loadTile_eq. case_decide.
  - apply IH; [| done | |].
    + by apply (Queue_setPriority_ind (λ s', config_panorama s' = Some p0)).
    + apply (Queue_setPriority_ind wf); [|done]. intros s' r ?. by apply wf_alter.
    + apply (Queue_setPriority_ind ready); [|done]. intros s' r ?.
      by apply ready_alter_priority.
  - apply IH; [done | done | by apply wf_enqueued | by eapply ready_enqueued].
Qed.

Lemma ready_refresh (view : View) (s : Adapter) :
  wf s → ready s → ready (__refresh view s) ∧ saturated (__refresh view s) ∨ __refresh view s = s.
Proof.
  intros Hwf Hs. unfold __refresh.
  destruct (config_panorama s) as [p0|] eqn:Hcfg; [left | by right].
  unfold __loadTiles. apply ready_Queue_start.
  destruct (rd_config _ Hs _ Hcfg) as [Hacc _].
  eapply (ready_foldl_loadTile p0).
  - by apply (Queue_setAllPriorities_ind (λ s', config_panorama s' = Some p0)).
  - intros c Hc. by eapply tilesToLoad_in_grid.
  - apply (Queue_setAllPriorities_ind wf); [|done]. intros s' r ?. by apply wf_alter.
  - apply (Queue_setAllPriorities_ind ready); [|done]. intros s' r ?.
    by apply ready_alter_priority.
Qed.

Lemma ready_settle (r : nat) (ok : bool) (s : Adapter) :
  wf s → ready s ∧ saturated s →
  ready (settle r ok s) ∧ saturated (settle r ok s).
Proof.
  intros Hwf [Hs Hsat].
  destruct (loading s !! r) as [job|] eqn:Hj; [|by rewrite settle_idle by auto].
  destruct (heap s !! r) as [t|] eqn:Ht; [|by rewrite settle_idle by auto].
  destruct (settle_eq r ok s job t Hj Ht) as (st & cs & ts & n & -> & _).
  by apply ready_Queue_start, ready_settled.
Qed.

Lemma acceptable_accepted (p : Panorama) : acceptable p = true → accepted p.
Proof.
  unfold acceptable. rewrite !andb_true_iff, !negb_true_iff.
  intros ((((Hw & Hc) & Hr) & H4) & H2).
  exists (ArgObject (mkFields (Some (width p)) (Some (cols p)) (Some (rows p))
                              (Some (tileUrl p)) (baseUrl p))).
  unfold checkPanorama. simpl. rewrite Hw, Hc, Hr, H4, H2. simpl. by destruct p.
Qed.

Lemma orderly_ind (P : list ViewerEvent → Prop) :
  P [] →
  (∀ c arg q evs, (∀ p, c = Some p → accepted p) → checkPanorama arg = inr q →
     P evs → P (VConfig c :: VLoadTexture arg :: evs)) →
  (∀ ev evs, (∀ c, ev ≠ VConfig c) → P evs → P (ev :: evs)) →
  ∀ evs, orderly evs = true → P evs.
Proof.
  intros Hnil Hconfig Hother evs.
  induction evs as [evs IH] using (induction_ltof1 _ length). unfold ltof in IH.
  destruct evs as [|ev evs]; [done|].
  destruct ev as [c|arg|view|r ok]; simpl.
  - destruct evs as [|[c'|arg|view|r ok] evs]; try done.
    rewrite !andb_true_iff. intros [[Hc Harg] Hevs].
    unfold accepts in Harg. destruct (checkPanorama arg) as [o|q] eqn:E; [done|].
    apply (Hconfig c arg q); [|done|apply IH; [simpl; lia | done]].
    intros p ->. by apply acceptable_accepted.
  - intros Hevs. apply Hother; [done|]. apply IH; [simpl; lia | done].
  - intros Hevs. apply Hother; [done|]. apply IH; [simpl; lia | done].
  - intros Hevs. apply Hother; [done|]. apply IH; [simpl; lia | done].
Qed.

Lemma ready_viewer_run (evs : list ViewerEvent) (s : Adapter) :
  orderly evs = true → wf s → ready s ∧ saturated s →
  ready (viewer_run evs s) ∧ saturated (viewer_run evs s).
Proof.
  intros Hevs. revert s. pattern evs. revert evs Hevs. apply orderly_ind.
  - done.
  - intros c arg q evs Hc Hq IH s Hwf Hs. simpl.
    apply IH; [by apply wf_adapter_loadTexture, wf_with_config|].
    destruct (adapter_loadTexture_fresh arg q (with_config c s) Hq) as (Hcfg & Ht & Hl).
    apply ready_fresh; [done|]. intros p Hp. rewrite Hcfg in Hp. simpl in Hp.
    split; [by apply Hc | done].
  - intros ev evs Hev IH s Hwf Hs. simpl.
    apply IH; [by apply wf_viewer_step|].
    destruct ev as [c|arg|view|r ok]; simpl.
    + by destruct (Hev c).
    + by apply ready_adapter_loadTexture.
    + destruct Hs as [Hs Hsat].
      by destruct (ready_refresh view s Hwf Hs) as [?| ->].
    + by apply ready_settle.
Qed.

Lemma saturated_init : saturated init.
Proof. by intros _. Qed.

(** The scheduler leaves no slot idle while the viewer is orderly: whenever
    fewer loads run than the limit allows, no known task is waiting with a
    positive priority. *)
Theorem no_idle_slot (evs : list ViewerEvent) (k : string) (r : nat) (t : Task) :
  orderly evs = true →
  (size (runningTasks (queue (viewer_run evs init)))
   < concurency (queue (viewer_run evs init)))%nat →
  (k, r) ∈ tasks (queue (viewer_run evs init)) →
  heap (viewer_run evs init) !! r = Some t →
  status t = PENDING → (priority t <= 0)%Q.
Proof.
  intros Hevs Hfree Hin Ht Hst.
  destruct (ready_viewer_run evs init Hevs wf_init (conj ready_init saturated_init))
    as [_ Hsat].
  pose proof (Queue_next_None _ (Hsat Hfree) _ _ _ Hin Ht) as Hno.
  destruct (Qlt_le_dec 0 (priority t)) as [Hpos|Hle]; [|done].
  by destruct Hno.
Qed.

Lemma no_idle_slot_witness :
  (priority (mkTask "0x0" 0 (mkTile 0 0) PENDING) <= 0)%Q.
Proof.
  apply (no_idle_slot turned_away "0x0" 0%nat).
  - reflexivity.
  - vm_compute. lia.
  - vm_compute. left.
  - vm_compute. reflexivity.
  - reflexivity.
Defined.

(** While the viewer is orderly, a known task with status [RUNNING] has its
    image load outstanding and is for a tile of the grid of
    [psv.config.panorama]: [__drawTile] did not raise when the task was
    started, and the slot it holds is released when that load settles. *)
Theorem running_task_is_loading (evs : list ViewerEvent) (k : string) (r : nat)
    (t : Task) :
  orderly evs = true →
  (k, r) ∈ tasks (queue (viewer_run evs init)) →
  heap (viewer_run evs init) !! r = Some t →
  status t = RUNNING →
  ∃ job p, loading (viewer_run evs init) !! r = Some job
    ∧ config_panorama (viewer_run evs init) = Some p
    ∧ in_grid p (fn t).
Proof.
  intros Hevs Hin Ht Hst.
  destruct (ready_viewer_run evs init Hevs wf_init (conj ready_init saturated_init))
    as [Hs _].
  destruct (rd_loading _ Hs _ _ _ Hin Ht Hst) as [job Hj].
  destruct (rd_known _ Hs _ _ _ Hin Ht) as (p & Hcfg & Hgrid).
  by exists job, p.
Qed.

Lemma running_task_is_loading_witness :
  ∃ job p, loading (viewer_run corner_asked init) !! 3%nat = Some job
    ∧ config_panorama (viewer_run corner_asked init) = Some p
    ∧ in_grid p (mkTile 0 1).
Proof.
  apply (running_task_is_loading corner_asked "0x1" 3%nat
           (mkTask "0x1" (Math_PI / 2 - (1 # 10)) (mkTile 0 1) RUNNING)).
  - reflexivity.
  - vm_compute. do 3 right. left.
  - vm_compute. reflexivity.
  - reflexivity.
Defined.

(** ** The sizes stay as [loadTexture] set them *)

Lemma same_setup_Queue_start (s : Adapter) : same_setup s (Queue_start s).
Proof.
  apply (Queue_start_ind (same_setup s)); [|done].
  intros s' r k t l H _ _ _ _ _ _ _. exact H.
Qed.

Lemma same_setup_loadTiles (cands : list Candidate) (s : Adapter) :
  same_setup s (__loadTiles cands s).
Proof.
  unfold __loadTiles.
  apply (Queue_start_ind (same_setup s));
    [intros s' r k t l H _ _ _ _ _ _ _; exact H|].
  assert (H0 : same_setup s (Queue_setAllPriorities 0 s))
    by by apply (Queue_setAllPriorities_ind (same_setup s)).
  revert H0. generalize (Queue_setAllPriorities 0 s).
  induction cands as [|c cands IH]; intros s0 H0; simpl; [done|].
  apply IH. by apply (loadTile_ind (same_setup s)).
Qed.

Lemma same_setup_settle (r : nat) (ok : bool) (s : Adapter) :
  same_setup s (settle r ok s).
Proof.
  destruct (loading s !! r) as [job|] eqn:Hj; [|by rewrite settle_idle by auto].
  destruct (heap s !! r) as [t|] eqn:Ht; [|by rewrite settle_idle by auto].
  destruct (settle_eq r ok s job t Hj Ht) as (st & cs & ts & n & -> & _).
  apply (Queue_start_ind (same_setup s)); [|done].
  intros s' r' k t' l H _ _ _ _ _ _ _. exact H.
Qed.

Lemma same_setup_within (evs : list ViewerEvent) (s : Adapter) :
  forallb within_load evs = true → same_setup s (viewer_run evs s).
Proof.
  revert s. induction evs as [|ev evs IH]; intros s; simpl; [done|].
  intros [Hev Hevs]%andb_true_iff.
  destruct (IH (viewer_step s ev) Hevs) as (E1 & E2 & E3).
  assert (Hstep : same_setup s (viewer_step s ev)).
  { destruct ev as [c|arg|view|r ok]; try done; simpl.
    - unfold __refresh. destruct (config_panorama s); [|done].
      apply same_setup_loadTiles.
    - apply same_setup_settle. }
  destruct Hstep as (F1 & F2 & F3). unfold same_setup. by rewrite E1, E2, E3.
Qed.

(** The viewer configures the panorama [p] and loads it: until the next
    load, [psv.config.panorama] is [p] and the tile sizes are the ones
    computed from [p]. *)
Lemma loaded_setup (s0 : Adapter) (arg : PanoramaArg) (p : Panorama)
    (evs : list ViewerEvent) :
  checkPanorama arg = inr p → forallb within_load evs = true →
  config_panorama (viewer_run (VConfig (Some p) :: VLoadTexture arg :: evs) s0) = Some p
  ∧ colSize (props (viewer_run (VConfig (Some p) :: VLoadTexture arg :: evs) s0))
    = (inject_Z (width p) / inject_Z (cols p))%Q
  ∧ rowSize (props (viewer_run (VConfig (Some p) :: VLoadTexture arg :: evs) s0))
    = (inject_Z (width p) / 2 / inject_Z (rows p))%Q.
Proof.
  intros Hp Hevs. cbn [viewer_run foldl viewer_step].
  fold (viewer_run evs (adapter_loadTexture arg (with_config (Some p) s0)).2).
  destruct (same_setup_within evs (adapter_loadTexture arg (with_config (Some p) s0)).2
              Hevs) as (-> & -> & ->).
  destruct (adapter_loadTexture_fresh arg p (with_config (Some p) s0) Hp) as (-> & _).
  unfold adapter_loadTexture. by rewrite Hp.
Qed.

(** ** Where the tile lands on its canvas *)

Lemma rect_bounds (W q c : Q) :
  (0 < W)%Q → (0 < q)%Q → (0 <= c)%Q → (c + 1 <= q)%Q →
  (0 <= c * (W / 4 / q))%Q
  ∧ (c * (W / 4 / q) + W / 4 / q <= W / 4)%Q
  ∧ ((c + 1 == q)%Q → (c * (W / 4 / q) + W / 4 / q == W / 4)%Q).
Proof.
  intros HW Hq Hc0 Hc1.
  assert (Hq0 : ¬ (q == 0)%Q) by (intros E; rewrite E in Hq; by apply Qlt_irrefl in Hq).
  assert (Hpos : (0 < W / 4 / q)%Q).
  { apply Qlt_shift_div_l; [done|]. rewrite Qmult_0_l.
    apply Qlt_shift_div_l; [done|]. by rewrite Qmult_0_l. }
  assert (Hfull : (q * (W / 4 / q) == W / 4)%Q) by by field.
  set (w := (W / 4 / q)%Q) in *.
  split; [|split].
  - apply Qmult_le_0_compat; lra.
  - rewrite <- Hfull.
    assert (E : (c * w + w == (c + 1) * w)%Q) by ring. rewrite E.
    apply Qmult_le_compat_r; lra.
  - intros E. rewrite <- Hfull, <- E. ring.
Qed.

Lemma tile_rect_bounds (W C cc : Z) :
  0 < W → 0 < C / 4 → C = 4 * (C / 4) → 0 ≤ cc < C / 4 →
  (0 <= inject_Z cc * (inject_Z W / inject_Z C))%Q
  ∧ (inject_Z cc * (inject_Z W / inject_Z C) + inject_Z W / inject_Z C
     <= inject_Z W / 4)%Q
  ∧ (cc = C / 4 - 1 →
     (inject_Z cc * (inject_Z W / inject_Z C) + inject_Z W / inject_Z C
      == inject_Z W / 4)%Q).
Proof.
  intros HW Hq HC Hcc.
  assert (HqQ : (0 < inject_Z (C / 4))%Q) by (rewrite <- (Zlt_Qlt 0); lia).
  assert (HWQ : (0 < inject_Z W)%Q) by (rewrite <- (Zlt_Qlt 0); lia).
  assert (Hq0 : ¬ (inject_Z (C / 4) == 0)%Q)
    by (intros E; rewrite E in HqQ; by apply Qlt_irrefl in HqQ).
  assert (HCQ : (inject_Z C == 4 * inject_Z (C / 4))%Q).
  { rewrite HC at 1. by rewrite inject_Z_mult. }
  assert (Hsz : (inject_Z W / inject_Z C == inject_Z W / 4 / inject_Z (C / 4))%Q).
  { rewrite HCQ. by field. }
  assert (Hc0 : (0 <= inject_Z cc)%Q) by (rewrite <- (Zle_Qle 0); lia).
  assert (Hc1 : (inject_Z cc + 1 <= inject_Z (C / 4))%Q).
  { change 1%Q with (inject_Z 1). rewrite <- inject_Z_plus, <- Zle_Qle. lia. }
  rewrite Hsz.
  destruct (rect_bounds _ _ _ HWQ HqQ Hc0 Hc1) as (H1 & H2 & H3).
  split; [done|]. split; [done|]. intros E. apply H3.
  change 1%Q with (inject_Z 1). rewrite <- inject_Z_plus.
  apply inject_Z_injective. lia.
Qed.

Lemma tile_rect_bounds_rows (W R rr : Z) :
  0 < W → 0 < R / 2 → R = 2 * (R / 2) → 0 ≤ rr < R / 2 →
  (0 <= inject_Z rr * (inject_Z W / 2 / inject_Z R))%Q
  ∧ (inject_Z rr * (inject_Z W / 2 / inject_Z R) + inject_Z W / 2 / inject_Z R
     <= inject_Z W / 4)%Q.
Proof.
  intros HW Hq HR Hrr.
  assert (HqQ : (0 < inject_Z (R / 2))%Q) by (rewrite <- (Zlt_Qlt 0); lia).
  assert (HWQ : (0 < inject_Z W)%Q) by (rewrite <- (Zlt_Qlt 0); lia).
  assert (Hq0 : ¬ (inject_Z (R / 2) == 0)%Q)
    by (intros E; rewrite E in HqQ; by apply Qlt_irrefl in HqQ).
  assert (HRQ : (inject_Z R == 2 * inject_Z (R / 2))%Q).
  { rewrite HR at 1. by rewrite inject_Z_mult. }
  assert (Hsz : (inject_Z W / 2 / inject_Z R == inject_Z W / 4 / inject_Z (R / 2))%Q).
  { rewrite HRQ. by field. }
  assert (Hc0 : (0 <= inject_Z rr)%Q) by (rewrite <- (Zle_Qle 0); lia).
  assert (Hc1 : (inject_Z rr + 1 <= inject_Z (R / 2))%Q).
  { change 1%Q with (inject_Z 1). rewrite <- inject_Z_plus, <- Zle_Qle. lia. }
  rewrite Hsz.
  destruct (rect_bounds _ _ _ HWQ HqQ Hc0 Hc1) as (H1 & H2 & _).
  by split.
Qed.

Lemma drawTile_begin_offsets (s : Adapter) (p : Panorama) (t : Tile) (job : DrawJob) :
  config_panorama s = Some p → drawTile_begin s t = Some job →
  job_colInCanvas job = Z.rem (col t) (cols p / 4)
  ∧ job_rowInCanvas job = Z.rem (row t) (rows p / 2).
Proof.
  unfold drawTile_begin. intros -> H. repeat case_match; by simplify_eq/=.
Qed.

(** The rectangle of a tile when [psv.config.panorama] is the accepted
    configuration [p] and the tile sizes are the ones computed from [p]. *)
Lemma tile_rect (s : Adapter) (p : Panorama) (t : Tile) (job : DrawJob) (ok : bool) :
  config_panorama s = Some p → accepted p →
  colSize (props s) = (inject_Z (width p) / inject_Z (cols p))%Q →
  rowSize (props s) = (inject_Z (width p) / 2 / inject_Z (rows p))%Q →
  0 < width p → in_grid p t → drawTile_begin s t = Some job →
  ∃ x y w h,
    op_rect (settle_op job ok s) = Some (x, y, w, h)
    ∧ w = (inject_Z (width p) / inject_Z (cols p))%Q
    ∧ h = (inject_Z (width p) / 2 / inject_Z (rows p))%Q
    ∧ (0 <= x ∧ x + w <= inject_Z (width p) / 4
       ∧ 0 <= y ∧ y + h <= inject_Z (width p) / 4)%Q
    ∧ (job_colInCanvas job = cols p / 4 - 1 → (x + w == inject_Z (width p) / 4)%Q).
Proof.
  intros Hcfg Hacc Hcs Hrs HW Hgrid Hjob.
  destruct (drawTile_begin_offsets s p t job Hcfg Hjob) as [Hcc Hrc].
  apply accepted_facts in Hacc as (_ & Hc0 & Hr0 & H4 & H2).
  destruct Hgrid as [Hcol Hrow].
  destruct (quarter_of_cols (cols p)) as [Hq HC]; [lia | done |].
  destruct (half_of_rows (rows p)) as [Hh HR]; [lia | done |].
  rewrite Z.rem_mod_nonneg in Hcc by lia. rewrite Z.rem_mod_nonneg in Hrc by lia.
  pose proof (Z.mod_pos_bound (col t) (cols p / 4) Hq) as Hcb.
  pose proof (Z.mod_pos_bound (row t) (rows p / 2) Hh) as Hrb.
  rewrite <- Hcc in Hcb. rewrite <- Hrc in Hrb.
  destruct (tile_rect_bounds (width p) (cols p) (job_colInCanvas job) HW Hq HC Hcb)
    as (Hx0 & Hx1 & Hx2).
  destruct (tile_rect_bounds_rows (width p) (rows p) (job_rowInCanvas job) HW Hh HR Hrb)
    as (Hy0 & Hy1).
  exists (inject_Z (job_colInCanvas job) * colSize (props s))%Q,
         (inject_Z (job_rowInCanvas job) * rowSize (props s))%Q,
         (colSize (props s)), (rowSize (props s)).
  split; [unfold settle_op; by destruct ok|].
  rewrite Hcs, Hrs. done.
Qed.

(** The viewer configures the panorama [p], of positive width, and loads
    it.  Until the next load, a tile of the grid is drawn inside the square
    of side [width / 4] at the origin of its canvas, in a rectangle of
    [width / cols] by [width / 2 / rows]. *)
Theorem tile_drawn_inside_quarter (s0 : Adapter) (arg : PanoramaArg) (p : Panorama)
    (evs : list ViewerEvent) (t : Tile) (job : DrawJob) (ok : bool) :
  checkPanorama arg = inr p → forallb within_load evs = true →
  0 < width p → in_grid p t →
  drawTile_begin (viewer_run (VConfig (Some p) :: VLoadTexture arg :: evs) s0) t
  = Some job →
  ∃ x y w h,
    op_rect (settle_op job ok
               (viewer_run (VConfig (Some p) :: VLoadTexture arg :: evs) s0))
    = Some (x, y, w, h)
    ∧ (w * inject_Z (cols p) == inject_Z (width p))%Q
    ∧ (h * inject_Z (rows p) * 2 == inject_Z (width p))%Q
    ∧ (0 <= x ∧ x + w <= inject_Z (width p) / 4
       ∧ 0 <= y ∧ y + h <= inject_Z (width p) / 4)%Q.
Proof.
  intros Hp Hevs HW Hgrid Hjob.
  destruct (loaded_setup s0 arg p evs Hp Hevs) as (Hcfg & Hcs & Hrs).
  assert (Hacc : accepted p) by by exists arg.
  destruct (tile_rect _ p t job ok Hcfg Hacc Hcs Hrs HW Hgrid Hjob)
    as (x & y & w & h & Hop & -> & -> & Hb & _).
  exists x, y, (inject_Z (width p) / inject_Z (cols p))%Q,
         (inject_Z (width p) / 2 / inject_Z (rows p))%Q.
  split; [done|].
  destruct (accepted_facts p Hacc) as (_ & Hc0 & Hr0 & _).
  assert (¬ (inject_Z (cols p) == 0)%Q).
  { change 0%Q with (inject_Z 0). by rewrite inject_Z_injective. }
  assert (¬ (inject_Z (rows p) == 0)%Q).
  { change 0%Q with (inject_Z 0). by rewrite inject_Z_injective. }
  split; [by field|]. split; [by field | done].
Qed.

Lemma tile_drawn_inside_quarter_witness :
  ∃ x y w h,
    op_rect (settle_op (mkJob "5x6" 5 5 1 2) true
               (viewer_run (VConfig (Some checked16x8) :: VLoadTexture panorama16x8
                            :: [VRefresh corner_view]) init))
    = Some (x, y, w, h)
    ∧ (w * inject_Z (cols checked16x8) == inject_Z (width checked16x8))%Q
    ∧ (h * inject_Z (rows checked16x8) * 2 == inject_Z (width checked16x8))%Q
    ∧ (0 <= x ∧ x + w <= inject_Z (width checked16x8) / 4
       ∧ 0 <= y ∧ y + h <= inject_Z (width checked16x8) / 4)%Q.
Proof.
  apply (tile_drawn_inside_quarter init panorama16x8 checked16x8
           [VRefresh corner_view] (mkTile 5 6)).
  - reflexivity.
  - reflexivity.
  - simpl. lia.
  - unfold in_grid. simpl. lia.
  - vm_compute. reflexivity.
Defined.

(** The viewer configures the panorama [p] and loads it, and the cap
    [getMaxCanvasWidth() / 2] is below [width / 4].  Then the tiles of the
    last column of a canvas end at [width / 4], beyond the width this call of
    [loadTexture] gave to the canvas. *)
Theorem capped_canvas_cuts_last_column (s0 : Adapter) (arg : PanoramaArg)
    (p : Panorama) (evs : list ViewerEvent) (t : Tile) (job : DrawJob) (ok : bool)
    (maxCanvasWidth : Q) :
  checkPanorama arg = inr p → forallb within_load evs = true →
  0 < width p → in_grid p t →
  drawTile_begin (viewer_run (VConfig (Some p) :: VLoadTexture arg :: evs) s0) t
  = Some job →
  job_colInCanvas job = cols p / 4 - 1 →
  (maxCanvasWidth / 2 < inject_Z (width p) / 4)%Q →
  ∃ x y w h,
    op_rect (settle_op job ok
               (viewer_run (VConfig (Some p) :: VLoadTexture arg :: evs) s0))
    = Some (x, y, w, h)
    ∧ (canvas_width p maxCanvasWidth < x + w)%Q.
Proof.
  intros Hp Hevs HW Hgrid Hjob Hlast Hcap.
  destruct (loaded_setup s0 arg p evs Hp Hevs) as (Hcfg & Hcs & Hrs).
  assert (Hacc : accepted p) by by exists arg.
  destruct (tile_rect _ p t job ok Hcfg Hacc Hcs Hrs HW Hgrid Hjob)
    as (x & y & w & h & Hop & _ & _ & _ & Hedge).
  exists x, y, w, h. split; [done|]. rewrite (Hedge Hlast).
  unfold canvas_width, Math_min.
  destruct (Qlt_le_dec _ _) as [?|Hle]; [done | by apply Qle_not_lt in Hle].
Qed.

Lemma capped_canvas_cuts_last_column_witness :
  ∃ x y w h,
    op_rect (settle_op (mkJob "3x0" 6 6 3 0) true
               (viewer_run (VConfig (Some checked16x8) :: VLoadTexture panorama16x8
                            :: [VRefresh corner_view]) init))
    = Some (x, y, w, h)
    ∧ (canvas_width checked16x8 2048 < x + w)%Q.
Proof.
  apply (capped_canvas_cuts_last_column init panorama16x8 checked16x8
           [VRefresh corner_view] (mkTile 3 0)).
  - reflexivity.
  - reflexivity.
  - simpl. lia.
  - unfold in_grid. simpl. lia.
  - vm_compute. reflexivity.
  - reflexivity.
  - reflexivity.
Defined.

(** ** Meshes *)

(** Mesh [i] of [createMesh] starts at the longitude and colatitude of the
    cell that [__loadBase] draws on canvas [i]: a quarter turn per column,
    counted from [-PI / 2], and a quarter turn per row. *)
Theorem createMesh_matches_cells (i : nat) (g : SphereGeometry) :
  createMesh !! i = Some g →
  (phiStart g == (inject_Z (loadBase_cell (Z.of_nat i)).1 - 1) * (Math_PI / 2))%Q
  ∧ (thetaStart g == inject_Z (loadBase_cell (Z.of_nat i)).2 * (Math_PI / 2))%Q
  ∧ (phiLength g == Math_PI / 2)%Q ∧ (thetaLength g == Math_PI / 2)%Q.
Proof.
  intros Hg. do 8 (destruct i as [|i]; [by simplify_eq/= | ]). done.
Qed.

Lemma createMesh_matches_cells_witness :
  (phiStart (mkGeometry (Math_PI / 2) (Math_PI / 2) (Math_PI / 2) (Math_PI / 2))
   == (inject_Z (loadBase_cell 3).1 - 1) * (Math_PI / 2))%Q.
Proof.
  destruct (createMesh_matches_cells 3
              (mkGeometry (Math_PI / 2) (Math_PI / 2) (Math_PI / 2) (Math_PI / 2)))
    as [H _]; [reflexivity | exact H].
Defined.

Lemma for_range_S (n : nat) (body : Group → nat → option Group) (g : Group) :
  for_range (S n) body g = for_range n body g ≫= λ g', body g' n.
Proof. unfold for_range. by rewrite seq_S, foldl_app. Qed.

(** A loop that rewrites the material of child [i] with [f i] and disposes
    the textures [d]. *)
Lemma for_range_spec (f : nat → Material → Material) (d : Material → list nat)
    (body : Group → nat → option Group) (n : nat) (g : Group) :
  (∀ g0 i, body g0 i
           = m ← children g0 !! i;
             Some (mkGroup (<[i := f i m]> (children g0)) (disposed g0 ++ d m))) →
  (n ≤ length (children g))%nat →
  ∃ g', for_range n body g = Some g'
    ∧ length (children g') = length (children g)
    ∧ (∀ i m, children g !! i = Some m →
         children g' !! i = Some (if decide (i < n)%nat then f i m else m))
    ∧ disposed g' = disposed g ++ (take n (children g) ≫= d).
Proof.
  intros Hbody. induction n as [|n IH]; intros Hn.
  - exists g. split; [done|]. split; [done|]. split; [done|].
    by rewrite take_0, app_nil_r.
  - destruct IH as (g1 & Hg1 & Hlen & Hat & Hd); [lia|].
    destruct (lookup_lt_is_Some_2 (children g) n) as [m Hm]; [lia|].
    rewrite for_range_S, Hg1. simpl. rewrite Hbody, (Hat _ _ Hm).
    rewrite decide_False by lia. simpl.
    eexists. split; [done|]. simpl. split; [by rewrite length_insert|].
    split.
    + intros i m' Hm'. destruct (decide (i = n)) as [->|Hne].
      * rewrite list_lookup_insert_eq by (rewrite Hlen; lia).
        rewrite decide_True by lia. congruence.
      * rewrite list_lookup_insert_ne by done. rewrite (Hat _ _ Hm').
        destruct (decide (i < n)%nat); [by rewrite decide_True by lia|].
        by rewrite decide_False by lia.
    + rewrite Hd, (take_S_r _ _ _ Hm), bind_app, <- app_assoc. simpl.
      by rewrite app_nil_r.
Qed.

Lemma for_range_short (body : Group → nat → option Group) (n : nat) (g : Group) :
  (∀ g0 i, children g0 !! i = None → body g0 i = None) →
  (∀ g0 g1 i, body g0 i = Some g1 → length (children g1) = length (children g0)) →
  (length (children g) < n)%nat → for_range n body g = None.
Proof.
  intros Hnone Hlen. induction n as [|n IH]; intros Hn; [lia|].
  rewrite for_range_S.
  assert (Hkeep : ∀ k g', for_range k body g = Some g' →
            length (children g') = length (children g)).
  { clear -Hlen. induction k as [|k IHk]; intros g' Hg'.
    - unfold for_range in Hg'. simpl in Hg'. by simplify_eq.
    - rewrite for_range_S in Hg'.
      destruct (for_range k body g) as [g1|] eqn:E; [|done]. simpl in Hg'.
      rewrite (Hlen _ _ _ Hg'). by apply IHk. }
  destruct (for_range n body g) as [g1|] eqn:E; [|done]. simpl.
  apply Hnone, lookup_ge_None_2. rewrite (Hkeep _ _ E). lia.
Qed.

Lemma setTexture_at_eq (texture : list nat) (g0 : Group) (i : nat) :
  setTexture_at texture g0 i
  = m ← children g0 !! i;
    Some (mkGroup (<[i := mkMaterial (texture !! i) (mat_opacity m) (mat_transparent m)]>
                     (children g0))
                  (disposed g0 ++ option_list (mat_map m))).
Proof.
  unfold setTexture_at. destruct (children g0 !! i) as [m|]; [|done]. simpl.
  destruct (mat_map m); simpl; [done | by rewrite app_nil_r].
Qed.

Lemma setTextureOpacity_at_eq (o : Q) (g0 : Group) (i : nat) :
  setTextureOpacity_at o g0 i
  = m ← children g0 !! i;
    Some (mkGroup (<[i := mkMaterial (mat_map m) o (if Qlt_le_dec o 1 then true else false)]>
                     (children g0))
                  (disposed g0 ++ [])).
Proof.
  unfold setTextureOpacity_at. destruct (children g0 !! i) as [m|]; [|done]. simpl.
  by rewrite app_nil_r.
Qed.

Lemma setTexture_spec (texture : list nat) (g : Group) :
  if decide (8 ≤ length (children g))%nat then
    ∃ g', setTexture texture g = Some g'
      ∧ length (children g') = length (children g)
      ∧ (∀ i m, children g !! i = Some m →
           children g' !! i
           = Some (if decide (i < 8)%nat
                   then mkMaterial (texture !! i) (mat_opacity m) (mat_transparent m)
                   else m))
      ∧ disposed g' = disposed g ++ omap mat_map (take 8 (children g))
  else setTexture texture g = None.
Proof.
  case_decide as Hlen.
  - destruct (for_range_spec
                (λ i m, mkMaterial (texture !! i) (mat_opacity m) (mat_transparent m))
                (λ m, option_list (mat_map m)) (setTexture_at texture) 8 g
                (setTexture_at_eq texture) Hlen) as (g' & Hg' & Hl & Hat & Hd).
    exists g'. repeat split; try done. rewrite Hd. f_equal.
    generalize (take 8 (children g)). clear.
    intros l. induction l as [|m l IH]; [done|]. cbn [mbind list_bind omap list_omap].
    fold (mbind (M:=list) (λ m : Material, option_list (mat_map m)) l).
    fold (omap (M:=list) mat_map l). rewrite IH. by destruct (mat_map m).
  - apply for_range_short; [| |lia].
    + intros g0 i Hi. unfold setTexture_at. by rewrite Hi.
    + intros g0 g1 i. unfold setTexture_at.
      destruct (children g0 !! i); intros [= <-]. simpl. by rewrite length_insert.
Qed.

(** [setTexture] gives the first eight children the first eight textures
    and disposes every map they had, in order; it leaves the other children
    and the opacity alone.  It raises when the group has fewer than eight
    children. *)
Theorem setTexture_installs (texture : list nat) (g : Group) :
  if decide (8 ≤ length (children g))%nat then
    ∃ g', setTexture texture g = Some g'
      ∧ length (children g') = length (children g)
      ∧ (∀ i m, children g !! i = Some m →
           children g' !! i
           = Some (if decide (i < 8)%nat
                   then mkMaterial (texture !! i) (mat_opacity m) (mat_transparent m)
                   else m))
      ∧ disposed g' = disposed g ++ omap mat_map (take 8 (children g))
  else setTexture texture g = None.
Proof. apply setTexture_spec. Qed.

Lemma omap_take_maps (t : list nat) (l : list Material) :
  (∀ i x, t !! i = Some x → ∃ m, l !! i = Some m ∧ mat_map m = Some x) →
  omap mat_map (take (length t) l) = t.
Proof.
  revert l. induction t as [|x t IH]; intros l Hl; [done|].
  destruct (Hl 0%nat x eq_refl) as (m & Hm & Hx).
  destruct l as [|m' l]; [done|]. simpl in Hm. simplify_eq.
  cbn [length take omap list_omap]. rewrite Hx. f_equal.
  apply IH. intros i y Hy. by apply (Hl (S i)).
Qed.

(** The textures installed by one call of [setTexture] are the ones the
    next call disposes. *)
Theorem setTexture_disposes_previous (t1 t2 : list nat) (g g1 g2 : Group) :
  length t1 = 8%nat →
  setTexture t1 g = Some g1 → setTexture t2 g1 = Some g2 →
  disposed g2 = disposed g1 ++ t1.
Proof.
  intros Ht1 H1 H2.
  pose proof (setTexture_spec t1 g) as S1.
  pose proof (setTexture_spec t2 g1) as S2.
  destruct (decide (8 ≤ length (children g))%nat) as [L1|L1]; [|congruence].
  destruct S1 as (g1' & E1 & Hl1 & Hat1 & _). assert (g1' = g1) as -> by congruence.
  rewrite decide_True in S2 by lia.
  destruct S2 as (g2' & E2 & _ & _ & Hd2). assert (g2' = g2) as -> by congruence.
  rewrite Hd2. f_equal. rewrite <- Ht1. apply omap_take_maps.
  intros i x Hx.
  assert (Hi : (i < 8)%nat) by (rewrite <- Ht1; by eapply lookup_lt_Some).
  destruct (lookup_lt_is_Some_2 (children g) i) as [m Hm]; [lia|].
  eexists. split; [by apply Hat1|]. by rewrite decide_True by done.
Qed.

Lemma setTexture_disposes_previous_witness :
  ∃ g1 g2, setTexture (seq 0 8) fresh_group = Some g1
    ∧ setTexture (seq 8 8) g1 = Some g2
    ∧ disposed g2 = disposed g1 ++ seq 0 8.
Proof.
  eexists _, _. split; [vm_compute; reflexivity|]. split; [vm_compute; reflexivity|].
  apply (setTexture_disposes_previous (seq 0 8) (seq 8 8) fresh_group);
    vm_compute; reflexivity.
Defined.

(** [setTextureOpacity] changes the opacity of the first four children only:
    the other children, among them the meshes of canvases 4 to 7, keep
    theirs.  It raises when the group has fewer than four children. *)
Theorem setTextureOpacity_first_four (o : Q) (g : Group) :
  if decide (4 ≤ length (children g))%nat then
    ∃ g', setTextureOpacity o g = Some g'
      ∧ disposed g' = disposed g
      ∧ (∀ i m, children g !! i = Some m →
           children g' !! i
           = Some (if decide (i < 4)%nat
                   then mkMaterial (mat_map m) o (if Qlt_le_dec o 1 then true else false)
                   else m))
  else setTextureOpacity o g = None.
Proof.
  case_decide as Hlen.
  - destruct (for_range_spec
                (λ i m, mkMaterial (mat_map m) o (if Qlt_le_dec o 1 then true else false))
                (λ _, []) (setTextureOpacity_at o) 4 g
                (setTextureOpacity_at_eq o) Hlen) as (g' & Hg' & Hl & Hat & Hd).
    exists g'. repeat split; try done. rewrite Hd.
    assert (E : ∀ l : list Material, l ≫= (λ _ : Material, @nil nat) = [])
      by (intros l; induction l; [done | by simpl]).
    by rewrite E, app_nil_r.
  - apply for_range_short; [| |lia].
    + intros g0 i Hi. unfold setTextureOpacity_at. by rewrite Hi.
    + intros g0 g1 i. unfold setTextureOpacity_at.
      destruct (children g0 !! i); intros [= <-]. simpl. by rewrite length_insert.
Qed.

(** ** The first refresh after a load *)

Lemma Queue_clear_length (s : Adapter) :
  length (heap (Queue_clear s)) = length (heap s).
Proof.
  apply (Queue_clear_ind (λ s', length (heap s') = length (heap s))); [|done].
  intros s' r H. simpl. by rewrite length_alter.
Qed.

(** In the loop of [__loadTiles], started with no known task older than
    [n]: every recorded tile that is known stays known, a tile recorded
    by the loop is known, and the known tasks are not older than [n]. *)
Lemma loop_enqueues (n : nat) (cands : list Candidate) (s : Adapter) :
  wf s → (n ≤ length (heap s))%nat →
  (∀ k, k ∈ tiles (props s) → ∃ r, (k, r) ∈ tasks (queue s)) →
  (∀ k r, (k, r) ∈ tasks (queue s) → (n ≤ r)%nat) →
  (∀ k, k ∈ tiles (props (foldl loadTile s cands)) →
     ∃ r, (k, r) ∈ tasks (queue (foldl loadTile s cands)))
  ∧ (∀ k r, (k, r) ∈ tasks (queue (foldl loadTile s cands)) → (n ≤ r)%nat).
Proof.
  revert s. induction cands as [|c cands IH]; intros s Hwf Hn Hk Hr; simpl; [done|].
  rewrite loadTile_eq. case_decide as Hin.
  - assert (E : ∀ p, Queue_setPriority (tileId (tile c)) p s = s
                     ∨ ∃ r, Queue_setPriority (tileId (tile c)) p s
                            = with_heap (alter (set_priority p) r (heap s)) s).
    { intros p. unfold Queue_setPriority. destruct (obj_get _ _); eauto. }
    destruct (E (Math_PI / 2 - angle c)%Q) as [-> | [r ->]]; [by apply IH|].
    apply IH; simpl; [by apply wf_alter | by rewrite length_alter | done | done].
  - apply IH.
    + by apply wf_enqueued.
    + simpl. rewrite length_app. lia.
    + intros k Hk'. simpl in Hk'.
      assert (Hnd : NoDup (obj_keys (obj_set (tileId (tile c)) (length (heap s))
                                             (tasks (queue s)))))
        by (apply NoDup_obj_set, Hwf).
      destruct (decide (tileId (tile c) = k)) as [<-|Hne].
      * exists (length (heap s)). simpl. apply obj_get_Some_elem.
        by rewrite obj_get_set, decide_True.
      * destruct (Hk k) as [r Hkr]; [set_solver|]. exists r. simpl.
        apply obj_get_Some_elem. rewrite obj_get_set, decide_False by done.
        by apply (wf_elem s).
    + intros k r Hkr.
      apply elem_of_enqueued_tasks in Hkr as [[-> ->]|[_ Hkr]]; [done | eauto | done].
Qed.

(** The viewer configures a panorama and loads it, whatever happened before,
    also when tiles with the same ids were loaded before.  At the first
    refresh every tile that the refresh lists has a known task, created
    after the load, that is pending or running: a load starts the tiles
    from scratch. *)
Theorem reload_requests_every_tile (evs : list ViewerEvent) (arg : PanoramaArg)
    (p : Panorama) (view : View) (c : Candidate) :
  checkPanorama arg = inr p → c ∈ tilesToLoad p view →
  ∃ r t,
    (tileId (tile c), r)
    ∈ tasks (queue (viewer_run [VConfig (Some p); VLoadTexture arg; VRefresh view]
                               (viewer_run evs init)))
    ∧ heap (viewer_run [VConfig (Some p); VLoadTexture arg; VRefresh view]
                       (viewer_run evs init)) !! r = Some t
    ∧ (length (heap (viewer_run evs init)) ≤ r)%nat
    ∧ id t = tileId (tile c)
    ∧ (status t = PENDING ∨ status t = RUNNING).
Proof.
  intros Hp Hc. set (s0 := viewer_run evs init).
  set (s := viewer_run [VConfig (Some p); VLoadTexture arg; VRefresh view] s0).
  assert (Hwf0 : wf s0) by apply wf_viewer_run, wf_init.
  assert (Hwf : wf s) by by apply wf_viewer_run.
  assert (Hlife : life s).
  { apply life_viewer_run; [done|]. apply life_viewer_run; [apply wf_init | apply life_init]. }
  set (s1 := (adapter_loadTexture arg (with_config (Some p) s0)).2).
  assert (Hwf1 : wf s1) by by apply wf_adapter_loadTexture, wf_with_config.
  destruct (adapter_loadTexture_fresh arg p (with_config (Some p) s0) Hp)
    as (Hcfg & Htasks & _). fold s1 in Hcfg, Htasks. simpl in Hcfg.
  assert (Htiles : tiles (props s1) = ∅ ∧ length (heap s1) = length (heap s0)).
  { unfold s1, adapter_loadTexture. rewrite Hp. simpl.
    split; [done | by rewrite Queue_clear_length]. }
  destruct Htiles as [Htiles Hlen].
  assert (Hs : s = __loadTiles (tilesToLoad p view) s1).
  { unfold s. simpl. fold s1. unfold __refresh. by rewrite Hcfg. }
  destruct (setAllPriorities_frame 0 s1) as [Hq Hl].
  set (s2 := Queue_setAllPriorities 0 s1) in *.
  assert (Hprops2 : props s2 = props s1)
    by by apply (Queue_setAllPriorities_ind (λ s', props s' = props s1)).
  destruct (loop_enqueues (length (heap s0)) (tilesToLoad p view) s2) as [Hknown Hnew].
  { apply (Queue_setAllPriorities_ind wf); [|done]. intros; by apply wf_alter. }
  { lia. }
  { intros k Hk. rewrite Hprops2, Htiles in Hk. set_solver. }
  { intros k r Hk. rewrite Hq, Htasks in Hk. by apply not_elem_of_nil in Hk. }
  destruct (Hknown (tileId (tile c))) as [r Hr].
  { rewrite loadTiles_loop_tiles. apply elem_of_union_r, elem_of_list_to_set.
    apply list_elem_of_fmap. by exists c. }
  destruct (Queue_start_frame (foldl loadTile s2 (tilesToLoad p view))) as (Ht & _).
  assert (Hin : (tileId (tile c), r) ∈ tasks (queue s)).
  { rewrite Hs. unfold __loadTiles. fold s2. by rewrite Ht. }
  destruct (wf_task _ Hwf _ _ Hin) as (t & Hlook & Hid).
  exists r, t. split; [done|]. split; [done|]. split; [by eapply Hnew|].
  split; [done|]. by eapply (life_known _ Hlife).
Qed.

Lemma reload_requests_every_tile_witness :
  ∃ r t,
    (tileId (tile (cand 0 0 (1 # 10))), r)
    ∈ tasks (queue (viewer_run [VConfig (Some checked16x8); VLoadTexture panorama16x8;
                                VRefresh corner_view]
                               (viewer_run corner_asked init)))
    ∧ heap (viewer_run [VConfig (Some checked16x8); VLoadTexture panorama16x8;
                        VRefresh corner_view]
                       (viewer_run corner_asked init)) !! r = Some t
    ∧ (length (heap (viewer_run corner_asked init)) ≤ r)%nat
    ∧ id t = tileId (tile (cand 0 0 (1 # 10)))
    ∧ (status t = PENDING ∨ status t = RUNNING).
Proof.
  apply (reload_requests_every_tile corner_asked panorama16x8 checked16x8 corner_view).
  - reflexivity.
  - vm_compute. left.
Defined.

(** ** A second refresh with the same view *)

Lemma reprioritised_refl (s : Adapter) : reprioritised s s.
Proof. split; try done. intros r t Ht. exists t. eauto 10. Qed.

Lemma reprioritised_alter (s s' : Adapter) (p : Q) (r : nat) :
  r ∈ obj_values (tasks (queue s)) → reprioritised s s' →
  reprioritised s (with_heap (alter (set_priority p) r (heap s')) s').
Proof.
  intros Hr [H1 H2 H3 H4 H5 H6 H7]. split; simpl; try done.
  - by rewrite length_alter.
  - intros r' t Ht. destruct (H7 _ _ Ht) as (t' & Ht' & Hid & Hfn & Hst & Hp).
    eexists. split; [by apply lookup_alter_Some_inv|].
    case_decide as E; [subst r'; simpl; auto | auto].
Qed.

Lemma reprioritised_setAll (s : Adapter) :
  reprioritised s (Queue_setAllPriorities 0 s).
Proof.
  unfold Queue_setAllPriorities.
  assert (H : ∀ l s', (∀ r, r ∈ l → r ∈ obj_values (tasks (queue s))) →
            reprioritised s s' →
            reprioritised s
              (foldl (λ s0 r, with_heap (alter (set_priority 0) r (heap s0)) s0) s' l)).
  { induction l as [|r l IH]; intros s' Hl Hs'; simpl; [done|].
    apply IH; [intros; apply Hl; by right|].
    apply reprioritised_alter; [apply Hl; left | done]. }
  apply H; [done | apply reprioritised_refl].
Qed.

Lemma reprioritised_loop (cands : list Candidate) (s s' : Adapter) :
  (∀ c, c ∈ cands → tileId (tile c) ∈ tiles (props s)) →
  reprioritised s s' → reprioritised s (foldl loadTile s' cands).
Proof.
  revert s'. induction cands as [|c cands IH]; intros s' Hin Hs'; simpl; [done|].
  apply IH; [intros; apply Hin; by right|].
  rewrite loadTile_eq, decide_True
    by (rewrite (rp_props _ _ Hs'); apply Hin; left).
  unfold Queue_setPriority.
  destruct (obj_get (tileId (tile c)) (tasks (queue s'))) as [r|] eqn:E; [|done].
  apply reprioritised_alter; [|done].
  rewrite (rp_queue _ _ Hs') in E. apply obj_get_Some_elem in E.
  apply elem_of_obj_values. eauto.
Qed.

Lemma listed_priority_known (cands : list Candidate) (s : Adapter) (d : string → Q) :
  wf s → (∀ k, known_priority k (d k) s) →
  ∀ k, known_priority k (listed_priority cands k (d k)) (foldl loadTile s cands).
Proof.
  revert s d. induction cands as [|c cands IH]; intros s d Hwf Hd k; [apply Hd|].
  pose (d' := λ k0 : string, if decide (tileId (tile c) = k0)
                             then (Math_PI / 2 - angle c)%Q else d k0).
  change (known_priority k (listed_priority cands k (d' k))
                         (foldl loadTile (loadTile s c) cands)).
  apply (IH (loadTile s c) d').
  - apply loadTile_ind; [| |done]; intros; [by apply wf_alter | by apply wf_enqueued].
  - intros k'. unfold d'. case_decide as E.
    + subst k'. by apply known_priority_set.
    + by apply known_priority_other.
Qed.

Lemma wf_setAll (s : Adapter) : wf s → wf (Queue_setAllPriorities 0 s).
Proof.
  intros Hwf. apply Queue_setAllPriorities_ind; [|done]. intros; by apply wf_alter.
Qed.

Lemma setAll_known_zero (s : Adapter) (k : string) :
  wf s → known_priority k 0 (Queue_setAllPriorities 0 s).
Proof.
  intros Hwf r Hr. destruct (setAllPriorities_frame 0 s) as [Hq Hlen].
  rewrite Hq in Hr. apply obj_get_Some_elem in Hr.
  destruct (wf_task _ Hwf _ _ Hr) as (t & Ht & _).
  destruct (heap (Queue_setAllPriorities 0 s) !! r) as [t1|] eqn:Ht1.
  - exists t1. split; [done|].
    destruct (setAllPriorities_lookup 0 s _ _ Ht1) as (t0 & _ & Hp).
    apply Hp. apply elem_of_obj_values. eauto.
  - apply lookup_ge_None in Ht1. apply lookup_lt_Some in Ht. lia.
Qed.

Lemma known_priority_Queue_start (k : string) (p : Q) (s : Adapter) :
  known_priority k p s → known_priority k p (Queue_start s).
Proof.
  intros Hk r Hr. destruct (Queue_start_frame s) as (Ht & _). rewrite Ht in Hr.
  destruct (Hk _ Hr) as (t & Hlook & Hp).
  destruct (Queue_start_tasks s _ _ Hlook) as (t' & Ht' & _ & _ & Hp' & _).
  exists t'. split; [done | congruence].
Qed.

Lemma loadTiles_known (cands : list Candidate) (s : Adapter) (k : string) :
  wf s →
  known_priority k (listed_priority cands k 0)
                 (foldl loadTile (Queue_setAllPriorities 0 s) cands).
Proof.
  intros Hwf.
  apply (listed_priority_known cands (Queue_setAllPriorities 0 s) (λ _, 0%Q));
    [by apply wf_setAll|]. intros k'. by apply setAll_known_zero.
Qed.

(** [__loadTiles] changes nothing when its tiles are all recorded, the
    priorities are those it would give, and no call of [start] is due. *)
Lemma loadTiles_again (cands : list Candidate) (s : Adapter) :
  wf s →
  (∀ c, c ∈ cands → tileId (tile c) ∈ tiles (props s)) →
  (∀ k, known_priority k (listed_priority cands k 0) s) →
  saturated s →
  __loadTiles cands s = s.
Proof.
  intros Hwf Hin Hkp Hsat. unfold __loadTiles.
  set (s2 := foldl loadTile (Queue_setAllPriorities 0 s) cands).
  assert (Hrp : reprioritised s s2)
    by (apply reprioritised_loop; [done | apply reprioritised_setAll]).
  assert (Hkp2 : ∀ k, known_priority k (listed_priority cands k 0) s2)
    by (intros k; by apply loadTiles_known).
  assert (Hheap : heap s2 = heap s).
  { apply list_eq. intros r. destruct (heap s !! r) as [t|] eqn:Ht.
    - destruct (rp_heap _ _ Hrp _ _ Ht) as (t' & Ht' & Hid & Hfn & Hst & Hp).
      rewrite Ht'. f_equal.
      assert (Hpr : priority t' = priority t).
      { destruct Hp as [?|Hr]; [done|].
        apply elem_of_obj_values in Hr as [k Hr].
        apply (wf_elem s _ _ Hwf) in Hr.
        destruct (Hkp _ _ Hr) as (t0 & Ht0 & Hp0).
        rewrite <- (rp_queue _ _ Hrp) in Hr.
        destruct (Hkp2 _ _ Hr) as (t1 & Ht1 & Hp1). congruence. }
      destruct t, t'. simpl in *. congruence.
    - apply lookup_ge_None. rewrite (rp_length _ _ Hrp). by apply lookup_ge_None. }
  assert (Hs2 : s2 = s).
  { destruct Hrp as [H1 H2 (H3 & H4 & H5 & H6) H7 H8 _ _].
    destruct s, s2. simpl in *. congruence. }
  rewrite Hs2. apply Queue_start_idle.
  destruct (decide (concurency (queue s) ≤ size (runningTasks (queue s)))%nat);
    [by left | right; apply Hsat; lia].
Qed.

(** While the viewer is orderly, a second [__refresh] with the same view
    changes nothing: no task is added, no priority or status changes and
    nothing more is started. *)
Theorem refresh_twice (evs : list ViewerEvent) (view : View) :
  orderly evs = true →
  __refresh view (__refresh view (viewer_run evs init))
  = __refresh view (viewer_run evs init).
Proof.
  set (s := viewer_run evs init). intros Hevs.
  assert (Hwf : wf s) by apply wf_viewer_run, wf_init.
  destruct (ready_viewer_run evs init Hevs wf_init (conj ready_init saturated_init))
    as [Hs _].
  fold s in Hs.
  destruct (ready_refresh view s Hwf Hs) as [[_ Hsat]|E]; [|by rewrite !E].
  unfold __refresh in *. destruct (config_panorama s) as [p|] eqn:Hcfg;
    [|by rewrite Hcfg].
  destruct (same_setup_loadTiles (tilesToLoad p view) s) as (-> & _).
  rewrite Hcfg. apply loadTiles_again; [by apply wf_loadTiles | | | done].
  - intros c Hc. unfold __loadTiles.
    destruct (Queue_start_frame
                (foldl loadTile (Queue_setAllPriorities 0 s) (tilesToLoad p view)))
      as (_ & _ & -> & _).
    rewrite loadTiles_loop_tiles. apply elem_of_union_r, elem_of_list_to_set.
    apply list_elem_of_fmap. by exists c.
  - intros k. unfold __loadTiles. by apply known_priority_Queue_start, loadTiles_known.
Qed.

Lemma refresh_twice_witness :
  __refresh corner_view
    (__refresh corner_view
       (viewer_run [VConfig (Some checked16x8); VLoadTexture panorama16x8] init))
  = __refresh corner_view
      (viewer_run [VConfig (Some checked16x8); VLoadTexture panorama16x8] init).
Proof. apply refresh_twice. reflexivity. Defined.

(** ** Progress of one file *)

Lemma Num_lt_trans (a b c : Num) : Num_lt a b → Num_lt b c → Num_lt a c.
Proof.
  unfold Num_lt, Num_gt. destruct a, b, c; try done.
  repeat destruct (Qlt_le_dec _ _); try done. lra.
Qed.

(** While the file loads, [progress] is the last number reported, the
    first report is 0 and each report is greater than the one before. *)
Lemma progress_reports (es : list LoaderEvent) :
  forallb is_progress es = true →
  ∃ l, reports (loadFile_run true es) = Finite 0 :: l
    ∧ last (Finite 0 :: l) = Some (progress (loadFile_run true es))
    ∧ StronglySorted Num_lt (Finite 0 :: l)
    ∧ outcome (loadFile_run true es) = None.
Proof.
  induction es as [|e es IH] using rev_ind; intros Hes.
  - exists []. repeat split; try done. repeat constructor.
  - rewrite forallb_app in Hes. apply andb_true_iff in Hes as [Hes He].
    destruct (IH Hes) as (l & Hr & Hlast & Hsort & Hout).
    unfold loadFile_run in *. rewrite foldl_app. simpl.
    set (f := foldl (loadFile_on true) (loadFile_begin true) es) in *.
    destruct e as [|lc loaded total|]; [done| |done]. simpl.
    destruct lc; [|by exists l].
    destruct (Num_gt (percent loaded total) (progress f)) eqn:Hgt; [|by exists l].
    exists (l ++ [percent loaded total]). simpl. rewrite Hr.
    split; [done|]. split; [by rewrite app_comm_cons, last_snoc|]. split; [|done].
    rewrite app_comm_cons.
    assert (Hall : Forall (λ x, Num_lt x (percent loaded total)) (Finite 0 :: l)).
    { clear -Hsort Hlast Hgt. revert Hsort Hlast.
      generalize (Finite 0 :: l). intros l'. induction l' as [|x l' IH]; [done|].
      intros Hs Hl. apply StronglySorted_inv in Hs as [Hs Hx].
      destruct l' as [|y l'].
      - simpl in Hl. simplify_eq. by repeat constructor.
      - constructor; [|by apply IH].
        specialize (IH Hs Hl). apply Forall_cons in IH as [Hy _].
        apply Forall_cons in Hx as [Hxy _]. by eapply Num_lt_trans. }
    clear -Hsort Hall. revert Hsort Hall. generalize (Finite 0 :: l).
    intros l'. induction l' as [|x l' IH]; intros Hs Ha; simpl.
    + repeat constructor.
    + apply StronglySorted_inv in Hs as [Hs Hx].
      apply Forall_cons in Ha as [Hxa Ha].
      constructor; [by apply IH|]. apply Forall_app. split; [done|].
      by repeat constructor.
Qed.

Lemma percent_within (loaded total : N) (q : Q) :
  (loaded ≤ total)%N → percent loaded total = Finite q → (0 <= q <= 100)%Q.
Proof.
  unfold percent. intros Hle. destruct (total =? 0)%N eqn:E.
  { by destruct (loaded =? 0)%N. }
  intros [= <-]. apply N.eqb_neq in E.
  assert (Ht : (0 < inject_Z (Z.of_N total))%Q) by (rewrite <- (Zlt_Qlt 0); lia).
  assert (Hl0 : (0 <= inject_Z (Z.of_N loaded))%Q) by (rewrite <- (Zle_Qle 0); lia).
  assert (Hl1 : (inject_Z (Z.of_N loaded) <= inject_Z (Z.of_N total))%Q)
    by (rewrite <- Zle_Qle; lia).
  assert (H0 : (0 <= inject_Z (Z.of_N loaded) / inject_Z (Z.of_N total))%Q).
  { apply Qle_shift_div_l; [done|]. by rewrite Qmult_0_l. }
  assert (H1 : (inject_Z (Z.of_N loaded) / inject_Z (Z.of_N total) <= 1)%Q).
  { apply Qle_shift_div_r; [done|]. by rewrite Qmult_1_l. }
  set (x := (inject_Z (Z.of_N loaded) / inject_Z (Z.of_N total))%Q) in *.
  split; lra.
Qed.

Lemma percent_not_Infinity (loaded total : N) :
  (loaded ≤ total)%N → percent loaded total ≠ Infinity.
Proof.
  unfold percent. intros Hle. destruct (total =? 0)%N eqn:E; [|done].
  apply N.eqb_eq in E. subst. assert (loaded = 0%N) as -> by lia. done.
Qed.

Lemma reports_within (es : list LoaderEvent) :
  Forall within_total es →
  ∃ qs, reports (loadFile_run true es) = Finite <$> qs
    ∧ (∃ q, progress (loadFile_run true es) = Finite q ∧ (0 <= q <= 100)%Q)
    ∧ Forall (λ q, 0 <= q <= 100)%Q qs.
Proof.
  induction es as [|e es IH] using rev_ind; intros Hes.
  - exists [0%Q]. split; [done|]. split; [exists 0%Q; split; [done | lra]|].
    repeat constructor; lra.
  - apply Forall_app in Hes as [Hes He]. apply Forall_cons in He as [He _].
    destruct (IH Hes) as (qs & Hr & (q & Hq & Hq01) & Hall).
    unfold loadFile_run in *. rewrite foldl_app. simpl.
    set (f := foldl (loadFile_on true) (loadFile_begin true) es) in *.
    destruct e as [|lc loaded total|]; simpl.
    + exists (qs ++ [100%Q]). rewrite fmap_app, Hr. split; [done|].
      split; [exists 100%Q; split; [done | lra]|].
      apply Forall_app. split; [done|]. apply Forall_singleton. lra.
    + destruct lc; [|by exists qs; eauto].
      destruct (Num_gt (percent loaded total) (progress f)) eqn:Hgt;
        [|by exists qs; eauto].
      destruct (percent loaded total) as [| |q'] eqn:Hp; [done| |].
      { by destruct (percent_not_Infinity _ _ He). }
      pose proof (percent_within _ _ _ He Hp) as Hq'.
      exists (qs ++ [q']). simpl. rewrite fmap_app, Hr. split; [done|].
      split; [by exists q'|]. apply Forall_app. split; [done|].
      by apply Forall_singleton.
    + exists qs. eauto.
Qed.

(** Until the file is loaded, [onProgress] gets 0 first and then only
    numbers greater than every number it got before. *)
Theorem loadFile_progress_increases (es : list LoaderEvent) :
  forallb is_progress es = true →
  ∃ l, reports (loadFile_run true es) = Finite 0 :: l
    ∧ StronglySorted Num_lt (Finite 0 :: l).
Proof.
  intros Hes. destruct (progress_reports es Hes) as (l & Hr & _ & Hs & _). eauto.
Qed.

Lemma loadFile_progress_increases_witness :
  ∃ l, reports (loadFile_run true [OnProgress true 10 40; OnProgress true 5 40;
                                    OnProgress false 30 40; OnProgress true 20 40])
       = Finite 0 :: l
    ∧ StronglySorted Num_lt (Finite 0 :: l).
Proof. apply loadFile_progress_increases. reflexivity. Defined.

(** When no progress event exceeds its total, every number given to
    [onProgress] lies between 0 and 100, and when the file is loaded the last
    one is 100, which no earlier one exceeds. *)
Theorem loadFile_ends_at_100 (es : list LoaderEvent) :
  Forall within_total es →
  ∃ qs, reports (loadFile_run true (es ++ [OnLoad])) = Finite <$> (qs ++ [100%Q])
    ∧ Forall (λ q, 0 <= q <= 100)%Q qs
    ∧ outcome (loadFile_run true (es ++ [OnLoad]))
      = Some (default true (outcome (loadFile_run true es))).
Proof.
  intros Hes. destruct (reports_within es Hes) as (qs & Hr & _ & Hall).
  exists qs. unfold loadFile_run in *. rewrite foldl_app. simpl.
  rewrite Hr, fmap_app. split; [done|]. split; [done|].
  by destruct (outcome _).
Qed.

Lemma loadFile_ends_at_100_witness :
  ∃ qs, reports (loadFile_run true ([OnProgress true 10 40; OnProgress true 40 40]
                                     ++ [OnLoad]))
        = Finite <$> (qs ++ [100%Q])
    ∧ Forall (λ q, 0 <= q <= 100)%Q qs
    ∧ outcome (loadFile_run true ([OnProgress true 10 40; OnProgress true 40 40]
                                   ++ [OnLoad]))
      = Some (default true (outcome (loadFile_run true [OnProgress true 10 40;
                                                        OnProgress true 40 40]))).
Proof.
  apply loadFile_ends_at_100. repeat constructor; simpl; lia.
Defined.

(** ** The list of current requests *)

Lemma indexOf_None (r : nat) (l : list nat) : indexOf r l = None ↔ r ∉ l.
Proof.
  induction l as [|x l IH]; simpl; [set_solver|].
  case_decide; [set_solver|]. rewrite fmap_None, IH. set_solver.
Qed.

Lemma filter_all {A} (P : A → Prop) `{∀ x, Decision (P x)} (l : list A) :
  (∀ x, x ∈ l → P x) → filter P l = l.
Proof.
  induction l as [|x l IH]; intros Hl; [done|].
  rewrite filter_cons_True by (apply Hl; left). f_equal. apply IH.
  intros y Hy. apply Hl. by right.
Qed.

Lemma forget_request_filter (r : nat) (l : list nat) :
  NoDup l → forget_request r l = filter (λ x, x ≠ r) l.
Proof.
  unfold forget_request. induction l as [|x l IH]; intros Hnd; [done|].
  apply NoDup_cons in Hnd as [Hx Hnd]. simpl. case_decide as E.
  - subst x. simpl. rewrite filter_cons_False by (intros H; by apply H).
    symmetry. apply filter_all. intros y Hy ->. done.
  - rewrite filter_cons_True by done. specialize (IH Hnd).
    destruct (indexOf r l) as [i|]; simpl in *; by f_equal.
Qed.

Lemma begun_xhr_sublist (es : list RequestEvent) : begun_xhr es `sublist_of` begun es.
Proof.
  induction es as [|[r [|]|r] es IH]; simpl; try done.
  - by apply sublist_skip.
  - by apply sublist_cons.
Qed.

Lemma begun_app (es es' : list RequestEvent) : begun (es ++ es') = begun es ++ begun es'.
Proof. unfold begun. by rewrite bind_app. Qed.

(** [this.requests] holds the requests that were begun as an
    [XMLHttpRequest] and have not ended, in the order they were begun;
    a value taken from the cache never enters it. *)
Theorem requests_are_the_unfinished (es : list RequestEvent) :
  NoDup (begun es) →
  (∀ pre r post, es = pre ++ ReqEnd r :: post → r ∈ begun pre) →
  foldl requests_on [] es = filter (λ r, r ∉ ended es) (begun_xhr es).
Proof.
  induction es as [|e es IH] using rev_ind; intros Hnd Hord; [done|].
  rewrite begun_app in Hnd. apply NoDup_app in Hnd as (Hnd & Hfresh & _).
  assert (IH' : foldl requests_on [] es = filter (λ r, r ∉ ended es) (begun_xhr es)).
  { apply IH; [done|]. intros pre r post ->.
    apply (Hord pre r (post ++ [e])). by rewrite <- app_assoc. }
  clear IH. rewrite foldl_app. simpl. rewrite IH'.
  unfold ended, begun_xhr. rewrite !bind_app.
  fold (ended es). fold (begun_xhr es).
  assert (Hnot : ∀ r, r ∈ ended es → r ∈ begun es).
  { intros r Hr. unfold ended in Hr. apply list_elem_of_bind in Hr as (e0 & Hin & He0).
    destruct e0 as [|r0]; [by apply not_elem_of_nil in Hin|].
    apply list_elem_of_singleton in Hin as ->.
    apply list_elem_of_split in He0 as (pre & post & ->).
    rewrite begun_app. apply elem_of_app. left.
    apply (Hord pre r0 (post ++ [e])). by rewrite <- app_assoc. }
  destruct e as [r [|]|r]; simpl; rewrite ?app_nil_r.
  - rewrite filter_app. f_equal.
    rewrite filter_cons_True; [done|]. intros Hr%Hnot.
    apply (Hfresh r); [done|]. simpl. left.
  - done.
  - rewrite forget_request_filter.
    + rewrite list_filter_filter. apply list_filter_iff. intros x.
      rewrite elem_of_app, list_elem_of_singleton. tauto.
    + apply NoDup_filter. eapply sublist_NoDup; [|apply begun_xhr_sublist]. done.
Qed.

Lemma requests_are_the_unfinished_witness :
  foldl requests_on [] [ReqBegin 1 true; ReqBegin 2 false; ReqBegin 3 true; ReqEnd 1; ReqEnd 2]
  = filter (λ r, r ∉ ended [ReqBegin 1 true; ReqBegin 2 false; ReqBegin 3 true; ReqEnd 1; ReqEnd 2])
           (begun_xhr [ReqBegin 1 true; ReqBegin 2 false; ReqBegin 3 true; ReqEnd 1; ReqEnd 2]).
Proof.
  apply requests_are_the_unfinished.
  - vm_compute. repeat constructor; set_solver.
  - intros pre r post H.
    do 6 (destruct pre as [|? pre]; simplify_eq/=; try set_solver).
Defined.

(** ** The images of the cube *)

(** An array of six entries is taken as it is, whatever the entries are, and
    [cleanPanorama] is a rearrangement of it. *)
Theorem cubemap_array_rearranged (l : list (option string)) :
  length l = 6%nat →
  ∃ c, cleanPanorama (CubeArray l) = CubeClean c ∧ c ≡ₚ l.
Proof.
  intros Hl. do 7 (destruct l as [|? l]; try done).
  eexists. split; [reflexivity|]. simpl. apply Permutation_skip.
  apply (Permutation_cons_app [o0] [o2; o3; o4]).
  apply (Permutation_cons_app [o0; o2] [o4]).
  apply (Permutation_cons_app [o0; o2] []).
  apply perm_swap.
Qed.

Lemma cubemap_array_rearranged_witness :
  ∃ c, cleanPanorama (CubeArray [Some "l"; None; Some "r"; Some "b"; Some "t"; Some "d"])
       = CubeClean c
    ∧ c ≡ₚ [Some "l"; None; Some "r"; Some "b"; Some "t"; Some "d"].
Proof. apply cubemap_array_rearranged. reflexivity. Defined.

(** The array [[left, front, right, back, top, bottom]] and the object with
    these six sides give the same [cleanPanorama], in the order left, right,
    top, bottom, back, front. *)
Theorem cubemap_array_object_agree (left front right back top bottom : option string) :
  truthy left = true → truthy front = true → truthy right = true →
  truthy back = true → truthy top = true → truthy bottom = true →
  cleanPanorama (CubeArray [left; front; right; back; top; bottom])
  = CubeClean [left; right; top; bottom; back; front]
  ∧ cleanPanorama (CubeObject (cube_object left front right back top bottom))
    = CubeClean [left; right; top; bottom; back; front].
Proof.
  intros H1 H2 H3 H4 H5 H6. split; [reflexivity|].
  unfold cleanPanorama.
  assert (E : cube_object left front right back top bottom <$> CUBE_HASHMAP
              = [left; right; top; bottom; back; front]) by reflexivity.
  assert (F : forallb (λ side, truthy (cube_object left front right back top bottom side))
                CUBE_HASHMAP = true).
  { change (truthy left && (truthy right && (truthy top && (truthy bottom
              && (truthy back && (truthy front && true))))) = true).
    by rewrite H1, H2, H3, H4, H5, H6. }
  by rewrite F, E.
Qed.

Lemma cubemap_array_object_agree_witness :
  cleanPanorama (CubeArray [Some "l"; Some "f"; Some "r"; Some "b"; Some "t"; Some "d"])
  = CubeClean [Some "l"; Some "r"; Some "t"; Some "d"; Some "b"; Some "f"]
  ∧ cleanPanorama (CubeObject (cube_object (Some "l") (Some "f") (Some "r") (Some "b")
                                           (Some "t") (Some "d")))
    = CubeClean [Some "l"; Some "r"; Some "t"; Some "d"; Some "b"; Some "f"].
Proof. apply cubemap_array_object_agree; reflexivity. Defined.

(** ** The progress shown while the six images load *)

Lemma utils_sum_Finite (ps : list Q) (a : Q) :
  foldl Num_add (Finite a) (Finite <$> ps) = Finite (foldl Qplus a ps).
Proof. revert a. induction ps as [|p ps IH]; intros a; simpl; [done | apply IH]. Qed.

Lemma foldl_Qplus_acc (ps : list Q) (a : Q) :
  (foldl Qplus a ps == a + foldl Qplus 0 ps)%Q.
Proof.
  revert a. induction ps as [|p ps IH]; intros a; simpl; [ring|].
  rewrite (IH (a + p)%Q), (IH (0 + p)%Q). ring.
Qed.

Lemma foldl_Qplus_insert (ps : list Q) (i : nat) (q q' : Q) :
  ps !! i = Some q →
  (foldl Qplus 0 (<[i := q']> ps) == foldl Qplus 0 ps + (q' - q))%Q.
Proof.
  revert i. induction ps as [|p ps IH]; intros i Hi; [done|].
  destruct i as [|i]; simpl in *.
  - simplify_eq. rewrite (foldl_Qplus_acc ps (0 + q')%Q), (foldl_Qplus_acc ps (0 + q)%Q). ring.
  - rewrite (foldl_Qplus_acc _ (0 + p)%Q), (foldl_Qplus_acc ps (0 + p)%Q), (IH _ Hi). ring.
Qed.

Lemma foldl_Qplus_bounds (ps : list Q) :
  Forall (λ q, 0 <= q <= 100)%Q ps →
  (0 <= foldl Qplus 0 ps <= 100 * inject_Z (Z.of_nat (length ps)))%Q.
Proof.
  induction ps as [|p ps IH]; intros Hps.
  - split; by vm_compute.
  - apply Forall_cons in Hps as [Hp Hps]. specialize (IH Hps). simpl length.
    rewrite Nat2Z.inj_succ. unfold Z.succ. rewrite inject_Z_plus.
    change (inject_Z 1) with 1%Q. simpl foldl.
    rewrite (foldl_Qplus_acc ps (0 + p)%Q).
    set (x := foldl Qplus 0%Q ps) in *. set (n := inject_Z (Z.of_nat (length ps))) in *.
    split; lra.
Qed.

Lemma foldl_Qplus_full (ps : list Q) :
  Forall (λ q, q = 100%Q) ps →
  (foldl Qplus 0 ps == 100 * inject_Z (Z.of_nat (length ps)))%Q.
Proof.
  induction ps as [|p ps IH]; intros Hps.
  - by vm_compute.
  - apply Forall_cons in Hps as [-> Hps]. specialize (IH Hps). simpl length.
    rewrite Nat2Z.inj_succ. unfold Z.succ. rewrite inject_Z_plus.
    change (inject_Z 1) with 1%Q. simpl foldl.
    rewrite (foldl_Qplus_acc ps (0 + 100)%Q), IH. ring.
Qed.

(** One callback of [loadFile]: [progress] does not go down and stays at
    most 100, and at most one number is reported, the new [progress]. *)
Lemma loadFile_on_cases (f : FileLoad) (e : LoaderEvent) (q : Q) :
  within_total e → progress f = Finite q → (0 <= q <= 100)%Q →
  (outcome f = Some true → q = 100%Q) →
  ∃ q', progress (loadFile_on true f e) = Finite q'
    ∧ (q <= q' <= 100)%Q
    ∧ (outcome (loadFile_on true f e) = Some true → q' = 100%Q)
    ∧ (drop (length (reports f)) (reports (loadFile_on true f e)) = [] ∧ q' = q
       ∨ drop (length (reports f)) (reports (loadFile_on true f e)) = [Finite q']).
Proof.
  intros He Hq Hq01 Hdone. destruct e as [|lc loaded total|]; simpl.
  - exists 100%Q. split; [done|]. split; [lra|]. split; [done|]. right.
    by rewrite drop_app_length.
  - assert (Hsame : ∃ q', progress f = Finite q' ∧ (q <= q' <= 100)%Q
      ∧ (outcome f = Some true → q' = 100%Q)
      ∧ (drop (length (reports f)) (reports f) = [] ∧ q' = q
         ∨ drop (length (reports f)) (reports f) = [Finite q'])).
    { exists q. split; [done|]. split; [lra|]. split; [done|]. left.
      by rewrite drop_all. }
    destruct lc; [|done].
    destruct (Num_gt (percent loaded total) (progress f)) eqn:Hgt; [|done].
    destruct (percent loaded total) as [| |q'] eqn:Hp; [done| |].
    { by destruct (percent_not_Infinity _ _ He). }
    pose proof (percent_within _ _ _ He Hp) as Hq'.
    rewrite Hq in Hgt. simpl in Hgt.
    destruct (Qlt_le_dec q q') as [Hlt|]; [|done].
    exists q'. simpl. split; [done|]. split; [lra|]. split.
    + intros Ho. rewrite (Hdone Ho) in Hlt. lra.
    + right. by rewrite drop_app_length.
  - exists q. split; [done|]. split; [lra|]. split.
    + destruct (outcome f) as [[|]|]; simpl; [auto | done | done].
    + left. by rewrite drop_all.
Qed.

Lemma Qle_snoc (qs : list Q) (y : Q) :
  StronglySorted Qle qs → Forall (λ q, q <= y)%Q qs → StronglySorted Qle (qs ++ [y]).
Proof.
  induction qs as [|x qs IH]; intros Hs Ha; simpl; [repeat constructor|].
  apply StronglySorted_inv in Hs as [Hs Hx]. apply Forall_cons in Ha as [Hxy Ha].
  constructor; [by apply IH|]. apply Forall_app. split; [done|].
  by apply Forall_singleton.
Qed.

Lemma cube_inv_range (c : Cubemap) (ps qs : list Q) :
  cube_inv c ps qs → Forall (λ q, 0 <= q <= 100)%Q ps.
Proof.
  intros [H1 H2 [H3 H3'] H4 H5 H6 H7 H8]. apply Forall_lookup. intros j x Hx.
  destruct (lookup_lt_is_Some_2 (loads c) j) as [fj Hfj].
  { rewrite H3', <- H3. by eapply lookup_lt_Some. }
  destruct (H4 _ _ Hfj) as (x' & _ & Hx' & Hr & _). by simplify_eq.
Qed.

(** Image [i] reports a number that is at least the one before. *)
Lemma cube_inv_report (c : Cubemap) (ps qs : list Q) (i : nat) (f f' : FileLoad)
    (q q' : Q) :
  cube_inv c ps qs → loads c !! i = Some f → ps !! i = Some q →
  progress f' = Finite q' → (q <= q' <= 100)%Q → (0 <= q)%Q →
  (outcome f' = Some true → q' = 100%Q) →
  cube_inv (cube_report i (mkCubemap (<[i := f']> (loads c)) (progress6 c) (shown c))
                        (Finite q'))
           (<[i := q']> ps)
           (qs ++ [foldl Qplus 0 (<[i := q']> ps) / 6]%Q).
Proof.
  intros Hinv Hf Hi Hq' Hle Hq0 Hdone.
  pose proof (cube_inv_range _ _ _ Hinv) as Hps.
  destruct Hinv as [H1 H2 [H3 H3'] H4 H5 H6 H7 H8].
  pose proof (foldl_Qplus_insert ps i q q' Hi) as Hsum.
  assert (Hup : (foldl Qplus 0 ps / 6 <= foldl Qplus 0 (<[i:=q']> ps) / 6)%Q).
  { rewrite Hsum. set (x := foldl Qplus 0%Q ps). unfold Qdiv.
    apply Qmult_le_compat_r; [lra | done]. }
  assert (Hrange : Forall (λ q0, 0 <= q0 <= 100)%Q (<[i := q']> ps)).
  { apply Forall_insert; [done | lra]. }
  pose proof (foldl_Qplus_bounds _ Hrange) as Hb.
  rewrite length_insert, H3 in Hb. change (inject_Z (Z.of_nat 6)) with 6%Q in Hb.
  split.
  - simpl. by rewrite H1, list_fmap_insert.
  - simpl. rewrite H2, fmap_app. f_equal. simpl. f_equal.
    rewrite H1, <- list_fmap_insert. unfold utils_sum. by rewrite utils_sum_Finite.
  - simpl. by rewrite !length_insert.
  - simpl. intros j fj Hfj. destruct (decide (j = i)) as [->|Hne].
    + rewrite list_lookup_insert_eq in Hfj by (by eapply lookup_lt_Some).
      simplify_eq. exists q'.
      rewrite list_lookup_insert_eq by (by eapply lookup_lt_Some).
      split; [done|]. split; [done|]. split; [lra | done].
    + rewrite list_lookup_insert_ne in Hfj by done.
      rewrite list_lookup_insert_ne by done. by apply H4.
  - apply Forall_app. split; [done|]. apply Forall_singleton.
    set (x := foldl Qplus 0%Q (<[i:=q']> ps)) in *. split.
    + apply Qle_shift_div_l; lra.
    + apply Qle_shift_div_r; lra.
  - apply Qle_snoc; [done|]. eapply Forall_impl; [exact H7|].
    intros x Hx. simpl in Hx. lra.
  - apply Forall_app. split.
    + eapply Forall_impl; [exact H7|]. intros x Hx. simpl in Hx. lra.
    + apply Forall_singleton. lra.
  - eexists. split; [apply last_snoc | reflexivity].
Qed.

Lemma cube_inv_on (c : Cubemap) (ps qs : list Q) (ie : nat * LoaderEvent) :
  within_total ie.2 → cube_inv c ps qs →
  ∃ ps' qs', cube_inv (cube_on c ie) ps' qs'.
Proof.
  intros He Hinv. destruct ie as [i e]. unfold cube_on. simpl in *.
  destruct (loads c !! i) as [f|] eqn:Hf; [|by exists ps, qs].
  destruct (ci_load _ _ _ Hinv _ _ Hf) as (q & Hq & Hi & Hq01 & Hdone).
  destruct (loadFile_on_cases f e q He Hq Hq01 Hdone)
    as (q' & Hq' & Hle & Hdone' & [[-> ->]| ->]); simpl.
  - exists ps, qs. destruct Hinv as [H1 H2 [H3 H3'] H4 H5 H6 H7 H8].
    split; simpl; try done.
    + split; [done | by rewrite length_insert].
    + intros j fj Hfj. destruct (decide (j = i)) as [->|Hne].
      * rewrite list_lookup_insert_eq in Hfj by (by eapply lookup_lt_Some).
        simplify_eq. exists q. by rewrite Hq'.
      * rewrite list_lookup_insert_ne in Hfj by done. by apply H4.
  - eexists _, _. eapply cube_inv_report; try done. lra.
Qed.

Lemma cube_inv_begin :
  cube_inv cube_begin (replicate 6 0%Q) (replicate 6 (0 / 6)%Q).
Proof.
  split.
  - reflexivity.
  - reflexivity.
  - by split.
  - intros i f Hf. exists 0%Q.
    do 6 (destruct i as [|i]; [simpl in Hf; simplify_eq; repeat split; try done; lra|]).
    done.
  - apply Forall_replicate. split; by vm_compute.
  - cbn [replicate].
    repeat (apply SSorted_cons;
            [|repeat (apply Forall_cons_2; [by vm_compute|]); apply Forall_nil_2]).
    apply SSorted_nil.
  - apply Forall_replicate. by vm_compute.
  - eexists. split; [reflexivity|]. by vm_compute.
Qed.

Lemma cube_inv_run (es : list (nat * LoaderEvent)) :
  Forall (λ ie, within_total ie.2) es →
  ∃ ps qs, cube_inv (cube_run es) ps qs.
Proof.
  induction es as [|e es IH] using rev_ind; intros Hes.
  - eexists _, _. apply cube_inv_begin.
  - apply Forall_app in Hes as [Hes He]. apply Forall_cons in He as [He _].
    destruct (IH Hes) as (ps & qs & Hinv).
    unfold cube_run. rewrite foldl_app. simpl. by eapply cube_inv_on.
Qed.

(** When no progress event exceeds its total, the numbers given to
    [setProgress] lie between 0 and 100 and never go down, whatever the order
    in which the six loaders call back; once the six files are loaded the
    last number is 100. *)
Theorem cubemap_progress_monotone (es : list (nat * LoaderEvent)) :
  Forall (λ ie, within_total ie.2) es →
  ∃ qs, shown (cube_run es) = Finite <$> qs
    ∧ Forall (λ q, 0 <= q <= 100)%Q qs
    ∧ StronglySorted Qle qs
    ∧ ((∀ f, f ∈ loads (cube_run es) → outcome f = Some true) →
       ∃ q, last qs = Some q ∧ (q == 100)%Q).
Proof.
  intros Hes. destruct (cube_inv_run es Hes) as (ps & qs & Hinv).
  exists qs. destruct Hinv as [H1 H2 [H3 H3'] H4 H5 H6 H7 (q & Hlast & Hq)].
  split; [done|]. split; [done|]. split; [done|]. intros Hall.
  exists q. split; [done|]. rewrite Hq.
  assert (Hfull : Forall (λ q, q = 100%Q) ps).
  { apply Forall_lookup. intros j x Hx.
    destruct (lookup_lt_is_Some_2 (loads (cube_run es)) j) as [fj Hfj].
    { rewrite H3', <- H3. by eapply lookup_lt_Some. }
    destruct (H4 _ _ Hfj) as (x' & _ & Hx' & _ & Hd). simplify_eq.
    apply Hd, Hall. by eapply list_elem_of_lookup_2. }
  rewrite (foldl_Qplus_full _ Hfull), H3. reflexivity.
Qed.

Lemma cubemap_progress_monotone_witness :
  ∃ qs, shown (cube_run [(0%nat, OnProgress true 1 2); (3%nat, OnLoad);
                         (0%nat, OnLoad)])
        = Finite <$> qs
    ∧ Forall (λ q, 0 <= q <= 100)%Q qs
    ∧ StronglySorted Qle qs
    ∧ ((∀ f, f ∈ loads (cube_run [(0%nat, OnProgress true 1 2); (3%nat, OnLoad);
                                  (0%nat, OnLoad)]) → outcome f = Some true) →
       ∃ q, last qs = Some q ∧ (q == 100)%Q).
Proof.
  apply cubemap_progress_monotone. repeat constructor; simpl; lia.
Defined.
